(** * BeagleG motor operations: movement requests to motion segments

    A shallow embedding of [motor-operations.c]: the dominant-axis selector
    [get_defining_axis_steps], the segment synthesizer
    [beagleg_enqueue_internal] and the movement splitter [beagleg_enqueue],
    followed by the properties the design document states about them.
    The line reader [NextLine] of [config-parser.cc] and the [StringPiece]
    of [string-util.h] it works on are embedded beside them.

    Machine integers are values in [Z] with the wrap-around of each C type
    written out.  [float] and [double] are IEEE-754 binary32 and binary64,
    given by the executable specification [SpecFloat] of the standard
    library (round to nearest, ties to even); every operation rounds once,
    to the type C gives it ([FLT_EVAL_METHOD] 0). *)

From Stdlib Require Import ZArith List Bool Lia String Ascii SpecFloat.
Import ListNotations.
Local Open Scope Z_scope.

(** ** Machine integers *)

Module CInt.

(** Value of a [w]-bit unsigned object after storing [z]. *)
Definition uwrap (w z : Z) : Z := z mod 2 ^ w.

(** Value of a [w]-bit two's-complement object after storing [z]. *)
Definition swrap (w z : Z) : Z := (z + 2 ^ (w - 1)) mod 2 ^ w - 2 ^ (w - 1).

Definition INT_MIN : Z := - 2 ^ 31.
Definition INT_MAX : Z := 2 ^ 31 - 1.

Definition int32 (z : Z) : Z := swrap 32 z.
Definition int64 (z : Z) : Z := swrap 64 z.
Definition uint16 (z : Z) : Z := uwrap 16 z.
Definition uint32 (z : Z) : Z := uwrap 32 z.
Definition uint64 (z : Z) : Z := uwrap 64 z.

(** [abs] of <stdlib.h>.  C leaves [abs(INT_MIN)] undefined; the model
    gives it the two's-complement result [INT_MIN]. *)
Definition abs (x : Z) : Z := int32 (Z.abs x).

(** The step counts on which [abs] is defined. *)
Definition abs_defined (x : Z) : Prop := INT_MIN < x <= INT_MAX.

End CInt.

(** ** Floating point *)

(** Operations shared by both formats; [prec] and [emax] select one. *)
Module FloatFormat.
Section Format.
Variables prec emax : Z.

Definition of_Z (z : Z) : spec_float := binary_normalize prec emax z 0 false.

(** Conversion of a value of another binary format into this one. *)
Definition convert (x : spec_float) : spec_float :=
  match x with
  | S754_finite s m e => binary_round prec emax s m e
  | _ => x
  end.
End Format.
End FloatFormat.

(** C [float]. *)
Module F32.
Definition prec : Z := 24.
Definition emax : Z := 128.
Definition add := SFadd prec emax.
Definition sub := SFsub prec emax.
Definition mul := SFmul prec emax.
Definition div := SFdiv prec emax.
Definition sqrtf := SFsqrt prec emax.
Definition ltb := SFltb.
Definition eqb := SFeqb.
Definition of_int := FloatFormat.of_Z prec emax.
(** [(float) d] for a [double] d. *)
Definition of_double := FloatFormat.convert prec emax.
Definition valid := valid_binary prec emax.
End F32.

(** C [double]. *)
Module F64.
Definition prec : Z := 53.
Definition emax : Z := 1024.
Definition add := SFadd prec emax.
Definition sub := SFsub prec emax.
Definition mul := SFmul prec emax.
Definition div := SFdiv prec emax.
Definition sqrt := SFsqrt prec emax.
Definition ltb := SFltb.
Definition of_int := FloatFormat.of_Z prec emax.
(** [(double) f] for a [float] f; the value is unchanged. *)
Definition of_float := FloatFormat.convert prec emax.
Definition valid := valid_binary prec emax.
End F64.

(** [roundf] followed by the conversion to [int], on the magnitude
    [m * 2^e]: nearest integer, halfway cases away from zero. *)
Definition round_half_away (m : positive) (e : Z) : Z :=
  if 0 <=? e then Z.pos m * 2 ^ e
  else (Z.pos m + 2 ^ (- e - 1)) / 2 ^ (- e).

(** [static inline int round2int(float x) { return (int) roundf(x); }]
    The conversion to [int] is undefined for NaN, the infinities and values
    outside the range of [int]: these give [None]. *)
Definition round2int (x : spec_float) : option Z :=
  match x with
  | S754_zero _ => Some 0
  | S754_finite s m e =>
      let z := cond_Zopp s (round_half_away m e) in
      if (CInt.INT_MIN <=? z) && (z <=? CInt.INT_MAX) then Some z else None
  | _ => None
  end.

(** ** Data model *)

(** [struct MotorMovement].  A field of a C object holds a value or, when
    it was never assigned, is indeterminate: [aux_bits] is an [option]
    because the splitter builds a movement without assigning it. *)
Record MotorMovement := {
  v0 : spec_float;
  v1 : spec_float;
  aux_bits : option Z;
  steps : list Z
}.

(** [struct MotionSegment].  [None] is an indeterminate value: a field that
    was never assigned, or the result of an undefined conversion. *)
Record MotionSegment := {
  state : Z;
  direction_bits : Z;
  loops_accel : Z;
  loops_travel : Z;
  loops_decel : Z;
  aux : option Z;
  accel_series_index : option Z;
  hires_accel_cycles : option Z;
  travel_delay_cycles : option Z;
  fractions : list Z
}.

(** [FILE *]: the null pointer or an open stream. *)
Inductive stream := Stderr | Stream (fd : nat).

(** What the module can observe and change: the segments handed to
    [backend->enqueue], in call order, and the text written to streams. *)
Record World := {
  queue : list MotionSegment;
  written : list (stream * string);
  (** History variable: the arguments of every call of
      [beagleg_enqueue_internal], in call order. *)
  synthesizer_calls : list (MotorMovement * Z)
}.

Definition backend_enqueue (seg : MotionSegment) (w : World) : World :=
  {| queue := queue w ++ [seg];
     written := written w;
     synthesizer_calls := synthesizer_calls w |}.

Definition fprintf (f : stream) (msg : string) (w : World) : World :=
  {| queue := queue w;
     written := written w ++ [(f, msg)];
     synthesizer_calls := synthesizer_calls w |}.

Definition record_call (param : MotorMovement) (defining_axis_steps : Z) (w : World)
  : World :=
  {| queue := queue w;
     written := written w;
     synthesizer_calls := synthesizer_calls w ++ [(param, defining_axis_steps)] |}.

Definition empty_world : World :=
  {| queue := []; written := []; synthesizer_calls := [] |}.

(** ** Constants of the source file *)

(** [#define LOOPS_PER_STEP (1 << 1)] *)
Definition LOOPS_PER_STEP : Z := Z.shiftl 1 1.

(** [#define MAX_STEPS_PER_SEGMENT (65535 / LOOPS_PER_STEP)] *)
Definition MAX_STEPS_PER_SEGMENT : Z := 65535 ÷ LOOPS_PER_STEP.

(** [hardware_frequency_limit_ = 1e6;] in [beagleg_init_motor_ops], the only
    assignment to that variable, made before [beagleg_enqueue] can be
    reached through the operations table. *)
Definition hardware_frequency_limit_after_init : spec_float :=
  F32.of_double (F64.of_int 1000000).

(** The literal [0.67605f]: the [float] nearest to 67605/100000. *)
Definition first_step_correction : spec_float :=
  F32.div (F32.of_int 67605) (F32.of_int 100000).

(** The option monad for computations on indeterminate values. *)
Definition obind {A B : Type} (o : option A) (f : A -> option B) : option B :=
  match o with Some a => f a | None => None end.

(** ** [string-util.h]: pieces of a character buffer *)

Module StringPiece.

Section Sizes.

(** [SIZE_MAX] of [<stdint.h>]: the largest [size_t] of the platform. *)
Variable SIZE_MAX : Z.

(** Arithmetic in [size_t] wraps. *)
Definition size_t (x : Z) : Z := x mod (SIZE_MAX + 1).

(** [const char *data_; size_t len_;] A pointer into the character buffer
    is the offset of the character it points at; [None] is [NULL]. *)
Record t := { data_ : option Z; len_ : Z }.

(** Pointer plus offset; [NULL] stays [NULL]. *)
Definition ptr_add (p : option Z) (n : Z) : option Z :=
  option_map (fun a => a + n) p.

(** [StringPiece() : data_(NULL), len_(0)] *)
Definition null : t := {| data_ := None; len_ := 0 |}.

(** [void assign(const char *data, size_t len)] *)
Definition assign (data : option Z) (len : Z) : t :=
  {| data_ := data; len_ := len |}.

Definition data (s : t) : option Z := data_ s.
Definition length (s : t) : Z := len_ s.
Definition empty (s : t) : bool := len_ s =? 0.
Definition begin (s : t) : option Z := data_ s.
Definition end_ (s : t) : option Z := ptr_add (data_ s) (len_ s).

(** [StringPiece substr(size_t pos, size_t len) const]: [None] when the
    assertion [pos + len <= len_] fails. *)
Definition substr (s : t) (pos len : Z) : option t :=
  if size_t (pos + len) <=? len_ s
  then Some {| data_ := ptr_add (data_ s) pos; len_ := len |}
  else None.

(** [StringPiece substr(size_t pos) const] *)
Definition substr_from (s : t) (pos : Z) : option t :=
  substr s pos (size_t (length s - pos)).

End Sizes.

(** [*p] for a pointer into the buffer [mem]: [None] outside of it. *)
Definition read (mem : list ascii) (p : Z) : option ascii :=
  if p <? 0 then None else nth_error mem (Z.to_nat p).

(** [std::string ToString() const]: the [len_] characters from [data_]
    on. *)
Definition ToString (mem : list ascii) (s : t) : list ascii :=
  match data_ s with
  | None => []
  | Some p => firstn (Z.to_nat (len_ s)) (skipn (Z.to_nat p) mem)
  end.

End StringPiece.

(** ** [config-parser.cc]: cutting the content into lines *)

Module ConfigParser.

Section Lines.

Variable SIZE_MAX : Z.

(** ['\n'] and ['\r'] *)
Definition newline : ascii := ascii_of_nat 10.
Definition carriage_return : ascii := ascii_of_nat 13.

(** [*endline == '#' || *endline == '\r' || *endline == '\n'] *)
Definition ends_line (c : ascii) : bool :=
  Ascii.eqb c "#" || Ascii.eqb c carriage_return || Ascii.eqb c newline.

Definition is_newline (c : ascii) : bool := Ascii.eqb c newline.

(** The [for] loop of [NextLine]; [n] is [source->end() - endline], the
    number of characters still to look at.  The value is the piece returned
    and the [*source] left behind, [None] when the loop reads outside the
    buffer. *)
Fixpoint NextLine_loop (mem : list ascii) (source : StringPiece.t) (start : Z)
    (n : nat) (endline : Z) (result : StringPiece.t)
  : option (StringPiece.t * StringPiece.t) :=
  match n with
  | O =>
      Some (StringPiece.assign (Some start) (StringPiece.size_t SIZE_MAX (endline - start)),
            StringPiece.assign (StringPiece.end_ source) 0)
  | S n' =>
      match StringPiece.read mem endline with
      | None => None
      | Some c =>
          let result :=
            match StringPiece.data result with
            | None =>
                if ends_line c
                then StringPiece.assign (Some start)
                       (StringPiece.size_t SIZE_MAX (endline - start))
                else result
            | Some _ => result
            end in
          if is_newline c
          then Some (result,
                     StringPiece.assign (Some (endline + 1))
                       (StringPiece.size_t SIZE_MAX
                          (StringPiece.length source - (endline - start) - 1)))
          else NextLine_loop mem source start n' (endline + 1) result
      end
  end.

(** [static StringPiece NextLine(StringPiece *source)] *)
Definition NextLine (mem : list ascii) (source : StringPiece.t)
  : option (StringPiece.t * StringPiece.t) :=
  if StringPiece.length source =? 0 then Some (StringPiece.null, source)
  else
    match StringPiece.begin source with
    | None => None
    | Some start =>
        NextLine_loop mem source start (Z.to_nat (StringPiece.length source))
          start StringPiece.null
    end.

(** The header of the loop of [EmitConfigValues]:
    [for (line = NextLine(&content_data); line.data() != NULL;
          line = NextLine(&content_data))]: the lines it goes through,
    [None] when [fuel] iterations do not reach the end or a call reads
    outside the buffer. *)
Fixpoint content_lines (mem : list ascii) (fuel : nat) (content_data : StringPiece.t)
  : option (list StringPiece.t) :=
  match fuel with
  | O => None
  | S fuel' =>
      match NextLine mem content_data with
      | None => None
      | Some (line, content_data') =>
          match StringPiece.data line with
          | None => Some []
          | Some _ =>
              option_map (cons line) (content_lines mem fuel' content_data')
          end
      end
  end.

End Lines.

End ConfigParser.

(** The vocabulary of the properties of the line reader. *)

(** The piece [s] lies inside the buffer [mem]. *)
Definition inside (SIZE_MAX : Z) (mem : list ascii) (s : StringPiece.t) : Prop :=
  match StringPiece.data_ s with
  | None => StringPiece.len_ s = 0
  | Some p =>
      0 <= p /\ 0 <= StringPiece.len_ s <= SIZE_MAX /\
      p + StringPiece.len_ s <= Z.of_nat (List.length mem)
  end.

(** The characters before the first one that satisfies [stop], and those
    after it. *)
Fixpoint before (stop : ascii -> bool) (l : list ascii) : list ascii :=
  match l with
  | [] => []
  | c :: l' => if stop c then [] else c :: before stop l'
  end.

Fixpoint after (stop : ascii -> bool) (l : list ascii) : list ascii :=
  match l with
  | [] => []
  | c :: l' => if stop c then l' else after stop l'
  end.

(** The text holds a last line that no newline ends. *)
Definition open_line (text : list ascii) : bool :=
  match rev text with
  | [] => false
  | c :: _ => negb (ConfigParser.is_newline c)
  end.

(** The number of lines of a text: one for each newline and one for an
    unfinished last line. *)
Definition line_count (text : list ascii) : nat :=
  (List.length (filter ConfigParser.is_newline text)
   + if open_line text then 1 else 0)%nat.

(** * Motor operations *)

Section MotorOperations.

(** Constants of [motor-interface-constants.h], [motion-queue.h] and
    [motor-operations.h], which are not part of the sources at hand. *)
Variable TIMER_FREQUENCY : Z.
Variable DELAY_CYCLE_SHIFT : Z.
Variable STATE_FILLED : Z.
Variable BEAGLEG_NUM_MOTORS : nat.

(** Modelled from the spec: [MOTION_MOTOR_COUNT] is declared in
    [motion-queue.h]; the design has one axis count N for the step vector
    of a request and for the fractions of a segment. *)
Definition MOTION_MOTOR_COUNT : nat := BEAGLEG_NUM_MOTORS.

(** [static float hardware_frequency_limit_;] *)
Variable hardware_frequency_limit_ : spec_float.

(** [static inline float sq(float x) { return x * x; }] *)
Definition sq (x : spec_float) : spec_float := F32.mul x x.

(** [static inline double sqd(double x) { return x * x; }] *)
Definition sqd (x : spec_float) : spec_float := F64.mul x x.

(** [return v < hardware_frequency_limit_ ? v : hardware_frequency_limit_;] *)
Definition clip_hardware_frequency_limit (v : spec_float) : spec_float :=
  if F32.ltb v hardware_frequency_limit_ then v else hardware_frequency_limit_.

Definition calcAccelerationCurveValueAt (index : Z) (acceleration : spec_float)
  : spec_float :=
  let accel_factor :=
    F32.div
      (F32.mul (F32.of_int TIMER_FREQUENCY)
         (F32.sqrtf
            (F32.div (F32.mul (F32.of_int LOOPS_PER_STEP) (F32.of_int 2))
               acceleration)))
      (F32.of_int LOOPS_PER_STEP) in
  let c0 :=
    if index =? 0 then F32.mul accel_factor first_step_correction
    else accel_factor in
  F32.mul c0
    (F32.sub (F32.sqrtf (F32.of_int (CInt.int32 (index + 1))))
       (F32.sqrtf (F32.of_int index))).

(** Modelled from the spec: the fields of [struct MotionSegment], declared
    in [motion-queue.h].  [direction_bits] is a set of one bit per motor,
    [fractions] an array of [uint32], and the three loop counts are 16-bit
    counters; a value stored in one of them wraps to its width. *)
Definition store_fraction (z : Z) : Z := CInt.uint32 z.

Definition store_loops (z : Z) : Z := CInt.uint16 z.

(** [const uint64_t max_fraction = 0xFFFFFFFF / LOOPS_PER_STEP;] *)
Definition max_fraction : Z := CInt.uint64 (0xFFFFFFFF ÷ LOOPS_PER_STEP).

(** The first loop of [beagleg_enqueue_internal], iteration [i]:
    [if (param->steps[i] < 0) direction_bits |= (1 << i);] *)
Definition direction_bit_step (param_steps : list Z) (bits : Z) (i : nat) : Z :=
  if nth i param_steps 0 <? 0 then Z.lor bits (Z.shiftl 1 (Z.of_nat i)) else bits.

(** [const uint64_t delta = abs(param->steps[i]);
     fractions[i] = delta * max_fraction / defining_axis_steps;] *)
Definition fraction_of (param_steps : list Z) (defining_axis_steps : Z) (i : nat) : Z :=
  let delta := CInt.uint64 (CInt.abs (nth i param_steps 0)) in
  store_fraction
    (CInt.uint64 (delta * max_fraction) / CInt.uint64 defining_axis_steps).

(** The initial delay of an acceleration ramp, shared by the accelerating
    and the decelerating branch: [accel_series_index] and
    [hires_accel_cycles]. *)
Definition ramp_seed (param : MotorMovement) (acceleration : spec_float)
  : option Z * option Z :=
  let accel_loops_from_zero :=
    round2int
      (F32.mul (F32.of_int LOOPS_PER_STEP)
         (F32.div (sq (F32.sub (v0 param) (F32.of_int 0)))
            (F32.mul (F32.of_int 2) acceleration))) in
  (accel_loops_from_zero,
   obind accel_loops_from_zero (fun index =>
     round2int
       (F32.mul (F32.of_int (Z.shiftl 1 DELAY_CYCLE_SHIFT))
          (calcAccelerationCurveValueAt index acceleration)))).

(** The divisor of the travel delay,
    [LOOPS_PER_STEP * travel_speed] with
    [travel_speed = clip_hardware_frequency_limit(param->v0)]. *)
Definition travel_divisor (param : MotorMovement) : spec_float :=
  let travel_speed := clip_hardware_frequency_limit (v0 param) in
  F32.mul (F32.of_int LOOPS_PER_STEP) travel_speed.

(** The body of [beagleg_enqueue_internal] up to the call of
    [backend->enqueue]: the value of [new_element] at that point.  The
    travel branch assigns neither [accel_series_index] nor
    [hires_accel_cycles]. *)
Definition new_element (param : MotorMovement) (defining_axis_steps : Z)
  : MotionSegment :=
  let motors := seq 0 MOTION_MOTOR_COUNT in
  let direction_bits := fold_left (direction_bit_step (steps param)) motors 0 in
  let fractions := map (fraction_of (steps param) defining_axis_steps) motors in
  let total_loops := CInt.int32 (LOOPS_PER_STEP * defining_axis_steps) in
  if F32.eqb (v0 param) (v1 param) then
    {| state := STATE_FILLED;
       direction_bits := direction_bits;
       loops_accel := 0;
       loops_travel := store_loops total_loops;
       loops_decel := 0;
       aux := aux_bits param;
       accel_series_index := None;
       hires_accel_cycles := None;
       travel_delay_cycles :=
         round2int (F32.div (F32.of_int TIMER_FREQUENCY) (travel_divisor param));
       fractions := fractions |}
  else if F32.ltb (v0 param) (v1 param) then
    let acceleration :=
      F32.div (F32.sub (sq (v1 param)) (sq (v0 param)))
        (F32.mul (F32.of_int 2) (F32.of_int defining_axis_steps)) in
    let seed := ramp_seed param acceleration in
    {| state := STATE_FILLED;
       direction_bits := direction_bits;
       loops_accel := store_loops total_loops;
       loops_travel := 0;
       loops_decel := 0;
       aux := aux_bits param;
       accel_series_index := fst seed;
       hires_accel_cycles := snd seed;
       travel_delay_cycles := Some 0;
       fractions := fractions |}
  else
    let acceleration :=
      F32.div (F32.sub (sq (v0 param)) (sq (v1 param)))
        (F32.mul (F32.of_int 2) (F32.of_int defining_axis_steps)) in
    let seed := ramp_seed param acceleration in
    {| state := STATE_FILLED;
       direction_bits := direction_bits;
       loops_accel := 0;
       loops_travel := 0;
       loops_decel := store_loops total_loops;
       aux := aux_bits param;
       accel_series_index := fst seed;
       hires_accel_cycles := snd seed;
       travel_delay_cycles := Some 0;
       fractions := fractions |}.

(** [beagleg_enqueue_internal] *)
Definition beagleg_enqueue_internal
    (param : MotorMovement) (defining_axis_steps : Z) (w : World) : World :=
  backend_enqueue (new_element param defining_axis_steps)
    (record_call param defining_axis_steps w).

(** [get_defining_axis_steps] *)
Definition defining_axis_step (param_steps : list Z) (defining_axis_steps : Z) (i : nat) : Z :=
  if CInt.abs (nth i param_steps 0) >? defining_axis_steps
  then CInt.abs (nth i param_steps 0)
  else defining_axis_steps.

Definition get_defining_axis_steps (param_steps : list Z) : Z :=
  fold_left (defining_axis_step param_steps)
    (seq 1 (BEAGLEG_NUM_MOTORS - 1))
    (CInt.abs (nth 0 param_steps 0)).

(** The state of the splitting loop of [beagleg_enqueue] between two
    divisions: [hires_step_accumulator], [previous.steps] and
    [previous_speed]. *)
Record SplitState := {
  hires_step_accumulator : list Z;
  previous_steps : list Z;
  previous_speed : spec_float
}.

(** The exit speed of a division, in [double]:
    [v0squared = sqd(previous_speed)],
    [v1squared = v0squared + 2.0 * a * division_steps] and
    [v1 = v1squared > 0.0 ? sqrt(v1squared) : 0]. *)
Definition division_exit_speed (a previous_speed : spec_float) (division_steps : Z)
  : spec_float :=
  let v0squared := sqd previous_speed in
  let v1squared :=
    F64.add v0squared
      (F64.mul (F64.mul (F64.of_int 2) a) (F64.of_int division_steps)) in
  if F64.ltb (F64.of_int 0) v1squared then F64.sqrt v1squared
  else F64.of_int 0.

(** One pass of [for (int d = 0; d < divisions; ++d)]: the movement
    [output] of the division, its [division_steps] and the next state.
    [output] is declared without an initializer and its [aux_bits] is never
    assigned. *)
Definition split_division (hires_steps_per_div : list Z) (a : spec_float)
    (st : SplitState) : MotorMovement * Z * SplitState :=
  let motors := seq 0 BEAGLEG_NUM_MOTORS in
  let hires_step_accumulator' :=
    map (fun i => CInt.int64 (nth i (hires_step_accumulator st) 0
                              + nth i hires_steps_per_div 0)) motors in
  let accumulator_steps :=
    map (fun i => CInt.int32 (Z.shiftr (nth i hires_step_accumulator' 0) 32)) motors in
  let output_steps :=
    map (fun i => CInt.int32 (nth i accumulator_steps 0
                              - nth i (previous_steps st) 0)) motors in
  let division_steps := get_defining_axis_steps output_steps in
  let v1 := division_exit_speed a (previous_speed st) division_steps in
  let output :=
    {| v0 := F32.of_double (previous_speed st);
       v1 := F32.of_double v1;
       aux_bits := None;
       steps := output_steps |} in
  (output, division_steps,
   {| hires_step_accumulator := hires_step_accumulator';
      previous_steps := accumulator_steps;
      previous_speed := v1 |}).

Fixpoint split_loop (remaining : nat) (hires_steps_per_div : list Z)
    (a : spec_float) (st : SplitState) (w : World) : World :=
  match remaining with
  | O => w
  | S remaining' =>
      let '(output, division_steps, st') :=
        split_division hires_steps_per_div a st in
      split_loop remaining' hires_steps_per_div a st'
        (beagleg_enqueue_internal output division_steps w)
  end.

Definition zero_steps_message : string :=
  String.append "zero steps. Ignoring command." (String (Ascii.ascii_of_nat 10) EmptyString).

(** [beagleg_enqueue]: the value returned and the world after the call. *)
Definition beagleg_enqueue (param : MotorMovement) (err_stream : option stream)
    (w : World) : Z * World :=
  let defining_axis_steps := get_defining_axis_steps (steps param) in
  if defining_axis_steps =? 0 then
    (1, fprintf (match err_stream with Some f => f | None => Stderr end)
          zero_steps_message w)
  else if defining_axis_steps >? MAX_STEPS_PER_SEGMENT then
    let a :=
      F64.div
        (F64.sub (sqd (F64.of_float (v1 param))) (sqd (F64.of_float (v0 param))))
        (F64.mul (F64.of_int 2) (F64.of_int defining_axis_steps)) in
    let divisions := CInt.int32 (defining_axis_steps ÷ MAX_STEPS_PER_SEGMENT + 1) in
    let hires_steps_per_div :=
      map (fun i =>
             CInt.int64
               (CInt.int64 (Z.shiftl (nth i (steps param) 0) 32) ÷ divisions + 1))
        (seq 0 BEAGLEG_NUM_MOTORS) in
    let st :=
      {| hires_step_accumulator := repeat 0 BEAGLEG_NUM_MOTORS;
         previous_steps := repeat 0 BEAGLEG_NUM_MOTORS;
         previous_speed := F64.of_float (v0 param) |} in
    (0, split_loop (Z.to_nat divisions) hires_steps_per_div a st w)
  else
    (0, beagleg_enqueue_internal param defining_axis_steps w).

(** ** Vocabulary of the properties *)

(** The arguments of the calls of [beagleg_enqueue_internal] that the
    splitting loop makes, in order. *)
Fixpoint split_calls (remaining : nat) (hires_steps_per_div : list Z)
    (a : spec_float) (st : SplitState) : list (MotorMovement * Z) :=
  match remaining with
  | O => []
  | S remaining' =>
      let '(output, division_steps, st') :=
        split_division hires_steps_per_div a st in
      (output, division_steps) :: split_calls remaining' hires_steps_per_div a st'
  end.

(** The step deltas of axis [i] in a sequence of calls, and their sum. *)
Definition axis_deltas (i : nat) (calls : list (MotorMovement * Z)) : list Z :=
  map (fun c => nth i (steps (fst c)) 0) calls.

Definition Zsum (l : list Z) : Z := fold_right Z.add 0 l.

(** [divisions] of the splitting path. *)
Definition divisions_of (defining_axis_steps : Z) : Z :=
  CInt.int32 (defining_axis_steps ÷ MAX_STEPS_PER_SEGMENT + 1).

(** [hires_steps_per_div[i]] for a requested step count [s]. *)
Definition hires_of (s divisions : Z) : Z :=
  CInt.int64 (CInt.int64 (Z.shiftl s 32) ÷ divisions + 1).

(** The requests the code can receive: one step count per motor, each
    within the range on which [abs] is defined. *)
Definition well_formed (param : MotorMovement) : Prop :=
  List.length (steps param) = BEAGLEG_NUM_MOTORS /\
  Forall CInt.abs_defined (steps param).

Definition is_zero (x : spec_float) : bool :=
  match x with S754_zero _ => true | _ => false end.

(** Neither negative nor NaN: a zero, a positive number or +infinity. *)
Definition nonneg_number (x : spec_float) : bool :=
  match x with
  | S754_zero _ => true
  | S754_finite false _ _ => true
  | S754_infinity false => true
  | _ => false
  end.

Definition segment_of_call (c : MotorMovement * Z) : MotionSegment :=
  new_element (fst c) (snd c).

(** The constants of the splitting path of a request: [a], the
    per-division increments and the loop state before the first division. *)
Definition split_acceleration (param : MotorMovement) : spec_float :=
  F64.div
    (F64.sub (sqd (F64.of_float (v1 param))) (sqd (F64.of_float (v0 param))))
    (F64.mul (F64.of_int 2) (F64.of_int (get_defining_axis_steps (steps param)))).

Definition split_increments (param : MotorMovement) : list Z :=
  map (fun i =>
         hires_of (nth i (steps param) 0)
           (divisions_of (get_defining_axis_steps (steps param))))
    (seq 0 BEAGLEG_NUM_MOTORS).

Definition split_start (param : MotorMovement) : SplitState :=
  {| hires_step_accumulator := repeat 0 BEAGLEG_NUM_MOTORS;
     previous_steps := repeat 0 BEAGLEG_NUM_MOTORS;
     previous_speed := F64.of_float (v0 param) |}.

(** What one call of [beagleg_enqueue] passes to the synthesizer and hands
    to the queue. *)
Definition calls_of (param : MotorMovement) : list (MotorMovement * Z) :=
  synthesizer_calls (snd (beagleg_enqueue param None empty_world)).

Definition segments_of (param : MotorMovement) : list MotionSegment :=
  queue (snd (beagleg_enqueue param None empty_world)).

(** The step deltas of one axis with per-division increment [h], from
    division [k] on: [((k+1)h >> 32) - (kh >> 32)], ... *)
Fixpoint delta_seq (h k : Z) (n : nat) : list Z :=
  match n with
  | O => []
  | S n' => (((k + 1) * h) / 2 ^ 32 - (k * h) / 2 ^ 32) :: delta_seq h (k + 1) n'
  end.

(** No 64-bit or 32-bit overflow in [k] accumulations of [h]. *)
Definition axis_fits (h k : Z) : Prop :=
  - 2 ^ 63 <= k * h < 2 ^ 63 /\ - 2 ^ 31 <= (k * h) / 2 ^ 32 < 2 ^ 31.

(** The loop invariant of axis [i] after [k] divisions. *)
Definition axis_state (i : nat) (h k : Z) (st : SplitState) : Prop :=
  nth i (hires_step_accumulator st) 0 = k * h /\
  nth i (previous_steps st) 0 = (k * h) / 2 ^ 32.

(** The speeds of a sequence of divisions entered at the [double] speed
    [s]: each division starts at the speed the previous one ended with. *)
Fixpoint speed_chain (a s : spec_float) (calls : list (MotorMovement * Z)) : Prop :=
  match calls with
  | [] => True
  | c :: rest =>
      v0 (fst c) = F32.of_double s /\
      v1 (fst c) = F32.of_double (division_exit_speed a s (snd c)) /\
      speed_chain a (division_exit_speed a s (snd c)) rest
  end.

(** Consecutive movements: the exit speed of one is the entry speed of the
    next. *)
Fixpoint continuous (calls : list (MotorMovement * Z)) : Prop :=
  match calls with
  | c :: rest =>
      match rest with
      | c' :: _ => v1 (fst c) = v0 (fst c') /\ continuous rest
      | [] => True
      end
  | [] => True
  end.

(** The fraction of motor [i] as the design document states it, with
    [FRACTION_SCALE = 2^32 / LOOPS_PER_STEP]. *)
Definition FRACTION_SCALE : Z := 2 ^ 32 / LOOPS_PER_STEP.

Definition stated_fraction (param_steps : list Z) (defining_axis_steps : Z) (i : nat) : Z :=
  Z.abs (nth i param_steps 0) * FRACTION_SCALE / defining_axis_steps.

(** The exit speed of the last movement passed to the synthesizer. *)
Definition final_exit_speed (param : MotorMovement) : spec_float :=
  v1 (fst (last (calls_of param) (param, 0))).

(** The same movement in the opposite direction. *)
Definition mirrored (param : MotorMovement) : MotorMovement :=
  {| v0 := v0 param;
     v1 := v1 param;
     aux_bits := aux_bits param;
     steps := map Z.opp (steps param) |}.

(** The [double] with the value of a [float] of mantissa [m] and exponent
    [e]: the mantissa widened to 53 bits. *)
Definition widened (s : bool) (m : positive) (e : Z) : spec_float :=
  S754_finite s (Pos.iter xO m (Z.to_pos (53 - Z.pos (digits2_pos m))))
    (e - (53 - Z.pos (digits2_pos m))).

(** The [acceleration] of the accelerating branch of
    [beagleg_enqueue_internal]. *)
Definition ramp_acceleration (param : MotorMovement) (defining_axis_steps : Z)
  : spec_float :=
  F32.div (F32.sub (sq (v1 param)) (sq (v0 param)))
    (F32.mul (F32.of_int 2) (F32.of_int defining_axis_steps)).



(** The same movement with other auxiliary bits. *)
Definition with_aux_bits (param : MotorMovement) (a : option Z) : MotorMovement :=
  {| v0 := v0 param;
     v1 := v1 param;
     aux_bits := a;
     steps := steps param |}.

(** The calls of the functions of the backend ([struct MotionQueue]) that
    an operation makes, in order. *)
Inductive BackendCall :=
| CallEnqueue (seg : MotionSegment)
| CallWaitQueueEmpty
| CallMotorEnable (on : bool).

(** [beagleg_motor_enable]:
    [backend->wait_queue_empty(); backend->motor_enable(on);] *)
Definition beagleg_motor_enable (on : bool) : list BackendCall :=
  [CallWaitQueueEmpty; CallMotorEnable on].

(** [beagleg_wait_queue_empty]: [backend->wait_queue_empty();] *)
Definition beagleg_wait_queue_empty : list BackendCall :=
  [CallWaitQueueEmpty].

(** A use of the table that [beagleg_init_motor_ops] fills in:
    [ops->enqueue], [ops->motor_enable] or [ops->wait_queue_empty]. *)
Inductive Operation :=
| OpEnqueue (param : MotorMovement) (err_stream : option stream)
| OpMotorEnable (on : bool)
| OpWaitQueueEmpty.

Definition run_operation (op : Operation) : list BackendCall :=
  match op with
  | OpEnqueue param _ => map CallEnqueue (segments_of param)
  | OpMotorEnable on => beagleg_motor_enable on
  | OpWaitQueueEmpty => beagleg_wait_queue_empty
  end.

Definition run_program (ops : list Operation) : list BackendCall :=
  flat_map run_operation ops.

(** Every [motor_enable] in a trace directly follows a [wait_queue_empty]. *)
Definition enable_preceded_by_drain (trace : list BackendCall) : Prop :=
  forall pre on post,
    trace = pre ++ CallMotorEnable on :: post ->
    exists pre', pre = pre' ++ [CallWaitQueueEmpty].

(** ** Facts about machine integers and lists *)

Import CInt.

Lemma int32_small z : - 2 ^ 31 <= z < 2 ^ 31 -> int32 z = z.
Proof.
  intros H. unfold int32, swrap.
  replace (2 ^ (32 - 1)) with (2 ^ 31) by reflexivity.
  rewrite Z.mod_small; lia.
Qed.

Lemma int64_small z : - 2 ^ 63 <= z < 2 ^ 63 -> int64 z = z.
Proof.
  intros H. unfold int64, swrap.
  replace (2 ^ (64 - 1)) with (2 ^ 63) by reflexivity.
  rewrite Z.mod_small; lia.
Qed.

Lemma int32_range z : - 2 ^ 31 <= int32 z < 2 ^ 31.
Proof.
  unfold int32, swrap.
  replace (2 ^ (32 - 1)) with (2 ^ 31) by reflexivity.
  pose proof (Z.mod_pos_bound (z + 2 ^ 31) (2 ^ 32) ltac:(lia)). lia.
Qed.

Lemma uint16_small z : 0 <= z < 2 ^ 16 -> uint16 z = z.
Proof. intros H. unfold uint16, uwrap. apply Z.mod_small; lia. Qed.

Lemma uint32_small z : 0 <= z < 2 ^ 32 -> uint32 z = z.
Proof. intros H. unfold uint32, uwrap. apply Z.mod_small; lia. Qed.

Lemma uint64_small z : 0 <= z < 2 ^ 64 -> uint64 z = z.
Proof. intros H. unfold uint64, uwrap. apply Z.mod_small; lia. Qed.

Lemma abs_eq x : abs_defined x -> abs x = Z.abs x.
Proof.
  unfold abs_defined, abs, INT_MIN, INT_MAX. intros H.
  apply int32_small. lia.
Qed.

Lemma abs_range x : - 2 ^ 31 <= abs x < 2 ^ 31.
Proof. apply int32_range. Qed.


Lemma nth_map_seq {A : Type} (f : nat -> A) (n i : nat) (d : A) :
  (i < n)%nat -> nth i (map f (seq 0 n)) d = f i.
Proof.
  intros H.
  rewrite (nth_indep _ d (f 0%nat)) by (rewrite length_map, length_seq; exact H).
  rewrite (map_nth f (seq 0 n) 0%nat i), seq_nth by exact H.
  reflexivity.
Qed.

Lemma nth_repeat_0 (n i : nat) : nth i (repeat 0 n) 0 = 0.
Proof.
  revert i. induction n as [|n IH]; intros [|i]; simpl; auto.
Qed.


(** ** Arithmetic of the fixed-point step accumulator *)

Lemma quot_plus_one_total (s d : Z) :
  0 < d -> 2 * d <= 2 ^ 32 ->
  (d * ((s * 2 ^ 32) ÷ d + 1)) / 2 ^ 32 = s.
Proof.
  intros Hd Hd2.
  pose proof (Z.quot_rem' (s * 2 ^ 32) d) as E.
  pose proof (Z.rem_bound_abs (s * 2 ^ 32) d ltac:(lia)) as B.
  set (q := (s * 2 ^ 32) ÷ d) in *. set (r := Z.rem (s * 2 ^ 32) d) in *.
  replace (d * (q + 1)) with (s * 2 ^ 32 + (d - r)) by lia.
  rewrite Z.div_add_l by lia.
  rewrite Z.div_small; lia.
Qed.

Lemma quot_bounds_nonneg (s d : Z) :
  0 < d -> 0 <= s ->
  s * 2 ^ 32 - d < d * ((s * 2 ^ 32) ÷ d) <= s * 2 ^ 32.
Proof.
  intros Hd Hs.
  pose proof (Z.quot_rem' (s * 2 ^ 32) d) as E.
  pose proof (Z.rem_bound_pos (s * 2 ^ 32) d ltac:(lia) ltac:(lia)) as B.
  lia.
Qed.

Lemma quot_bounds_neg (s d : Z) :
  0 < d -> s <= 0 ->
  s * 2 ^ 32 <= d * ((s * 2 ^ 32) ÷ d) < s * 2 ^ 32 + d.
Proof.
  intros Hd Hs.
  pose proof (Z.quot_rem' (s * 2 ^ 32) d) as E.
  pose proof (Z.rem_bound_pos (- (s * 2 ^ 32)) d ltac:(lia) ltac:(lia)) as B.
  rewrite Z.rem_opp_l in B by lia.
  lia.
Qed.

Lemma div_step_nonneg (x h m : Z) :
  0 <= h <= m * 2 ^ 32 -> 0 <= (x + h) / 2 ^ 32 - x / 2 ^ 32 <= m.
Proof.
  intros H.
  pose proof (Z.div_le_mono x (x + h) (2 ^ 32) ltac:(lia) ltac:(lia)).
  pose proof (Z.div_le_mono (x + h) (x + m * 2 ^ 32) (2 ^ 32) ltac:(lia) ltac:(lia)) as U.
  rewrite Z.div_add in U by lia. lia.
Qed.

Lemma div_step_nonpos (x h m : Z) :
  - (m * 2 ^ 32) <= h <= 0 -> - m <= (x + h) / 2 ^ 32 - x / 2 ^ 32 <= 0.
Proof.
  intros H.
  pose proof (Z.div_le_mono (x + h) x (2 ^ 32) ltac:(lia) ltac:(lia)).
  pose proof (Z.div_le_mono (x + - m * 2 ^ 32) (x + h) (2 ^ 32) ltac:(lia) ltac:(lia)) as U.
  rewrite Z.div_add in U by lia. lia.
Qed.

Lemma div_step_pos (x h : Z) :
  2 ^ 32 <= h -> 1 <= (x + h) / 2 ^ 32 - x / 2 ^ 32.
Proof.
  intros H.
  pose proof (Z.div_le_mono (x + 1 * 2 ^ 32) (x + h) (2 ^ 32) ltac:(lia) ltac:(lia)) as U.
  rewrite Z.div_add in U by lia. lia.
Qed.

Lemma div_step_neg (x h : Z) :
  h <= - 2 ^ 32 -> (x + h) / 2 ^ 32 - x / 2 ^ 32 <= - 1.
Proof.
  intros H.
  pose proof (Z.div_le_mono (x + h) (x + (- 1) * 2 ^ 32) (2 ^ 32) ltac:(lia) ltac:(lia)) as U.
  rewrite Z.div_add in U by lia. lia.
Qed.

Lemma divisions_facts (D : Z) :
  32767 < D -> D <= 2 ^ 31 - 1 ->
  let d := D ÷ 32767 + 1 in
  2 <= d /\ d <= 65539 /\ D < 32767 * d /\ 2 * d <= D.
Proof.
  intros H1 H2 d. subst d.
  rewrite Z.quot_div_nonneg by lia.
  pose proof (Z.div_mod D 32767 ltac:(lia)).
  pose proof (Z.mod_pos_bound D 32767 ltac:(lia)).
  lia.
Qed.

Lemma hires_bounds_nonneg (s D d : Z) :
  0 < d -> d <= 2 ^ 31 -> D < 32767 * d -> 0 <= s <= D ->
  1 <= (s * 2 ^ 32) ÷ d + 1 <= 32767 * 2 ^ 32.
Proof.
  intros Hd Hd' HD Hs.
  pose proof (quot_bounds_nonneg s d Hd ltac:(lia)).
  nia.
Qed.

Lemma hires_bounds_neg (s D d : Z) :
  0 < d -> d <= 2 ^ 31 -> D < 32767 * d -> - D <= s < 0 ->
  - (32767 * 2 ^ 32) <= (s * 2 ^ 32) ÷ d + 1 <= 0.
Proof.
  intros Hd Hd' HD Hs.
  pose proof (quot_bounds_neg s d Hd ltac:(lia)).
  nia.
Qed.

Lemma hires_dominant_pos (D d : Z) :
  0 < d -> 2 * d <= D ->
  2 ^ 32 <= (D * 2 ^ 32) ÷ d + 1.
Proof.
  intros Hd HD.
  pose proof (quot_bounds_nonneg D d Hd ltac:(lia)).
  nia.
Qed.

Lemma hires_dominant_neg (D d : Z) :
  0 < d -> 2 * d <= D ->
  (- D * 2 ^ 32) ÷ d + 1 <= - 2 ^ 32.
Proof.
  intros Hd HD.
  pose proof (quot_bounds_neg (- D) d Hd ltac:(lia)).
  nia.
Qed.

(** ** The dominant-axis selector *)

Lemma defining_axis_step_max (xs : list Z) (d : Z) (i : nat) :
  defining_axis_step xs d i = Z.max d (abs (nth i xs 0)).
Proof.
  unfold defining_axis_step.
  destruct (Z.gtb_spec (abs (nth i xs 0)) d); lia.
Qed.

Lemma fold_defining_lower (xs : list Z) (n a : nat) (d : Z) :
  d <= fold_left (defining_axis_step xs) (seq a n) d.
Proof.
  revert a d. induction n as [|n IH]; intros a d; simpl; [lia|].
  specialize (IH (S a) (defining_axis_step xs d a)).
  rewrite defining_axis_step_max in *. lia.
Qed.

Lemma fold_defining_upper (xs : list Z) (n a : nat) (d : Z) (i : nat) :
  (a <= i < a + n)%nat ->
  abs (nth i xs 0) <= fold_left (defining_axis_step xs) (seq a n) d.
Proof.
  revert a d. induction n as [|n IH]; intros a d Hi; simpl; [lia|].
  destruct (Nat.eq_dec i a) as [->|Hne].
  - pose proof (fold_defining_lower xs n (S a) (defining_axis_step xs d a)) as L.
    pose proof (Z.le_max_r d (abs (nth a xs 0))) as R.
    rewrite <- defining_axis_step_max in R. lia.
  - apply IH. lia.
Qed.

Lemma fold_defining_attained (xs : list Z) (n a : nat) (d : Z) :
  fold_left (defining_axis_step xs) (seq a n) d = d \/
  exists i, (a <= i < a + n)%nat /\
            fold_left (defining_axis_step xs) (seq a n) d = abs (nth i xs 0).
Proof.
  revert a d. induction n as [|n IH]; intros a d; simpl; [now left|].
  destruct (IH (S a) (defining_axis_step xs d a)) as [E|(i & Hi & E)].
  - rewrite E, defining_axis_step_max.
    destruct (Z.max_spec d (abs (nth a xs 0))) as [[_ ->]|[_ ->]].
    + right. exists a. split; [lia|reflexivity].
    + now left.
  - right. exists i. split; [lia|exact E].
Qed.

(** [get_defining_axis_steps] is an upper bound of the [abs] of every step
    count it looks at, and one of them. *)
Lemma defining_axis_steps_upper (xs : list Z) (i : nat) :
  (i < BEAGLEG_NUM_MOTORS)%nat -> abs (nth i xs 0) <= get_defining_axis_steps xs.
Proof.
  intros Hi. unfold get_defining_axis_steps.
  destruct i as [|i].
  - apply fold_defining_lower.
  - apply fold_defining_upper. lia.
Qed.

Lemma defining_axis_steps_attained (xs : list Z) :
  exists i, (i < Nat.max 1 BEAGLEG_NUM_MOTORS)%nat /\
            get_defining_axis_steps xs = abs (nth i xs 0).
Proof.
  unfold get_defining_axis_steps.
  destruct (fold_defining_attained xs (BEAGLEG_NUM_MOTORS - 1) 1 (abs (nth 0 xs 0)))
    as [E|(i & Hi & E)].
  - exists 0%nat. split; [lia|exact E].
  - exists i. split; [lia|exact E].
Qed.

Lemma defining_axis_steps_int (xs : list Z) :
  - 2 ^ 31 <= get_defining_axis_steps xs < 2 ^ 31.
Proof.
  destruct (defining_axis_steps_attained xs) as (i & _ & ->). apply abs_range.
Qed.

Lemma well_formed_nth (param : MotorMovement) (i : nat) :
  well_formed param -> abs_defined (nth i (steps param) 0).
Proof.
  intros [Hlen Hall].
  destruct (Nat.lt_ge_cases i (List.length (steps param))) as [Hi|Hi].
  - rewrite Forall_forall in Hall. apply Hall, nth_In, Hi.
  - rewrite nth_overflow by exact Hi. unfold abs_defined, INT_MIN, INT_MAX. lia.
Qed.

Lemma well_formed_abs (param : MotorMovement) (i : nat) :
  well_formed param -> abs (nth i (steps param) 0) = Z.abs (nth i (steps param) 0).
Proof. intros H. apply abs_eq, well_formed_nth, H. Qed.

Lemma defining_axis_steps_nonneg (param : MotorMovement) :
  well_formed param -> 0 <= get_defining_axis_steps (steps param).
Proof.
  intros H. destruct (defining_axis_steps_attained (steps param)) as (i & _ & ->).
  rewrite well_formed_abs by exact H. lia.
Qed.

Lemma defining_axis_steps_bounds_all (param : MotorMovement) (i : nat) :
  well_formed param ->
  Z.abs (nth i (steps param) 0) <= get_defining_axis_steps (steps param).
Proof.
  intros H.
  destruct (Nat.lt_ge_cases i BEAGLEG_NUM_MOTORS) as [Hi|Hi].
  - rewrite <- well_formed_abs by exact H. apply defining_axis_steps_upper, Hi.
  - rewrite nth_overflow by (destruct H as [-> _]; exact Hi).
    simpl. apply defining_axis_steps_nonneg, H.
Qed.

Lemma defining_axis_steps_zero_iff (param : MotorMovement) :
  well_formed param ->
  get_defining_axis_steps (steps param) = 0 <-> Forall (fun s => s = 0) (steps param).
Proof.
  intros H. split.
  - intros E. rewrite Forall_forall. intros x Hx.
    destruct (In_nth _ _ 0 Hx) as (i & Hi & <-).
    pose proof (defining_axis_steps_bounds_all param i H). lia.
  - intros Hz. destruct (defining_axis_steps_attained (steps param)) as (i & _ & ->).
    rewrite well_formed_abs by exact H.
    destruct (Nat.lt_ge_cases i (List.length (steps param))) as [Hi|Hi].
    + rewrite Forall_forall in Hz. rewrite (Hz _ (nth_In _ 0 Hi)). reflexivity.
    + rewrite nth_overflow by exact Hi. reflexivity.
Qed.

(** ** What [beagleg_enqueue] does to the world *)

Lemma split_loop_world (n : nat) (hs : list Z) (a : spec_float) (st : SplitState)
    (w : World) :
  split_loop n hs a st w =
  {| queue := queue w ++ map segment_of_call (split_calls n hs a st);
     written := written w;
     synthesizer_calls := synthesizer_calls w ++ split_calls n hs a st |}.
Proof.
  revert st w. induction n as [|n IH]; intros st w; simpl.
  - rewrite !app_nil_r. destruct w; reflexivity.
  - destruct (split_division hs a st) as [[output division_steps] st'].
    rewrite IH. unfold beagleg_enqueue_internal, backend_enqueue, record_call.
    simpl. rewrite <- !app_assoc. reflexivity.
Qed.

Lemma calls_of_zero (param : MotorMovement) :
  get_defining_axis_steps (steps param) = 0 -> calls_of param = [].
Proof.
  intros E. unfold calls_of, beagleg_enqueue. rewrite E. reflexivity.
Qed.

Lemma calls_of_single (param : MotorMovement) :
  get_defining_axis_steps (steps param) <> 0 ->
  get_defining_axis_steps (steps param) <= MAX_STEPS_PER_SEGMENT ->
  calls_of param = [(param, get_defining_axis_steps (steps param))].
Proof.
  intros Hne Hle. unfold calls_of, beagleg_enqueue.
  destruct (Z.eqb_spec (get_defining_axis_steps (steps param)) 0) as [|_]; [contradiction|].
  destruct (Z.gtb_spec (get_defining_axis_steps (steps param)) MAX_STEPS_PER_SEGMENT);
    [lia|reflexivity].
Qed.

Lemma calls_of_split (param : MotorMovement) :
  get_defining_axis_steps (steps param) > MAX_STEPS_PER_SEGMENT ->
  calls_of param =
  split_calls
    (Z.to_nat (divisions_of (get_defining_axis_steps (steps param))))
    (split_increments param)
    (split_acceleration param)
    (split_start param).
Proof.
  intros Hgt. unfold calls_of, beagleg_enqueue.
  destruct (Z.eqb_spec (get_defining_axis_steps (steps param)) 0) as [E|_].
  - rewrite E in Hgt. discriminate Hgt.
  - destruct (Z.gtb_spec (get_defining_axis_steps (steps param)) MAX_STEPS_PER_SEGMENT);
      [|lia].
    cbn [snd]. rewrite split_loop_world. reflexivity.
Qed.

Lemma segments_of_calls (param : MotorMovement) :
  segments_of param = map segment_of_call (calls_of param).
Proof.
  unfold segments_of, calls_of, beagleg_enqueue.
  destruct (get_defining_axis_steps (steps param) =? 0); [reflexivity|].
  destruct (get_defining_axis_steps (steps param) >? MAX_STEPS_PER_SEGMENT).
  - cbn [snd]. rewrite split_loop_world. reflexivity.
  - reflexivity.
Qed.

(** The call does not depend on the world it starts in: it appends. *)
Lemma beagleg_enqueue_frame (param : MotorMovement) (err_stream : option stream)
    (w : World) :
  fst (beagleg_enqueue param err_stream w)
  = fst (beagleg_enqueue param None empty_world) /\
  queue (snd (beagleg_enqueue param err_stream w)) = queue w ++ segments_of param /\
  synthesizer_calls (snd (beagleg_enqueue param err_stream w))
  = synthesizer_calls w ++ calls_of param.
Proof.
  unfold segments_of, calls_of, beagleg_enqueue.
  destruct (get_defining_axis_steps (steps param) =? 0).
  - cbn. rewrite !app_nil_r. auto.
  - destruct (get_defining_axis_steps (steps param) >? MAX_STEPS_PER_SEGMENT).
    + cbn [fst snd]. rewrite !split_loop_world. cbn. auto.
    + cbn. auto.
Qed.

(** ** One axis through the splitting loop *)

Lemma axis_fits_le (h d k : Z) : 0 <= k <= d -> axis_fits h d -> axis_fits h k.
Proof.
  unfold axis_fits. intros Hk [H1 H2].
  destruct (Z.le_gt_cases 0 h) as [Hh|Hh].
  - assert (0 <= k * h <= d * h) as B by nia.
    pose proof (Z.div_le_mono (k * h) (d * h) (2 ^ 32) ltac:(lia) ltac:(lia)).
    pose proof (Z.div_pos (k * h) (2 ^ 32) ltac:(lia) ltac:(lia)). lia.
  - assert (d * h <= k * h <= 0) as B by nia.
    pose proof (Z.div_le_mono (d * h) (k * h) (2 ^ 32) ltac:(lia) ltac:(lia)).
    pose proof (Z.div_le_mono (k * h) 0 (2 ^ 32) ltac:(lia) ltac:(lia)) as U.
    rewrite Z.div_0_l in U by lia. lia.
Qed.

Lemma axis_delta_int (h k : Z) :
  0 <= k -> axis_fits h (k + 1) ->
  - 2 ^ 31 <= ((k + 1) * h) / 2 ^ 32 - (k * h) / 2 ^ 32 < 2 ^ 31.
Proof.
  intros Hk Hf.
  pose proof (axis_fits_le h (k + 1) k ltac:(lia) Hf) as [_ Hk2].
  destruct Hf as [_ Hf2].
  replace ((k + 1) * h) with (k * h + h) in * by lia.
  destruct (Z.le_gt_cases 0 h) as [Hh|Hh].
  - pose proof (Z.div_le_mono (k * h) (k * h + h) (2 ^ 32) ltac:(lia) ltac:(lia)).
    pose proof (Z.div_pos (k * h) (2 ^ 32) ltac:(nia) ltac:(lia)). lia.
  - pose proof (Z.div_le_mono (k * h + h) (k * h) (2 ^ 32) ltac:(lia) ltac:(lia)).
    pose proof (Z.div_le_mono (k * h) 0 (2 ^ 32) ltac:(lia) ltac:(nia)) as U.
    rewrite Z.div_0_l in U by lia. lia.
Qed.

Lemma split_division_axis (hs : list Z) (a : spec_float) (st : SplitState)
    (i : nat) (h k : Z) :
  (i < BEAGLEG_NUM_MOTORS)%nat ->
  nth i hs 0 = h ->
  0 <= k -> axis_fits h (k + 1) ->
  axis_state i h k st ->
  nth i (steps (fst (fst (split_division hs a st)))) 0
  = ((k + 1) * h) / 2 ^ 32 - (k * h) / 2 ^ 32 /\
  axis_state i h (k + 1) (snd (split_division hs a st)).
Proof.
  intros Hi Hh Hk Hfit [Hacc Hprev].
  pose proof (axis_delta_int h k Hk Hfit) as Hdelta.
  destruct Hfit as [F1 F2].
  unfold split_division, axis_state. cbn [fst snd steps hires_step_accumulator previous_steps].
  rewrite !nth_map_seq by exact Hi.
  rewrite ?nth_map_seq by exact Hi.
  rewrite Hacc, Hh, Hprev.
  replace (k * h + h) with ((k + 1) * h) by lia.
  rewrite (int64_small ((k + 1) * h)) by lia.
  rewrite Z.shiftr_div_pow2 by lia.
  rewrite (int32_small (((k + 1) * h) / 2 ^ 32)) by lia.
  rewrite int32_small by lia.
  auto.
Qed.

Lemma split_calls_axis (n : nat) (hs : list Z) (a : spec_float) (i : nat) (h : Z) :
  (i < BEAGLEG_NUM_MOTORS)%nat ->
  nth i hs 0 = h ->
  forall (st : SplitState) (k : Z),
    0 <= k -> axis_fits h (k + Z.of_nat n) ->
    axis_state i h k st ->
    axis_deltas i (split_calls n hs a st) = delta_seq h k n.
Proof.
  intros Hi Hh. induction n as [|n IH]; intros st k Hk Hfit Hst; [reflexivity|].
  assert (axis_fits h (k + 1)) as Hfit1
    by (apply (axis_fits_le h (k + Z.of_nat (S n))); [lia|exact Hfit]).
  destruct (split_division_axis hs a st i h k Hi Hh Hk Hfit1 Hst) as [Hd Hst'].
  cbn [split_calls delta_seq].
  destruct (split_division hs a st) as [[output division_steps] st'].
  cbn [fst snd] in Hd, Hst'.
  cbn [axis_deltas map fst]. rewrite Hd. f_equal.
  apply IH; [lia| |exact Hst'].
  replace (k + 1 + Z.of_nat n) with (k + Z.of_nat (S n)) by lia. exact Hfit.
Qed.

Lemma split_calls_length (n : nat) (hs : list Z) (a : spec_float) (st : SplitState) :
  List.length (split_calls n hs a st) = n.
Proof.
  revert st. induction n as [|n IH]; intros st; [reflexivity|].
  cbn [split_calls]. destruct (split_division hs a st) as [[o d] st'].
  cbn. now rewrite IH.
Qed.

Lemma Zsum_delta_seq (h : Z) (n : nat) (k : Z) :
  Zsum (delta_seq h k n) = ((k + Z.of_nat n) * h) / 2 ^ 32 - (k * h) / 2 ^ 32.
Proof.
  revert k. induction n as [|n IH]; intros k.
  - cbn. rewrite Z.add_0_r. lia.
  - cbn [delta_seq Zsum fold_right]. fold (Zsum (delta_seq h (k + 1) n)).
    rewrite IH. replace (k + 1 + Z.of_nat n) with (k + Z.of_nat (S n)) by lia. lia.
Qed.

Lemma delta_seq_Forall_range (P : Z -> Prop) (h : Z) (n : nat) (k : Z) :
  (forall j, k <= j < k + Z.of_nat n -> P (((j + 1) * h) / 2 ^ 32 - (j * h) / 2 ^ 32)) ->
  Forall P (delta_seq h k n).
Proof.
  revert k. induction n as [|n IH]; intros k HP; cbn [delta_seq]; constructor.
  - apply HP. lia.
  - apply IH. intros j Hj. apply HP. lia.
Qed.

Lemma delta_seq_Forall (P : Z -> Prop) (h : Z) :
  (forall x, P ((x + h) / 2 ^ 32 - x / 2 ^ 32)) ->
  forall (n : nat) (k : Z), Forall P (delta_seq h k n).
Proof.
  intros HP n k. apply delta_seq_Forall_range. intros j _.
  replace ((j + 1) * h) with (j * h + h) by lia. apply HP.
Qed.

(** ** The splitting path of a request *)

Lemma MAX_STEPS_PER_SEGMENT_value : MAX_STEPS_PER_SEGMENT = 32767.
Proof. reflexivity. Qed.

Lemma LOOPS_PER_STEP_value : LOOPS_PER_STEP = 2.
Proof. reflexivity. Qed.

Lemma divisions_of_value (D : Z) :
  MAX_STEPS_PER_SEGMENT < D -> D < 2 ^ 31 ->
  divisions_of D = D ÷ 32767 + 1.
Proof.
  rewrite MAX_STEPS_PER_SEGMENT_value. intros H1 H2.
  unfold divisions_of. rewrite MAX_STEPS_PER_SEGMENT_value.
  pose proof (divisions_facts D H1 ltac:(lia)) as F. cbv zeta in F.
  apply int32_small. lia.
Qed.

Lemma hires_of_value (s d : Z) :
  abs_defined s -> 0 < d ->
  hires_of s d = (s * 2 ^ 32) ÷ d + 1.
Proof.
  unfold abs_defined, INT_MIN, INT_MAX. intros Hs Hd.
  unfold hires_of. rewrite Z.shiftl_mul_pow2 by lia.
  rewrite (int64_small (s * 2 ^ 32)) by lia.
  apply int64_small.
  destruct (Z.le_gt_cases 0 s) as [H0|H0].
  - pose proof (quot_bounds_nonneg s d Hd H0).
    pose proof (Z.quot_pos (s * 2 ^ 32) d ltac:(lia) ltac:(lia)). nia.
  - pose proof (quot_bounds_neg s d Hd ltac:(lia)).
    assert ((s * 2 ^ 32) ÷ d <= 0) by (apply Z.quot_le_upper_bound; lia || nia).
    nia.
Qed.

Lemma hires_fits (s d : Z) :
  abs_defined s -> 0 < d -> 2 * d <= 2 ^ 32 ->
  axis_fits ((s * 2 ^ 32) ÷ d + 1) d.
Proof.
  unfold abs_defined, INT_MIN, INT_MAX. intros Hs Hd Hd2.
  unfold axis_fits. rewrite quot_plus_one_total by lia.
  split; [|lia].
  destruct (Z.le_gt_cases 0 s) as [H0|H0].
  - pose proof (quot_bounds_nonneg s d Hd H0). nia.
  - pose proof (quot_bounds_neg s d Hd ltac:(lia)). nia.
Qed.

(** The deltas of axis [i] over the divisions of a split request. *)
Lemma split_axis_deltas (param : MotorMovement) (i : nat) :
  well_formed param ->
  get_defining_axis_steps (steps param) > MAX_STEPS_PER_SEGMENT ->
  (i < BEAGLEG_NUM_MOTORS)%nat ->
  axis_deltas i (calls_of param)
  = delta_seq
      ((nth i (steps param) 0 * 2 ^ 32)
         ÷ (get_defining_axis_steps (steps param) ÷ 32767 + 1) + 1)
      0
      (Z.to_nat (get_defining_axis_steps (steps param) ÷ 32767 + 1)).
Proof.
  intros Hwf Hgt Hi.
  pose proof (defining_axis_steps_int (steps param)) as HD.
  pose proof (divisions_facts (get_defining_axis_steps (steps param))
                ltac:(rewrite MAX_STEPS_PER_SEGMENT_value in Hgt; lia) ltac:(lia)) as F.
  cbv zeta in F.
  rewrite calls_of_split by exact Hgt.
  rewrite divisions_of_value by lia.
  set (d := get_defining_axis_steps (steps param) ÷ 32767 + 1) in *.
  apply split_calls_axis.
  - exact Hi.
  - unfold split_increments. rewrite nth_map_seq by exact Hi.
    rewrite divisions_of_value by lia. fold d.
    apply hires_of_value; [apply well_formed_nth, Hwf|lia].
  - lia.
  - rewrite Z.add_0_l, Z2Nat.id by lia.
    apply hires_fits; [apply well_formed_nth, Hwf|lia|lia].
  - unfold axis_state, split_start. cbn. rewrite !nth_repeat_0. auto.
Qed.

(** C1: a request whose defining axis exceeds [MAX_STEPS_PER_SEGMENT] is
    passed to the synthesizer in [defining_axis_steps / MAX_STEPS_PER_SEGMENT
    + 1] divisions, and for every axis the step deltas of the divisions sum
    to the requested step count of that axis, whatever its sign. *)
Theorem split_conserves_steps (param : MotorMovement) (i : nat) :
  well_formed param ->
  get_defining_axis_steps (steps param) > MAX_STEPS_PER_SEGMENT ->
  (i < BEAGLEG_NUM_MOTORS)%nat ->
  Z.of_nat (List.length (calls_of param))
  = get_defining_axis_steps (steps param) / MAX_STEPS_PER_SEGMENT + 1 /\
  Zsum (axis_deltas i (calls_of param)) = nth i (steps param) 0.
Proof.
  intros Hwf Hgt Hi.
  pose proof (defining_axis_steps_int (steps param)) as HD.
  pose proof (divisions_facts (get_defining_axis_steps (steps param))
                ltac:(rewrite MAX_STEPS_PER_SEGMENT_value in Hgt; lia) ltac:(lia)) as F.
  cbv zeta in F.
  split.
  - rewrite calls_of_split, split_calls_length, divisions_of_value by lia.
    rewrite Z2Nat.id by lia.
    rewrite MAX_STEPS_PER_SEGMENT_value, Z.quot_div_nonneg by lia. reflexivity.
  - rewrite split_axis_deltas by assumption.
    rewrite Zsum_delta_seq, Z2Nat.id by lia.
    rewrite Z.mul_0_l, Z.div_0_l, Z.add_0_l, Z.sub_0_r by lia.
    apply quot_plus_one_total; lia.
Qed.

Lemma split_calls_division_steps (n : nat) (hs : list Z) (a : spec_float)
    (st : SplitState) :
  Forall (fun c => snd c = get_defining_axis_steps (steps (fst c)))
    (split_calls n hs a st).
Proof.
  revert st. induction n as [|n IH]; intros st; cbn [split_calls]; [constructor|].
  destruct (split_division hs a st) as [[output division_steps] st'] eqn:E.
  constructor; [|apply IH].
  unfold split_division in E. injection E as <- <- _. reflexivity.
Qed.

(** Whatever holds of every difference [(x + h) >> 32 - (x >> 32)] holds of
    the steps of axis [i] in every division. *)
Lemma split_calls_delta_prop (param : MotorMovement) (i : nat) (P : Z -> Prop) :
  well_formed param ->
  get_defining_axis_steps (steps param) > MAX_STEPS_PER_SEGMENT ->
  (i < BEAGLEG_NUM_MOTORS)%nat ->
  (forall x,
      P ((x + ((nth i (steps param) 0 * 2 ^ 32)
                 ÷ (get_defining_axis_steps (steps param) ÷ 32767 + 1) + 1)) / 2 ^ 32
         - x / 2 ^ 32)) ->
  forall c, In c (calls_of param) -> P (nth i (steps (fst c)) 0).
Proof.
  intros Hwf Hgt Hi HP c Hc.
  pose proof (split_axis_deltas param i Hwf Hgt Hi) as E.
  pose proof (delta_seq_Forall P _ HP
                (Z.to_nat (get_defining_axis_steps (steps param) ÷ 32767 + 1)) 0) as A.
  rewrite <- E in A. rewrite Forall_forall in A.
  apply A. unfold axis_deltas.
  apply (in_map (fun c => nth i (steps (fst c)) 0)), Hc.
Qed.

(** An axis that does not move in the request does not move in any
    division: its increment is the rounding unit alone. *)
Lemma split_zero_axis (param : MotorMovement) (i : nat) :
  well_formed param ->
  get_defining_axis_steps (steps param) > MAX_STEPS_PER_SEGMENT ->
  (i < BEAGLEG_NUM_MOTORS)%nat ->
  nth i (steps param) 0 = 0 ->
  forall c, In c (calls_of param) -> nth i (steps (fst c)) 0 = 0.
Proof.
  intros Hwf Hgt Hi E0 c Hc.
  pose proof (defining_axis_steps_int (steps param)) as HD.
  pose proof (divisions_facts (get_defining_axis_steps (steps param))
                ltac:(rewrite MAX_STEPS_PER_SEGMENT_value in Hgt; lia) ltac:(lia)) as F.
  cbv zeta in F.
  pose proof (split_axis_deltas param i Hwf Hgt Hi) as E.
  rewrite E0, Z.mul_0_l, Z.quot_0_l, Z.add_0_l in E by lia.
  assert (Forall (fun delta => delta = 0) (axis_deltas i (calls_of param))) as A.
  { rewrite E. apply delta_seq_Forall_range. intros j Hj.
    rewrite Z2Nat.id in Hj by lia.
    rewrite !Z.mul_1_r, !Z.div_small by lia. reflexivity. }
  rewrite Forall_forall in A. apply A.
  apply (in_map (fun c => nth i (steps (fst c)) 0)), Hc.
Qed.

(** Every division moves every axis by at most [MAX_STEPS_PER_SEGMENT]
    steps, in the direction of the request or not at all. *)
Lemma split_delta_bounds (param : MotorMovement) (i : nat) :
  well_formed param ->
  get_defining_axis_steps (steps param) > MAX_STEPS_PER_SEGMENT ->
  (i < BEAGLEG_NUM_MOTORS)%nat ->
  forall c, In c (calls_of param) ->
    (0 <= nth i (steps param) 0 -> 0 <= nth i (steps (fst c)) 0 <= 32767) /\
    (nth i (steps param) 0 < 0 -> - 32767 <= nth i (steps (fst c)) 0 <= 0) /\
    (nth i (steps param) 0 = 0 -> nth i (steps (fst c)) 0 = 0).
Proof.
  intros Hwf Hgt Hi c Hc.
  assert ((0 <= nth i (steps param) 0 -> 0 <= nth i (steps (fst c)) 0 <= 32767) /\
          (nth i (steps param) 0 < 0 -> - 32767 <= nth i (steps (fst c)) 0 <= 0)) as [Hp Hn];
    [|split; [exact Hp|split; [exact Hn|]];
      intros E0; exact (split_zero_axis param i Hwf Hgt Hi E0 c Hc)].
  revert c Hc.
  apply (split_calls_delta_prop param i
           (fun delta =>
              (0 <= nth i (steps param) 0 -> 0 <= delta <= 32767) /\
              (nth i (steps param) 0 < 0 -> - 32767 <= delta <= 0)) Hwf Hgt Hi).
  intros x.
  pose proof (defining_axis_steps_int (steps param)) as HD.
  pose proof (divisions_facts (get_defining_axis_steps (steps param))
                ltac:(rewrite MAX_STEPS_PER_SEGMENT_value in Hgt; lia) ltac:(lia)) as F.
  cbv zeta in F.
  pose proof (defining_axis_steps_bounds_all param i Hwf) as Hs.
  split; intros Hsign.
  - apply div_step_nonneg.
    pose proof (hires_bounds_nonneg (nth i (steps param) 0)
                  (get_defining_axis_steps (steps param))
                  (get_defining_axis_steps (steps param) ÷ 32767 + 1)
                  ltac:(lia) ltac:(lia) ltac:(lia) ltac:(lia)). lia.
  - apply (div_step_nonpos x _ 32767).
    pose proof (hires_bounds_neg (nth i (steps param) 0)
                  (get_defining_axis_steps (steps param))
                  (get_defining_axis_steps (steps param) ÷ 32767 + 1)
                  ltac:(lia) ltac:(lia) ltac:(lia) ltac:(lia)). lia.
Qed.

(** The defining axis of the request moves in every division. *)
Lemma split_dominant_moves (param : MotorMovement) :
  well_formed param ->
  get_defining_axis_steps (steps param) > MAX_STEPS_PER_SEGMENT ->
  exists j, (j < BEAGLEG_NUM_MOTORS)%nat /\
    forall c, In c (calls_of param) -> 1 <= Z.abs (nth j (steps (fst c)) 0).
Proof.
  intros Hwf Hgt.
  pose proof (defining_axis_steps_int (steps param)) as HD.
  pose proof (divisions_facts (get_defining_axis_steps (steps param))
                ltac:(rewrite MAX_STEPS_PER_SEGMENT_value in Hgt; lia) ltac:(lia)) as F.
  cbv zeta in F.
  destruct (defining_axis_steps_attained (steps param)) as (j & Hj & E).
  rewrite well_formed_abs in E by exact Hwf.
  assert (j < BEAGLEG_NUM_MOTORS)%nat as Hj'.
  { destruct (Nat.lt_ge_cases j BEAGLEG_NUM_MOTORS) as [|Hge]; [assumption|].
    rewrite nth_overflow in E by (destruct Hwf as [-> _]; exact Hge).
    rewrite MAX_STEPS_PER_SEGMENT_value in Hgt. cbn in E. lia. }
  exists j. split; [exact Hj'|].
  apply (split_calls_delta_prop param j (fun delta => 1 <= Z.abs delta) Hwf Hgt Hj').
  intros x.
  destruct (Z.abs_spec (nth j (steps param) 0)) as [[_ Ea]|[_ Ea]]; rewrite Ea in E.
  - rewrite <- E.
    pose proof (hires_dominant_pos (get_defining_axis_steps (steps param))
                  (get_defining_axis_steps (steps param) ÷ 32767 + 1)
                  ltac:(lia) ltac:(lia)) as Hh.
    pose proof (div_step_pos x _ Hh). lia.
  - replace (nth j (steps param) 0) with (- get_defining_axis_steps (steps param)) by lia.
    pose proof (hires_dominant_neg (get_defining_axis_steps (steps param))
                  (get_defining_axis_steps (steps param) ÷ 32767 + 1)
                  ltac:(lia) ltac:(lia)) as Hh.
    pose proof (div_step_neg x _ Hh). lia.
Qed.

(** C6: every call of the synthesizer made for a request passes a
    [defining_axis_steps] that is strictly positive and at most
    [MAX_STEPS_PER_SEGMENT]; in the splitting path this is the division's own
    defining-axis step count, which is never zero. *)
Theorem synthesizer_precondition (param : MotorMovement) :
  well_formed param ->
  Forall (fun c => 0 < snd c <= MAX_STEPS_PER_SEGMENT
                   /\ snd c = get_defining_axis_steps (steps (fst c)))
    (calls_of param).
Proof.
  intros Hwf.
  pose proof (defining_axis_steps_nonneg param Hwf) as Hnn.
  destruct (Z.eq_dec (get_defining_axis_steps (steps param)) 0) as [E0|Hne].
  { rewrite calls_of_zero by exact E0. constructor. }
  destruct (Z.le_gt_cases (get_defining_axis_steps (steps param)) MAX_STEPS_PER_SEGMENT)
    as [Hle|Hgt].
  { rewrite calls_of_single by assumption.
    constructor; [cbn [fst snd]; split; [lia|reflexivity]|constructor]. }
  apply Z.lt_gt in Hgt.
  rewrite Forall_forall. intros c Hc.
  assert (snd c = get_defining_axis_steps (steps (fst c))) as Esnd.
  { pose proof (split_calls_division_steps
                  (Z.to_nat (divisions_of (get_defining_axis_steps (steps param))))
                  (split_increments param) (split_acceleration param)
                  (split_start param)) as A.
    rewrite <- calls_of_split in A by exact Hgt.
    rewrite Forall_forall in A. apply A, Hc. }
  split; [|exact Esnd]. rewrite Esnd, MAX_STEPS_PER_SEGMENT_value.
  assert (forall i, (i < BEAGLEG_NUM_MOTORS)%nat ->
                    abs (nth i (steps (fst c)) 0) = Z.abs (nth i (steps (fst c)) 0)
                    /\ Z.abs (nth i (steps (fst c)) 0) <= 32767) as Hb.
  { intros i Hi.
    destruct (split_delta_bounds param i Hwf Hgt Hi c Hc) as (Hp & Hn & _).
    assert (Z.abs (nth i (steps (fst c)) 0) <= 32767) by lia.
    split; [|assumption].
    apply abs_eq. unfold abs_defined, INT_MIN, INT_MAX. lia. }
  destruct (split_dominant_moves param Hwf Hgt) as (j & Hj & Hmove).
  split.
  - pose proof (defining_axis_steps_upper (steps (fst c)) j Hj) as U.
    destruct (Hb j Hj) as [Ej _]. rewrite Ej in U.
    specialize (Hmove c Hc). lia.
  - destruct (defining_axis_steps_attained (steps (fst c))) as (i & Hi & ->).
    assert (i < BEAGLEG_NUM_MOTORS)%nat as Hi' by lia.
    destruct (Hb i Hi') as [-> ?]. assumption.
Qed.

(** ** The entry point *)

Lemma enqueue_rejects (param : MotorMovement) (err_stream : option stream)
    (w : World) :
  get_defining_axis_steps (steps param) = 0 ->
  beagleg_enqueue param err_stream w
  = (1, fprintf (match err_stream with Some f => f | None => Stderr end)
          zero_steps_message w).
Proof.
  intros E. unfold beagleg_enqueue. rewrite E. reflexivity.
Qed.

Lemma enqueue_accepts (param : MotorMovement) (err_stream : option stream)
    (w : World) :
  get_defining_axis_steps (steps param) <> 0 ->
  fst (beagleg_enqueue param err_stream w) = 0 /\
  written (snd (beagleg_enqueue param err_stream w)) = written w.
Proof.
  intros Hne. unfold beagleg_enqueue.
  destruct (Z.eqb_spec (get_defining_axis_steps (steps param)) 0) as [|_]; [contradiction|].
  destruct (get_defining_axis_steps (steps param) >? MAX_STEPS_PER_SEGMENT).
  - cbn [fst snd]. rewrite split_loop_world. auto.
  - auto.
Qed.

(** C9: [beagleg_enqueue] fails exactly when every step count is zero, that
    is when [get_defining_axis_steps], the largest absolute step count, is
    zero; it then returns 1, writes the message to the stream of the caller
    (to [stderr] for a null stream) and hands nothing to the queue; on every
    other request it returns 0 and writes nothing. *)
Theorem enqueue_fails_iff_zero_steps (param : MotorMovement)
    (err_stream : option stream) (w : World) :
  well_formed param ->
  (fst (beagleg_enqueue param err_stream w) <> 0
   <-> Forall (fun s => s = 0) (steps param)) /\
  (get_defining_axis_steps (steps param) = 0
   <-> Forall (fun s => s = 0) (steps param)) /\
  (forall i, Z.abs (nth i (steps param) 0) <= get_defining_axis_steps (steps param)) /\
  (exists j, get_defining_axis_steps (steps param) = Z.abs (nth j (steps param) 0)) /\
  (Forall (fun s => s = 0) (steps param) ->
   fst (beagleg_enqueue param err_stream w) = 1 /\
   queue (snd (beagleg_enqueue param err_stream w)) = queue w /\
   synthesizer_calls (snd (beagleg_enqueue param err_stream w)) = synthesizer_calls w /\
   written (snd (beagleg_enqueue param err_stream w))
   = written w ++ [(match err_stream with Some f => f | None => Stderr end,
                    zero_steps_message)]) /\
  (~ Forall (fun s => s = 0) (steps param) ->
   fst (beagleg_enqueue param err_stream w) = 0 /\
   written (snd (beagleg_enqueue param err_stream w)) = written w).
Proof.
  intros Hwf.
  pose proof (defining_axis_steps_zero_iff param Hwf) as Hz.
  assert (exists j, get_defining_axis_steps (steps param)
                    = Z.abs (nth j (steps param) 0)) as Hmax.
  { destruct (defining_axis_steps_attained (steps param)) as (j & _ & E).
    exists j. rewrite E. apply well_formed_abs, Hwf. }
  destruct (Z.eq_dec (get_defining_axis_steps (steps param)) 0) as [E|Hne].
  - assert (Forall (fun s => s = 0) (steps param)) as Hall by (apply Hz, E).
    rewrite (enqueue_rejects param err_stream w E).
    cbn [fst snd fprintf queue written synthesizer_calls].
    split; [split; [intros _; exact Hall|intros _; discriminate]|].
    split; [exact Hz|].
    split; [intros i; apply defining_axis_steps_bounds_all, Hwf|].
    split; [exact Hmax|].
    split; [intros _; auto|].
    intros Hnz. contradiction.
  - assert (~ Forall (fun s => s = 0) (steps param)) as Hnz by tauto.
    destruct (enqueue_accepts param err_stream w Hne) as [Hret Hwritten].
    split; [split; [intros H; contradiction|intros H; contradiction]|].
    split; [exact Hz|].
    split; [intros i; apply defining_axis_steps_bounds_all, Hwf|].
    split; [exact Hmax|].
    split; [intros H; contradiction|].
    intros _. split; assumption.
Qed.

(** ** The segment synthesizer *)

(** The fields every branch of the synthesizer sets alike. *)
Lemma new_element_common (param : MotorMovement) (d : Z) :
  state (new_element param d) = STATE_FILLED /\
  aux (new_element param d) = aux_bits param /\
  direction_bits (new_element param d)
  = fold_left (direction_bit_step (steps param)) (seq 0 MOTION_MOTOR_COUNT) 0 /\
  fractions (new_element param d)
  = map (fraction_of (steps param) d) (seq 0 MOTION_MOTOR_COUNT).
Proof.
  unfold new_element.
  destruct (F32.eqb (v0 param) (v1 param)); [cbn; auto|].
  destruct (F32.ltb (v0 param) (v1 param)); cbn; auto.
Qed.

Lemma total_loops_value (d : Z) :
  0 < d <= MAX_STEPS_PER_SEGMENT ->
  store_loops (int32 (LOOPS_PER_STEP * d)) = LOOPS_PER_STEP * d
  /\ LOOPS_PER_STEP * d <> 0.
Proof.
  rewrite MAX_STEPS_PER_SEGMENT_value, LOOPS_PER_STEP_value. intros H.
  unfold store_loops.
  rewrite int32_small by lia. rewrite uint16_small by lia. lia.
Qed.

Lemma testbit_direction_bits (xs : list Z) (n a : nat) (bits : Z) (j : nat) :
  Z.testbit (fold_left (direction_bit_step xs) (seq a n) bits) (Z.of_nat j)
  = Z.testbit bits (Z.of_nat j)
    || ((a <=? j)%nat && (j <? a + n)%nat && (nth j xs 0 <? 0)).
Proof.
  revert a bits. induction n as [|n IH]; intros a bits; cbn [seq fold_left].
  - replace (j <? a + 0)%nat with (j <? a)%nat by (f_equal; lia).
    destruct (Nat.leb_spec a j), (Nat.ltb_spec j a); try lia;
      cbn; now rewrite orb_false_r.
  - rewrite IH. unfold direction_bit_step at 1.
    destruct (Nat.eq_dec j a) as [->|Hne].
    + replace (S a <=? a)%nat with false by (symmetry; apply Nat.leb_gt; lia).
      replace (a <=? a)%nat with true by (symmetry; apply Nat.leb_le; lia).
      replace (a <? a + S n)%nat with true by (symmetry; apply Nat.ltb_lt; lia).
      cbn [andb]. rewrite orb_false_r.
      destruct (nth a xs 0 <? 0).
      * rewrite Z.lor_spec, Z.shiftl_1_l, Z.pow2_bits_true by lia.
        now rewrite orb_true_r.
      * now rewrite orb_false_r.
    + assert (Z.testbit (if nth a xs 0 <? 0
                         then Z.lor bits (Z.shiftl 1 (Z.of_nat a)) else bits)
                (Z.of_nat j) = Z.testbit bits (Z.of_nat j)) as ->.
      { destruct (nth a xs 0 <? 0); [|reflexivity].
        rewrite Z.lor_spec, Z.shiftl_1_l, Z.pow2_bits_false by lia.
        apply orb_false_r. }
      assert ((S a <=? j)%nat = (a <=? j)%nat) as ->
        by (destruct (Nat.leb_spec (S a) j), (Nat.leb_spec a j); lia || reflexivity).
      assert ((j <? S a + n)%nat = (j <? a + S n)%nat) as ->
        by (f_equal; lia).
      reflexivity.
Qed.

(** Bit [i] of [direction_bits] is set exactly when the movement passed to
    the synthesizer has a negative step count for motor [i]. *)
Lemma new_element_direction_bit (param : MotorMovement) (d : Z) (i : nat) :
  (i < BEAGLEG_NUM_MOTORS)%nat ->
  Z.testbit (direction_bits (new_element param d)) (Z.of_nat i)
  = (nth i (steps param) 0 <? 0).
Proof.
  intros Hi.
  destruct (new_element_common param d) as (_ & _ & -> & _).
  rewrite testbit_direction_bits. unfold MOTION_MOTOR_COUNT.
  rewrite Z.bits_0. cbn [orb Nat.leb].
  replace (i <? 0 + BEAGLEG_NUM_MOTORS)%nat with true
    by (symmetry; apply Nat.ltb_lt; lia).
  reflexivity.
Qed.

(** C5: a segment synthesized for [0 < defining_axis_steps <=
    MAX_STEPS_PER_SEGMENT] is marked filled and has exactly one non-zero
    loop count, [LOOPS_PER_STEP * defining_axis_steps], in the phase chosen
    by comparing [v0] and [v1]; the two other loop counts are zero. *)
Theorem one_phase_per_segment (param : MotorMovement) (defining_axis_steps : Z) :
  0 < defining_axis_steps <= MAX_STEPS_PER_SEGMENT ->
  let seg := new_element param defining_axis_steps in
  let total_loops := LOOPS_PER_STEP * defining_axis_steps in
  state seg = STATE_FILLED /\
  total_loops <> 0 /\
  (if F32.eqb (v0 param) (v1 param) then
     loops_travel seg = total_loops /\ loops_accel seg = 0 /\ loops_decel seg = 0
   else if F32.ltb (v0 param) (v1 param) then
     loops_accel seg = total_loops /\ loops_travel seg = 0 /\ loops_decel seg = 0
   else
     loops_decel seg = total_loops /\ loops_travel seg = 0 /\ loops_accel seg = 0).
Proof.
  intros Hd seg total_loops. subst seg total_loops.
  destruct (total_loops_value defining_axis_steps Hd) as [E Hnz].
  split; [apply new_element_common|]. split; [exact Hnz|].
  unfold new_element.
  destruct (F32.eqb (v0 param) (v1 param)); [cbn; auto|].
  destruct (F32.ltb (v0 param) (v1 param)); cbn; auto.
Qed.

Lemma max_fraction_value : max_fraction = 2 ^ 31 - 1.
Proof. reflexivity. Qed.

(** C3, as the code has it: the fraction of motor [i] is
    [|steps[i]| * max_fraction / defining_axis_steps] in integer division,
    where the scale is [max_fraction = 0xFFFFFFFF / LOOPS_PER_STEP
    = 2^31 - 1], for every motor whose step count does not exceed the
    defining one. *)
Theorem fraction_of_steps (param : MotorMovement) (defining_axis_steps : Z) (i : nat) :
  (i < BEAGLEG_NUM_MOTORS)%nat ->
  0 < defining_axis_steps <= INT_MAX ->
  abs_defined (nth i (steps param) 0) ->
  Z.abs (nth i (steps param) 0) <= defining_axis_steps ->
  nth i (fractions (new_element param defining_axis_steps)) 0
  = Z.abs (nth i (steps param) 0) * (0xFFFFFFFF / LOOPS_PER_STEP) / defining_axis_steps
  /\ 0xFFFFFFFF / LOOPS_PER_STEP = 2 ^ 31 - 1.
Proof.
  intros Hi Hd Hs Hle. split; [|reflexivity].
  destruct (new_element_common param defining_axis_steps) as (_ & _ & _ & ->).
  unfold MOTION_MOTOR_COUNT. rewrite nth_map_seq by exact Hi.
  unfold fraction_of, store_fraction. rewrite (abs_eq _ Hs), max_fraction_value.
  change (0xFFFFFFFF / LOOPS_PER_STEP) with (2 ^ 31 - 1).
  unfold abs_defined, INT_MIN, INT_MAX in *.
  set (s := Z.abs (nth i (steps param) 0)) in *.
  assert (0 <= s) by (subst s; lia).
  rewrite (uint64_small s) by lia.
  rewrite (uint64_small (s * (2 ^ 31 - 1))) by nia.
  rewrite (uint64_small defining_axis_steps) by lia.
  apply uint32_small. split.
  - apply Z.div_pos; nia.
  - apply Z.div_lt_upper_bound; nia.
Qed.

(** The direction bits of every segment of a request, against the movement
    passed to the synthesizer and against the request itself. *)
Lemma direction_bits_of_calls (param : MotorMovement) (i : nat) :
  (i < BEAGLEG_NUM_MOTORS)%nat ->
  Forall (fun c =>
            Z.testbit (direction_bits (segment_of_call c)) (Z.of_nat i)
            = (nth i (steps (fst c)) 0 <? 0))
    (calls_of param).
Proof.
  intros Hi. rewrite Forall_forall. intros c _.
  apply new_element_direction_bit, Hi.
Qed.

(** C8, as the code has it: bit [i] of every segment is set exactly when
    axis [i] moves backwards in that segment; on the single-segment path
    that is when [steps[i] < 0]; on the splitting path a set bit implies
    [steps[i] < 0] and the bit is clear when [steps[i] >= 0], the step delta
    of a division never having the opposite sign of the request. *)
Theorem direction_bits_follow_steps (param : MotorMovement) (i : nat) :
  well_formed param ->
  (i < BEAGLEG_NUM_MOTORS)%nat ->
  segments_of param = map segment_of_call (calls_of param) /\
  Forall (fun c =>
            Z.testbit (direction_bits (segment_of_call c)) (Z.of_nat i)
            = (nth i (steps (fst c)) 0 <? 0))
    (calls_of param) /\
  (get_defining_axis_steps (steps param) <= MAX_STEPS_PER_SEGMENT ->
   Forall (fun seg =>
             Z.testbit (direction_bits seg) (Z.of_nat i) = (nth i (steps param) 0 <? 0))
     (segments_of param)) /\
  (get_defining_axis_steps (steps param) > MAX_STEPS_PER_SEGMENT ->
   Forall (fun c =>
             (Z.testbit (direction_bits (segment_of_call c)) (Z.of_nat i) = true
              -> nth i (steps param) 0 < 0) /\
             (0 < nth i (steps (fst c)) 0 -> 0 < nth i (steps param) 0) /\
             (nth i (steps (fst c)) 0 < 0 -> nth i (steps param) 0 < 0))
     (calls_of param)).
Proof.
  intros Hwf Hi.
  split; [apply segments_of_calls|].
  split; [apply direction_bits_of_calls, Hi|].
  split.
  - intros Hle. rewrite segments_of_calls.
    destruct (Z.eq_dec (get_defining_axis_steps (steps param)) 0) as [E0|Hne].
    + rewrite calls_of_zero by exact E0. constructor.
    + rewrite calls_of_single by assumption.
      constructor; [|constructor].
      apply (new_element_direction_bit param _ i Hi).
  - intros Hgt. rewrite Forall_forall. intros c Hc.
    destruct (split_delta_bounds param i Hwf Hgt Hi c Hc) as (Hp & Hn & H0).
    unfold segment_of_call. rewrite new_element_direction_bit by exact Hi.
    repeat split.
    + intros Hb. apply Z.ltb_lt in Hb. lia.
    + lia.
    + lia.
Qed.

(** The single-segment path copies [aux_bits] into the segment. *)
Lemma aux_of_single_segment (param : MotorMovement) :
  get_defining_axis_steps (steps param) <= MAX_STEPS_PER_SEGMENT ->
  Forall (fun seg => aux seg = aux_bits param) (segments_of param).
Proof.
  intros Hle. rewrite segments_of_calls.
  destruct (Z.eq_dec (get_defining_axis_steps (steps param)) 0) as [E0|Hne].
  - rewrite calls_of_zero by exact E0. constructor.
  - rewrite calls_of_single by assumption.
    constructor; [|constructor]. apply new_element_common.
Qed.

Lemma split_calls_aux (n : nat) (hs : list Z) (a : spec_float) (st : SplitState) :
  Forall (fun c => aux_bits (fst c) = None) (split_calls n hs a st).
Proof.
  revert st. induction n as [|n IH]; intros st; cbn [split_calls]; [constructor|].
  destruct (split_division hs a st) as [[output division_steps] st'] eqn:E.
  constructor; [|apply IH].
  unfold split_division in E. injection E as <- _ _. reflexivity.
Qed.

(** The splitting path never assigns [output.aux_bits]: whatever the
    request says, the [aux] of every segment is indeterminate. *)
Lemma aux_of_split_segments (param : MotorMovement) :
  get_defining_axis_steps (steps param) > MAX_STEPS_PER_SEGMENT ->
  Forall (fun seg => aux seg = None) (segments_of param).
Proof.
  intros Hgt. rewrite segments_of_calls, calls_of_split by exact Hgt.
  rewrite Forall_map.
  eapply Forall_impl; [|apply split_calls_aux].
  intros c Hc. unfold segment_of_call.
  destruct (new_element_common (fst c) (snd c)) as (_ & -> & _). exact Hc.
Qed.

(** ** Facts about the floating-point operations *)

Lemma SFcompare_antisym (x y : spec_float) :
  SFcompare y x = option_map CompOpp (SFcompare x y).
Proof.
  destruct x as [sx|sx| |sx mx ex], y as [sy|sy| |sy my ey];
    try destruct sx; try destruct sy; try reflexivity;
    cbn [SFcompare option_map]; f_equal;
    rewrite (Z.compare_antisym ex ey);
    destruct (ex ?= ey); cbn [CompOpp]; try reflexivity;
    rewrite (Pos.compare_cont_antisym mx my Eq); reflexivity.
Qed.

Lemma SFltb_antisym (x y : spec_float) : SFltb x y = true -> SFltb y x = false.
Proof.
  unfold SFltb. rewrite (SFcompare_antisym x y).
  destruct (SFcompare x y) as [[| |]|]; cbn; congruence.
Qed.

Lemma SFltb_irrefl (x : spec_float) : SFltb x x = false.
Proof.
  destruct (SFltb x x) eqn:E; [|reflexivity].
  pose proof (SFltb_antisym x x E). congruence.
Qed.

(** The clipped speed is never above the limit, and is the limit itself for
    every speed above it. *)
Lemma clip_not_above (v : spec_float) :
  F32.ltb hardware_frequency_limit_ (clip_hardware_frequency_limit v) = false.
Proof.
  unfold clip_hardware_frequency_limit, F32.ltb.
  destruct (SFltb v hardware_frequency_limit_) eqn:E.
  - apply SFltb_antisym, E.
  - apply SFltb_irrefl.
Qed.

Lemma clip_above (v : spec_float) :
  F32.ltb hardware_frequency_limit_ v = true ->
  clip_hardware_frequency_limit v = hardware_frequency_limit_.
Proof.
  unfold clip_hardware_frequency_limit, F32.ltb. intros H.
  now rewrite (SFltb_antisym _ _ H).
Qed.

Lemma clip_below (v : spec_float) :
  F32.ltb v hardware_frequency_limit_ = true ->
  clip_hardware_frequency_limit v = v.
Proof.
  unfold clip_hardware_frequency_limit. now intros ->.
Qed.

Lemma iter_pos_invariant {A : Type} (P : A -> Prop) (f : A -> A) :
  (forall x, P x -> P (f x)) -> forall n x, P x -> P (iter_pos f n x).
Proof.
  intros Hf. induction n as [n IH|n IH|]; intros x Hx; cbn [iter_pos]; auto.
Qed.

Lemma shr_1_nonneg (r : shr_record) : 0 <= shr_m r -> 0 <= shr_m (shr_1 r).
Proof.
  destruct r as [m r s]. cbn [shr_m]. intros H.
  destruct m as [|[p|p|]|p]; cbn; lia.
Qed.

Lemma shr_nonneg (r : shr_record) (e n : Z) :
  0 <= shr_m r -> 0 <= shr_m (fst (shr r e n)).
Proof.
  intros H. destruct n as [|p|p]; cbn [shr fst]; auto.
  apply (iter_pos_invariant (fun r => 0 <= shr_m r)); [apply shr_1_nonneg|exact H].
Qed.

Lemma shr_fexp_nonneg (prec emax m e : Z) (l : location) :
  0 <= m -> 0 <= shr_m (fst (shr_fexp prec emax m e l)).
Proof.
  intros H. unfold shr_fexp. apply shr_nonneg.
  destruct l as [|[| |]]; exact H.
Qed.

Lemma round_nearest_even_nonneg (m : Z) (l : location) :
  0 <= m -> 0 <= round_nearest_even m l.
Proof.
  intros H. destruct l as [|[| |]]; cbn [round_nearest_even]; try lia.
  destruct (Z.even m); lia.
Qed.

Lemma binary_round_aux_nonneg (prec emax m e : Z) (l : location) :
  0 <= m -> nonneg_number (binary_round_aux prec emax false m e l) = true.
Proof.
  intros H. unfold binary_round_aux.
  pose proof (shr_fexp_nonneg prec emax m e l H) as H1.
  destruct (shr_fexp prec emax m e l) as [mrs' e']. cbn [fst] in H1.
  pose proof (shr_fexp_nonneg prec emax _ e' loc_Exact
                (round_nearest_even_nonneg _ (loc_of_shr_record mrs') H1)) as H2.
  destruct (shr_fexp prec emax _ e' loc_Exact) as [mrs'' e'']. cbn [fst] in H2.
  destruct (shr_m mrs'') as [|p|p]; [reflexivity| |lia].
  destruct (e'' <=? emax - prec); reflexivity.
Qed.

Lemma convert_nonneg (prec emax : Z) (x : spec_float) :
  nonneg_number x = true -> nonneg_number (FloatFormat.convert prec emax x) = true.
Proof.
  destruct x as [s|[|]| |[|] m e]; cbn [nonneg_number FloatFormat.convert];
    try discriminate; auto.
  intros _. unfold binary_round.
  destruct (shl_align m e _) as [mz ez]. apply binary_round_aux_nonneg. lia.
Qed.

Lemma Zsqrtrem_nonneg (z : Z) : 0 <= fst (Z.sqrtrem z).
Proof.
  destruct z as [|p|p]; cbn; try lia.
  destruct (Pos.sqrtrem p) as [s [|r|]]; cbn; lia.
Qed.

Lemma SFsqrt_nonneg (prec emax : Z) (x : spec_float) :
  nonneg_number x = true -> nonneg_number (SFsqrt prec emax x) = true.
Proof.
  destruct x as [s|[|]| |[|] m e]; cbn [nonneg_number SFsqrt];
    try discriminate; auto.
  intros _. unfold SFsqrt_core_binary.
  match goal with
  | |- context [Z.sqrtrem ?z] =>
      pose proof (Zsqrtrem_nonneg z) as Hq; destruct (Z.sqrtrem z) as [q r]
  end.
  cbn [fst] in Hq. apply binary_round_aux_nonneg, Hq.
Qed.

Lemma positive_is_nonneg (x : spec_float) :
  SFltb (S754_zero false) x = true -> nonneg_number x = true.
Proof.
  destruct x as [s|[|]| |[|] m e]; cbn; congruence.
Qed.

Lemma mul_two_nonzero (v : spec_float) :
  F32.valid v = true -> is_zero v = false ->
  is_zero (F32.mul (F32.of_int LOOPS_PER_STEP) v) = false.
Proof.
  intros Hv Hz.
  change (F32.of_int LOOPS_PER_STEP) with (S754_finite false 8388608 (-22)).
  destruct v as [s|s| |s m e]; try reflexivity; try discriminate.
  unfold F32.valid, valid_binary, bounded, canonical_mantissa in Hv.
  apply andb_prop in Hv. destruct Hv as [Hc He].
  apply Z.eqb_eq in Hc. apply Z.leb_le in He.
  unfold fexp, emin, F32.prec, F32.emax in Hc, He.
  assert (1 <= Z.pos (digits2_pos m)) as Hdm by lia.
  unfold F32.mul, SFmul, binary_round_aux, shr_fexp.
  cbn [Pos.mul xorb Zdigits2 digits2_pos].
  rewrite !Pos2Z.inj_succ.
  unfold fexp, emin, F32.prec, F32.emax.
  set (dm := Z.pos (digits2_pos m)) in *.
  destruct (Z.le_gt_cases (-149) (dm + e - 24)) as [Hn|Hsub].
  - match goal with
    | |- context [shr ?r ?x ?n] => replace n with 23 by lia
    end.
    cbn [shr iter_pos shr_1 shr_record_of_loc orb shr_m loc_of_shr_record
           round_nearest_even Zdigits2].
    fold dm.
    match goal with
    | |- context [shr ?r ?x ?n] => replace n with 0 by lia
    end.
    cbn [shr shr_m]. destruct (_ <=? _); reflexivity.
  - match goal with
    | |- context [shr ?r ?x ?n] => replace n with 22 by lia
    end.
    cbn [shr iter_pos shr_1 shr_record_of_loc orb shr_m loc_of_shr_record
           round_nearest_even Zdigits2 digits2_pos].
    rewrite Pos2Z.inj_succ. fold dm.
    match goal with
    | |- context [shr ?r ?x ?n] => replace n with 0 by lia
    end.
    cbn [shr shr_m]. destruct (_ <=? _); reflexivity.
Qed.

Lemma division_exit_speed_nonneg (a s : spec_float) (d : Z) :
  nonneg_number (division_exit_speed a s d) = true.
Proof.
  unfold division_exit_speed. cbv zeta.
  destruct (F64.ltb (F64.of_int 0) _) eqn:E; [|reflexivity].
  apply SFsqrt_nonneg, positive_is_nonneg, E.
Qed.

Lemma round2int_div_zero (x z : spec_float) :
  is_zero z = true -> round2int (F32.div x z) = None.
Proof.
  destruct z as [sz|sz| |sz mz ez]; try discriminate. intros _.
  destruct x as [sx|sx| |sx mx ex]; reflexivity.
Qed.


(** ** Speeds *)

(** C10, as the code has it: for a travel request with a valid speed the
    divisor [LOOPS_PER_STEP * clip(v0)] is zero exactly when [v0] is zero;
    for [v0 == v1 == 0] the quotient is not a finite number and the travel
    delay is the result of an undefined conversion. *)
Theorem travel_divisor_zero_iff (param : MotorMovement) (defining_axis_steps : Z) :
  hardware_frequency_limit_ = hardware_frequency_limit_after_init ->
  F32.valid (v0 param) = true ->
  F32.eqb (v0 param) (v1 param) = true ->
  is_zero (travel_divisor param) = is_zero (v0 param) /\
  travel_delay_cycles (new_element param defining_axis_steps)
  = round2int (F32.div (F32.of_int TIMER_FREQUENCY) (travel_divisor param)) /\
  (is_zero (v0 param) = true ->
   travel_delay_cycles (new_element param defining_axis_steps) = None).
Proof.
  intros Hlimit Hvalid Heq.
  assert (is_zero (travel_divisor param) = is_zero (v0 param)) as Hzero.
  { unfold travel_divisor, clip_hardware_frequency_limit. cbv zeta. rewrite Hlimit.
    destruct (is_zero (v0 param)) eqn:Ez.
    - destruct (v0 param) as [s|s| |s m e]; try discriminate. reflexivity.
    - destruct (F32.ltb (v0 param) hardware_frequency_limit_after_init).
      + apply mul_two_nonzero; assumption.
      + apply mul_two_nonzero; reflexivity. }
  assert (travel_delay_cycles (new_element param defining_axis_steps)
          = round2int (F32.div (F32.of_int TIMER_FREQUENCY) (travel_divisor param)))
    as Hdelay.
  { unfold new_element. rewrite Heq. reflexivity. }
  split; [exact Hzero|]. split; [exact Hdelay|].
  intros Ez. rewrite Hdelay. apply round2int_div_zero. now rewrite Hzero.
Qed.

Lemma speed_chain_continuous (a s : spec_float) (calls : list (MotorMovement * Z)) :
  speed_chain a s calls -> continuous calls.
Proof.
  revert s. induction calls as [|c rest IH]; intros s; [exact (fun _ => I)|].
  cbn [speed_chain]. intros (H0 & H1 & Hrest).
  destruct rest as [|c' rest']; [exact I|].
  cbn [continuous]. split; [|eapply IH, Hrest].
  cbn [speed_chain] in Hrest. destruct Hrest as (H0' & _). congruence.
Qed.

Lemma split_calls_chain (n : nat) (hs : list Z) (a : spec_float) (st : SplitState) :
  speed_chain a (previous_speed st) (split_calls n hs a st).
Proof.
  revert st. induction n as [|n IH]; intros st; cbn [split_calls]; [exact I|].
  destruct (split_division hs a st) as [[output division_steps] st'] eqn:E.
  unfold split_division in E. injection E as <- <- <-.
  cbn [speed_chain fst snd v0 v1]. split; [reflexivity|]. split; [reflexivity|].
  apply (IH {| hires_step_accumulator := _; previous_steps := _; previous_speed := _ |}).
Qed.

Lemma speed_chain_nonneg (a s : spec_float) (calls : list (MotorMovement * Z)) :
  speed_chain a s calls ->
  Forall (fun c => nonneg_number (v1 (fst c)) = true) calls.
Proof.
  revert s. induction calls as [|c rest IH]; intros s; [constructor|].
  cbn [speed_chain]. intros (_ & H1 & Hrest). constructor.
  - rewrite H1. apply convert_nonneg, division_exit_speed_nonneg.
  - eapply IH, Hrest.
Qed.

(** C2, as the code has it: in the splitting path the entry speed of the
    first division is the requested [v0], every division's exit speed is
    [sqrt(v0^2 + 2*a*division_steps)] computed in [double] with a radicand
    that is not positive replaced by 0, the next division enters at exactly
    that speed, and no exit speed is negative or NaN. *)
Theorem split_speeds_continuous (param : MotorMovement) :
  get_defining_axis_steps (steps param) > MAX_STEPS_PER_SEGMENT ->
  speed_chain (split_acceleration param) (F64.of_float (v0 param)) (calls_of param) /\
  continuous (calls_of param) /\
  Forall (fun c => nonneg_number (v1 (fst c)) = true) (calls_of param).
Proof.
  intros Hgt. rewrite calls_of_split by exact Hgt.
  pose proof (split_calls_chain
                (Z.to_nat (divisions_of (get_defining_axis_steps (steps param))))
                (split_increments param) (split_acceleration param)
                (split_start param)) as Hchain.
  cbn [split_start previous_speed] in Hchain.
  split; [exact Hchain|]. split.
  - eapply speed_chain_continuous, Hchain.
  - eapply speed_chain_nonneg, Hchain.
Qed.

Lemma accumulator_floor (s d k : Z) :
  0 < d -> 2 * (d * d) <= 2 ^ 32 -> 0 <= k <= d ->
  (k * ((s * 2 ^ 32) ÷ d + 1)) / 2 ^ 32 = (k * s) / d.
Proof.
  intros Hd Hdd Hk.
  pose proof (Z.quot_rem' (s * 2 ^ 32) d) as E.
  pose proof (Z.rem_bound_abs (s * 2 ^ 32) d ltac:(lia)) as B.
  set (q := (s * 2 ^ 32) ÷ d) in *. set (rho := Z.rem (s * 2 ^ 32) d) in *.
  pose proof (Z.div_mod (k * s) d ltac:(lia)) as Et.
  pose proof (Z.mod_pos_bound (k * s) d Hd) as Br.
  set (t := (k * s) / d) in *. set (r := (k * s) mod d) in *.
  assert (d * (k * (q + 1)) = d * (t * 2 ^ 32) + (r * 2 ^ 32 + k * (d - rho))) as Ed by nia.
  assert (0 <= r * 2 ^ 32 + k * (d - rho) < d * 2 ^ 32) as Bd by nia.
  symmetry. apply (Z.div_unique _ _ t (k * (q + 1) - t * 2 ^ 32)); [left; nia|lia].
Qed.

Lemma div_step_two_values (x h : Z) :
  h / 2 ^ 32 <= (x + h) / 2 ^ 32 - x / 2 ^ 32 <= h / 2 ^ 32 + 1.
Proof.
  pose proof (Z.div_mod x (2 ^ 32) ltac:(lia)).
  pose proof (Z.mod_pos_bound x (2 ^ 32) ltac:(lia)).
  pose proof (Z.div_mod h (2 ^ 32) ltac:(lia)).
  pose proof (Z.mod_pos_bound h (2 ^ 32) ltac:(lia)).
  replace (x + h) with ((x / 2 ^ 32 + h / 2 ^ 32) * 2 ^ 32 + (x mod 2 ^ 32 + h mod 2 ^ 32)) by lia.
  rewrite Z.div_add_l by lia.
  pose proof (Z.div_pos (x mod 2 ^ 32 + h mod 2 ^ 32) (2 ^ 32) ltac:(lia) ltac:(lia)).
  pose proof (Z.div_lt_upper_bound (x mod 2 ^ 32 + h mod 2 ^ 32) (2 ^ 32) 2 ltac:(lia) ltac:(lia)).
  lia.
Qed.

Lemma divisions_half (D : Z) :
  32767 < D -> 16384 * (D ÷ 32767 + 1) <= D.
Proof.
  intros H. rewrite Z.quot_div_nonneg by lia.
  pose proof (Z.div_mod D 32767 ltac:(lia)).
  pose proof (Z.mod_pos_bound D 32767 ltac:(lia)).
  assert (1 <= D / 32767) by (apply Z.div_le_lower_bound; lia).
  lia.
Qed.

Lemma div_step_lower (x h m : Z) :
  m * 2 ^ 32 <= h -> m <= (x + h) / 2 ^ 32 - x / 2 ^ 32.
Proof.
  intros H.
  pose proof (Z.div_le_mono (x + m * 2 ^ 32) (x + h) (2 ^ 32) ltac:(lia) ltac:(lia)) as U.
  rewrite Z.div_add in U by lia. lia.
Qed.

Lemma div_step_upper (x h m : Z) :
  h <= - (m * 2 ^ 32) -> (x + h) / 2 ^ 32 - x / 2 ^ 32 <= - m.
Proof.
  intros H.
  pose proof (Z.div_le_mono (x + h) (x + (- m) * 2 ^ 32) (2 ^ 32) ltac:(lia) ltac:(lia)) as U.
  rewrite Z.div_add in U by lia. lia.
Qed.

Lemma div_step_neg_unit (m k : Z) :
  0 <= k -> k + 1 < 2 ^ 32 ->
  ((k + 1) * (- (m * 2 ^ 32) + 1)) / 2 ^ 32 - (k * (- (m * 2 ^ 32) + 1)) / 2 ^ 32 = - m.
Proof.
  intros H0 H1.
  replace ((k + 1) * (- (m * 2 ^ 32) + 1)) with ((- m * (k + 1)) * 2 ^ 32 + (k + 1)) by lia.
  replace (k * (- (m * 2 ^ 32) + 1)) with ((- m * k) * 2 ^ 32 + k) by lia.
  rewrite !Z.div_add_l by lia.
  rewrite !Z.div_small by lia. lia.
Qed.

Lemma firstn_delta_seq (h : Z) (n k : nat) (j : Z) :
  (k <= n)%nat -> firstn k (delta_seq h j n) = delta_seq h j k.
Proof.
  revert n j. induction k as [|k IH]; intros n j Hk; [reflexivity|].
  destruct n as [|n]; [lia|].
  cbn [delta_seq firstn]. f_equal. apply IH. lia.
Qed.

(** ** The distribution of the steps over the divisions *)

(** The facts about [divisions] that the splitting path relies on. *)
Lemma split_divisions (param : MotorMovement) :
  get_defining_axis_steps (steps param) > MAX_STEPS_PER_SEGMENT ->
  2 <= get_defining_axis_steps (steps param) ÷ 32767 + 1 <= 65539 /\
  get_defining_axis_steps (steps param)
  < 32767 * (get_defining_axis_steps (steps param) ÷ 32767 + 1) /\
  16384 * (get_defining_axis_steps (steps param) ÷ 32767 + 1)
  <= get_defining_axis_steps (steps param) /\
  get_defining_axis_steps (steps param) ÷ 32767 + 1
  = get_defining_axis_steps (steps param) / MAX_STEPS_PER_SEGMENT + 1.
Proof.
  intros Hgt. rewrite MAX_STEPS_PER_SEGMENT_value in *.
  pose proof (defining_axis_steps_int (steps param)) as HD.
  pose proof (divisions_facts (get_defining_axis_steps (steps param))
                ltac:(lia) ltac:(lia)) as F.
  cbv zeta in F.
  pose proof (divisions_half (get_defining_axis_steps (steps param)) ltac:(lia)).
  rewrite (Z.quot_div_nonneg (get_defining_axis_steps (steps param)) 32767) in * by lia.
  lia.
Qed.

Lemma split_calls_delta_prop_range (param : MotorMovement) (i : nat) (P : Z -> Prop) :
  well_formed param ->
  get_defining_axis_steps (steps param) > MAX_STEPS_PER_SEGMENT ->
  (i < BEAGLEG_NUM_MOTORS)%nat ->
  (forall j,
      0 <= j < get_defining_axis_steps (steps param) ÷ 32767 + 1 ->
      P (((j + 1) * ((nth i (steps param) 0 * 2 ^ 32)
                       ÷ (get_defining_axis_steps (steps param) ÷ 32767 + 1) + 1)) / 2 ^ 32
         - (j * ((nth i (steps param) 0 * 2 ^ 32)
                   ÷ (get_defining_axis_steps (steps param) ÷ 32767 + 1) + 1)) / 2 ^ 32)) ->
  forall c, In c (calls_of param) -> P (nth i (steps (fst c)) 0).
Proof.
  intros Hwf Hgt Hi HP c Hc.
  destruct (split_divisions param Hgt) as (Hd & _).
  pose proof (split_axis_deltas param i Hwf Hgt Hi) as E.
  assert (Forall P (axis_deltas i (calls_of param))) as A.
  { rewrite E. apply delta_seq_Forall_range. intros j Hj. apply HP.
    rewrite Z2Nat.id in Hj by lia. lia. }
  rewrite Forall_forall in A. apply A.
  apply (in_map (fun c => nth i (steps (fst c)) 0)), Hc.
Qed.

(** X1: after [k] divisions axis [i] has made [floor(k * steps[i] / divisions)]
    steps: the accumulator spreads the steps like a line-drawing algorithm,
    as long as [2 * divisions^2] fits 32 bits. *)
Theorem split_cumulative_steps (param : MotorMovement) (i k : nat) :
  well_formed param ->
  get_defining_axis_steps (steps param) > MAX_STEPS_PER_SEGMENT ->
  get_defining_axis_steps (steps param) < 46340 * MAX_STEPS_PER_SEGMENT ->
  (i < BEAGLEG_NUM_MOTORS)%nat ->
  (k <= List.length (calls_of param))%nat ->
  Zsum (firstn k (axis_deltas i (calls_of param)))
  = (Z.of_nat k * nth i (steps param) 0)
    / (get_defining_axis_steps (steps param) / MAX_STEPS_PER_SEGMENT + 1).
Proof.
  intros Hwf Hgt Hsmall Hi Hk.
  destruct (split_divisions param Hgt) as (Hd & _ & _ & Ediv).
  rewrite <- Ediv.
  assert (get_defining_axis_steps (steps param) ÷ 32767 + 1 <= 46340) as Hd'.
  { rewrite MAX_STEPS_PER_SEGMENT_value in *.
    pose proof (defining_axis_steps_int (steps param)).
    rewrite Z.quot_div_nonneg by lia.
    assert (get_defining_axis_steps (steps param) / 32767 < 46340)
      by (apply Z.div_lt_upper_bound; lia).
    lia. }
  rewrite calls_of_split, split_calls_length, divisions_of_value in Hk
    by (pose proof (defining_axis_steps_int (steps param)); lia).
  rewrite split_axis_deltas by assumption.
  rewrite firstn_delta_seq by exact Hk.
  rewrite Zsum_delta_seq.
  rewrite Z.mul_0_l, Z.div_0_l, Z.add_0_l, Z.sub_0_r by lia.
  apply accumulator_floor; nia.
Qed.

(** X2: the split is even: the steps one axis makes in two divisions of the
    same request differ by at most one. *)
Theorem split_divisions_even (param : MotorMovement) (i : nat)
    (c1 c2 : MotorMovement * Z) :
  well_formed param ->
  get_defining_axis_steps (steps param) > MAX_STEPS_PER_SEGMENT ->
  (i < BEAGLEG_NUM_MOTORS)%nat ->
  In c1 (calls_of param) -> In c2 (calls_of param) ->
  Z.abs (nth i (steps (fst c1)) 0 - nth i (steps (fst c2)) 0) <= 1.
Proof.
  intros Hwf Hgt Hi H1 H2.
  pose proof (split_calls_delta_prop param i
                (fun delta =>
                   ((nth i (steps param) 0 * 2 ^ 32)
                      ÷ (get_defining_axis_steps (steps param) ÷ 32767 + 1) + 1) / 2 ^ 32
                   <= delta
                   <= ((nth i (steps param) 0 * 2 ^ 32)
                         ÷ (get_defining_axis_steps (steps param) ÷ 32767 + 1) + 1) / 2 ^ 32
                      + 1)
                Hwf Hgt Hi (fun x => div_step_two_values x _)) as A.
  pose proof (A c1 H1) as B1. pose proof (A c2 H2) as B2. cbv beta in B1, B2. lia.
Qed.

(** X3: no overshoot: after any number of divisions an axis is between its start
    and its target, and every division moves it towards the target. *)
Theorem split_never_overshoots (param : MotorMovement) (i k : nat) :
  well_formed param ->
  get_defining_axis_steps (steps param) > MAX_STEPS_PER_SEGMENT ->
  (i < BEAGLEG_NUM_MOTORS)%nat ->
  (k <= List.length (calls_of param))%nat ->
  (0 <= nth i (steps param) 0 ->
   0 <= Zsum (firstn k (axis_deltas i (calls_of param))) <= nth i (steps param) 0) /\
  (nth i (steps param) 0 <= 0 ->
   nth i (steps param) 0 <= Zsum (firstn k (axis_deltas i (calls_of param))) <= 0).
Proof.
  intros Hwf Hgt Hi Hk.
  destruct (split_divisions param Hgt) as (Hd & HD & _ & _).
  pose proof (defining_axis_steps_int (steps param)) as Hint.
  pose proof (defining_axis_steps_bounds_all param i Hwf) as Hs.
  rewrite calls_of_split, split_calls_length, divisions_of_value in Hk
    by (rewrite ?MAX_STEPS_PER_SEGMENT_value in *; lia).
  rewrite split_axis_deltas by assumption.
  rewrite firstn_delta_seq by exact Hk.
  rewrite Zsum_delta_seq.
  rewrite Z.mul_0_l, Z.div_0_l, Z.add_0_l, Z.sub_0_r by lia.
  set (d := get_defining_axis_steps (steps param) ÷ 32767 + 1) in *.
  set (s := nth i (steps param) 0) in *.
  pose proof (quot_plus_one_total s d ltac:(lia) ltac:(lia)) as Etotal.
  assert (0 <= Z.of_nat k <= d) as Hkd by lia.
  split; intros Hsign.
  - pose proof (hires_bounds_nonneg s _ d ltac:(lia) ltac:(lia) HD ltac:(lia)) as Hh.
    assert (0 <= Z.of_nat k * (s * 2 ^ 32 ÷ d + 1) <= d * (s * 2 ^ 32 ÷ d + 1)) by nia.
    pose proof (Z.div_le_mono (Z.of_nat k * (s * 2 ^ 32 ÷ d + 1))
                  (d * (s * 2 ^ 32 ÷ d + 1)) (2 ^ 32) ltac:(lia) ltac:(lia)).
    pose proof (Z.div_pos (Z.of_nat k * (s * 2 ^ 32 ÷ d + 1)) (2 ^ 32)
                  ltac:(lia) ltac:(lia)).
    lia.
  - destruct (Z.eq_dec s 0) as [E0|Hne].
    + rewrite E0, Z.mul_0_l, Z.quot_0_l, Z.add_0_l, Z.mul_1_r by lia.
      rewrite Z.div_small by lia. lia.
    + pose proof (hires_bounds_neg s _ d ltac:(lia) ltac:(lia) HD ltac:(lia)) as Hh.
      assert (d * (s * 2 ^ 32 ÷ d + 1) <= Z.of_nat k * (s * 2 ^ 32 ÷ d + 1) <= 0) by nia.
      pose proof (Z.div_le_mono (d * (s * 2 ^ 32 ÷ d + 1))
                    (Z.of_nat k * (s * 2 ^ 32 ÷ d + 1)) (2 ^ 32) ltac:(lia) ltac:(lia)).
      pose proof (Z.div_le_mono (Z.of_nat k * (s * 2 ^ 32 ÷ d + 1)) 0 (2 ^ 32)
                    ltac:(lia) ltac:(lia)) as U.
      rewrite Z.div_0_l in U by lia. lia.
Qed.

(** ** The shape of every call and of every segment *)

(** The defining axis of the request makes at least 16384 steps in every
    division. *)
Lemma split_dominant_size (param : MotorMovement) :
  well_formed param ->
  get_defining_axis_steps (steps param) > MAX_STEPS_PER_SEGMENT ->
  exists j, (j < BEAGLEG_NUM_MOTORS)%nat /\
    forall c, In c (calls_of param) -> 16384 <= Z.abs (nth j (steps (fst c)) 0).
Proof.
  intros Hwf Hgt.
  destruct (split_divisions param Hgt) as (Hd & HD & Hhalf & _).
  destruct (defining_axis_steps_attained (steps param)) as (j & Hj & E).
  rewrite well_formed_abs in E by exact Hwf.
  assert (j < BEAGLEG_NUM_MOTORS)%nat as Hj'.
  { destruct (Nat.lt_ge_cases j BEAGLEG_NUM_MOTORS) as [|Hge]; [assumption|].
    rewrite nth_overflow in E by (destruct Hwf as [-> _]; exact Hge).
    rewrite MAX_STEPS_PER_SEGMENT_value in Hgt. cbn in E. lia. }
  exists j. split; [exact Hj'|].
  apply (split_calls_delta_prop_range param j (fun delta => 16384 <= Z.abs delta)
           Hwf Hgt Hj').
  intros k Hk.
  set (D := get_defining_axis_steps (steps param)) in *.
  set (d := D ÷ 32767 + 1) in *.
  destruct (Z.abs_spec (nth j (steps param) 0)) as [[_ Ea]|[_ Ea]]; rewrite Ea in E.
  - rewrite <- E.
    pose proof (quot_bounds_nonneg D d ltac:(lia) ltac:(lia)) as Hq.
    assert (16384 * 2 ^ 32 <= D * 2 ^ 32 ÷ d + 1) as Hh by nia.
    replace ((k + 1) * (D * 2 ^ 32 ÷ d + 1))
      with (k * (D * 2 ^ 32 ÷ d + 1) + (D * 2 ^ 32 ÷ d + 1)) by lia.
    pose proof (div_step_lower (k * (D * 2 ^ 32 ÷ d + 1)) _ 16384 Hh). lia.
  - replace (nth j (steps param) 0) with (- D) by lia.
    destruct (Z.eq_dec D (16384 * d)) as [Eq|Hne].
    + replace (- D * 2 ^ 32) with ((- (16384 * 2 ^ 32)) * d) by lia.
      rewrite Z.quot_mul by lia.
      pose proof (div_step_neg_unit 16384 k ltac:(lia) ltac:(lia)). lia.
    + pose proof (quot_bounds_neg (- D) d ltac:(lia) ltac:(lia)) as Hq.
      assert (- D * 2 ^ 32 ÷ d + 1 <= - (16384 * 2 ^ 32)) as Hh by nia.
      replace ((k + 1) * (- D * 2 ^ 32 ÷ d + 1))
        with (k * (- D * 2 ^ 32 ÷ d + 1) + (- D * 2 ^ 32 ÷ d + 1)) by lia.
      pose proof (div_step_upper (k * (- D * 2 ^ 32 ÷ d + 1)) _ 16384 Hh). lia.
Qed.

(** What holds of every call of the synthesizer made for a request. *)
Lemma call_shape (param : MotorMovement) (c : MotorMovement * Z) :
  well_formed param -> In c (calls_of param) ->
  0 < snd c <= 32767 /\
  snd c = get_defining_axis_steps (steps (fst c)) /\
  (forall i, (i < BEAGLEG_NUM_MOTORS)%nat ->
             abs_defined (nth i (steps (fst c)) 0) /\
             Z.abs (nth i (steps (fst c)) 0) <= snd c) /\
  (exists j, (j < BEAGLEG_NUM_MOTORS)%nat /\ Z.abs (nth j (steps (fst c)) 0) = snd c) /\
  (get_defining_axis_steps (steps param) > MAX_STEPS_PER_SEGMENT -> 16384 <= snd c).
Proof.
  intros Hwf Hc.
  pose proof (defining_axis_steps_nonneg param Hwf) as Hnn.
  assert (forall xs : list Z,
             (forall i, (i < BEAGLEG_NUM_MOTORS)%nat -> abs_defined (nth i xs 0)) ->
             0 < get_defining_axis_steps xs ->
             List.length xs = BEAGLEG_NUM_MOTORS ->
             (forall i, (i < BEAGLEG_NUM_MOTORS)%nat ->
                        Z.abs (nth i xs 0) <= get_defining_axis_steps xs) /\
             (exists j, (j < BEAGLEG_NUM_MOTORS)%nat /\
                        Z.abs (nth j xs 0) = get_defining_axis_steps xs)) as Hmax.
  { intros xs Hdef Hpos Hlen. split.
    - intros i Hi. rewrite <- (abs_eq _ (Hdef i Hi)).
      apply defining_axis_steps_upper, Hi.
    - destruct (defining_axis_steps_attained xs) as (j & Hj & E).
      destruct (Nat.lt_ge_cases j BEAGLEG_NUM_MOTORS) as [Hlt|Hge].
      + exists j. split; [exact Hlt|]. rewrite E. symmetry. apply abs_eq, Hdef, Hlt.
      + rewrite nth_overflow in E by lia. cbn in E. lia. }
  destruct (Z.eq_dec (get_defining_axis_steps (steps param)) 0) as [E0|Hne].
  { rewrite calls_of_zero in Hc by exact E0. destruct Hc. }
  destruct (Z.le_gt_cases (get_defining_axis_steps (steps param)) MAX_STEPS_PER_SEGMENT)
    as [Hle|Hgt].
  - rewrite calls_of_single in Hc by assumption.
    destruct Hc as [<-|[]]. cbn [fst snd].
    rewrite MAX_STEPS_PER_SEGMENT_value in Hle.
    destruct (Hmax (steps param) (fun i _ => well_formed_nth param i Hwf)
                ltac:(lia) (proj1 Hwf)) as [Hup Hatt].
    split; [lia|]. split; [reflexivity|].
    split; [intros i Hi; split; [apply well_formed_nth, Hwf|apply Hup, Hi]|].
    split; [exact Hatt|]. rewrite MAX_STEPS_PER_SEGMENT_value. lia.
  - apply Z.lt_gt in Hgt.
    assert (snd c = get_defining_axis_steps (steps (fst c))) as Esnd.
    { pose proof (split_calls_division_steps
                    (Z.to_nat (divisions_of (get_defining_axis_steps (steps param))))
                    (split_increments param) (split_acceleration param)
                    (split_start param)) as A.
      rewrite <- calls_of_split in A by exact Hgt.
      rewrite Forall_forall in A. apply A, Hc. }
    assert (List.length (steps (fst c)) = BEAGLEG_NUM_MOTORS) as Hlen.
    { rewrite calls_of_split in Hc by exact Hgt. revert Hc.
      generalize (split_start param).
      induction (Z.to_nat (divisions_of (get_defining_axis_steps (steps param))))
        as [|n IH]; intros st Hc; [destruct Hc|].
      cbn [split_calls] in Hc.
      destruct (split_division (split_increments param) (split_acceleration param) st)
        as [[output division_steps] st'] eqn:E.
      destruct Hc as [<-|Hc]; [|eapply IH, Hc].
      unfold split_division in E. injection E as <- _ _.
      cbn [fst steps]. now rewrite length_map, length_seq. }
    assert (forall i, (i < BEAGLEG_NUM_MOTORS)%nat ->
                      abs_defined (nth i (steps (fst c)) 0)) as Hdef.
    { intros i Hi.
      destruct (split_delta_bounds param i Hwf Hgt Hi c Hc) as (Hp & Hn & _).
      unfold abs_defined, INT_MIN, INT_MAX. lia. }
    destruct (split_dominant_size param Hwf Hgt) as (j & Hj & Hsize).
    specialize (Hsize c Hc).
    assert (16384 <= snd c) as Hlow.
    { rewrite Esnd.
      pose proof (defining_axis_steps_upper (steps (fst c)) j Hj) as U.
      rewrite (abs_eq _ (Hdef j Hj)) in U. lia. }
    destruct (Hmax (steps (fst c)) Hdef ltac:(lia) Hlen) as [Hup Hatt].
    rewrite <- Esnd in Hup, Hatt.
    assert (snd c <= 32767) as Hhigh.
    { destruct Hatt as (i & Hi & <-).
      destruct (split_delta_bounds param i Hwf Hgt Hi c Hc) as (Hp & Hn & _). lia. }
    split; [lia|]. split; [exact Esnd|].
    split; [intros i Hi; split; [apply Hdef, Hi|apply Hup, Hi]|].
    split; [exact Hatt|]. intros _. exact Hlow.
Qed.

(** X4: in the splitting path every division is at least half a full segment:
    its own defining-axis step count is between 16384 and
    [MAX_STEPS_PER_SEGMENT], so no division degenerates to a short segment. *)
Theorem split_division_size (param : MotorMovement) (c : MotorMovement * Z) :
  well_formed param ->
  get_defining_axis_steps (steps param) > MAX_STEPS_PER_SEGMENT ->
  In c (calls_of param) ->
  16384 <= snd c <= MAX_STEPS_PER_SEGMENT /\
  (exists j, (j < BEAGLEG_NUM_MOTORS)%nat /\ Z.abs (nth j (steps (fst c)) 0) = snd c) /\
  forall i, (i < BEAGLEG_NUM_MOTORS)%nat -> Z.abs (nth i (steps (fst c)) 0) <= snd c.
Proof.
  intros Hwf Hgt Hc.
  destruct (call_shape param c Hwf Hc) as (Hrange & _ & Hall & Hatt & Hlow).
  rewrite MAX_STEPS_PER_SEGMENT_value.
  split; [specialize (Hlow Hgt); lia|]. split; [exact Hatt|].
  intros i Hi. apply Hall, Hi.
Qed.

Lemma fraction_value (param : MotorMovement) (d : Z) (i : nat) :
  (i < BEAGLEG_NUM_MOTORS)%nat ->
  0 < d < 2 ^ 31 ->
  abs_defined (nth i (steps param) 0) ->
  Z.abs (nth i (steps param) 0) <= d ->
  nth i (fractions (new_element param d)) 0
  = Z.abs (nth i (steps param) 0) * (2 ^ 31 - 1) / d.
Proof.
  intros Hi Hd Hs Hle.
  destruct (new_element_common param d) as (_ & _ & _ & ->).
  unfold MOTION_MOTOR_COUNT. rewrite nth_map_seq by exact Hi.
  unfold fraction_of, store_fraction. rewrite (abs_eq _ Hs), max_fraction_value.
  unfold abs_defined, INT_MIN, INT_MAX in *.
  set (s := Z.abs (nth i (steps param) 0)) in *.
  assert (0 <= s) by (subst s; lia).
  rewrite (uint64_small s) by lia.
  rewrite (uint64_small (s * (2 ^ 31 - 1))) by nia.
  rewrite (uint64_small d) by lia.
  apply uint32_small. split.
  - apply Z.div_pos; nia.
  - apply Z.div_lt_upper_bound; nia.
Qed.

(** X5: every segment handed to the queue has all its fractions within 31 bits,
    and the axis that defines the segment at the full scale [2^31 - 1]: no
    axis is asked to step more than once per step of the defining axis. *)
Theorem segment_fractions_bounded (param : MotorMovement) (c : MotorMovement * Z) :
  well_formed param ->
  In c (calls_of param) ->
  List.length (fractions (segment_of_call c)) = BEAGLEG_NUM_MOTORS /\
  (forall i, (i < BEAGLEG_NUM_MOTORS)%nat ->
             0 <= nth i (fractions (segment_of_call c)) 0 <= 2 ^ 31 - 1) /\
  (exists j, (j < BEAGLEG_NUM_MOTORS)%nat /\
             nth j (fractions (segment_of_call c)) 0 = 2 ^ 31 - 1) /\
  (forall i, (i < BEAGLEG_NUM_MOTORS)%nat ->
             (nth i (fractions (segment_of_call c)) 0 = 0
              <-> nth i (steps (fst c)) 0 = 0)).
Proof.
  intros Hwf Hc.
  destruct (call_shape param c Hwf Hc) as (Hrange & _ & Hall & Hatt & _).
  unfold segment_of_call.
  split.
  { destruct (new_element_common (fst c) (snd c)) as (_ & _ & _ & ->).
    now rewrite length_map, length_seq. }
  split; [|split].
  - intros i Hi. destruct (Hall i Hi) as [Hdef Hle].
    rewrite fraction_value by (assumption || lia). split.
    + apply Z.div_pos; lia.
    + apply Z.div_le_upper_bound; nia.
  - destruct Hatt as (j & Hj & Ej). exists j. split; [exact Hj|].
    destruct (Hall j Hj) as [Hdef Hle].
    rewrite fraction_value by (assumption || lia).
    rewrite Ej, Z.mul_comm. apply Z.div_mul. lia.
  - intros i Hi. destruct (Hall i Hi) as [Hdef Hle].
    rewrite fraction_value by (assumption || lia). split.
    + intros E0.
      destruct (Z.eq_dec (nth i (steps (fst c)) 0) 0) as [|Hne]; [assumption|].
      exfalso.
      assert (1 <= Z.abs (nth i (steps (fst c)) 0) * (2 ^ 31 - 1) / snd c);
        [apply Z.div_le_lower_bound; nia|lia].
    + intros ->. reflexivity.
Qed.

(** X6: requests are queued one after the other: a call appends its segments, in
    the order of the divisions, behind what is already queued, and neither
    its return value nor its segments depend on the state of the queue or on
    the error stream. *)
Theorem enqueue_appends_in_order (p1 p2 : MotorMovement)
    (err1 err2 : option stream) (w : World) :
  queue (snd (beagleg_enqueue p1 err1 w)) = queue w ++ segments_of p1 /\
  queue (snd (beagleg_enqueue p2 err2 (snd (beagleg_enqueue p1 err1 w))))
  = queue w ++ segments_of p1 ++ segments_of p2 /\
  fst (beagleg_enqueue p2 err2 (snd (beagleg_enqueue p1 err1 w)))
  = fst (beagleg_enqueue p2 None empty_world) /\
  segments_of p1 = map segment_of_call (calls_of p1).
Proof.
  destruct (beagleg_enqueue_frame p1 err1 w) as (_ & Hq1 & _).
  destruct (beagleg_enqueue_frame p2 err2 (snd (beagleg_enqueue p1 err1 w)))
    as (Hr2 & Hq2 & _).
  split; [exact Hq1|]. split; [|split].
  - rewrite Hq2, Hq1, app_assoc. reflexivity.
  - exact Hr2.
  - apply segments_of_calls.
Qed.

(** ** Direction symmetry of the synthesizer *)

Lemma nth_mirrored (param : MotorMovement) (i : nat) :
  nth i (steps (mirrored param)) 0 = - nth i (steps param) 0.
Proof. cbn [mirrored steps]. apply (map_nth Z.opp (steps param) 0 i). Qed.

Lemma fold_left_pointwise {A B : Type} (f g : A -> B -> A) (l : list B) (a : A) :
  (forall x y, f x y = g x y) -> fold_left f l a = fold_left g l a.
Proof.
  intros H. revert a. induction l as [|y l IH]; intros a; [reflexivity|].
  cbn [fold_left]. rewrite H. apply IH.
Qed.

Lemma abs_opp (x : Z) : abs (- x) = abs x.
Proof. unfold abs. now rewrite Z.abs_opp. Qed.

Lemma get_defining_axis_steps_mirrored (param : MotorMovement) :
  get_defining_axis_steps (steps (mirrored param))
  = get_defining_axis_steps (steps param).
Proof.
  unfold get_defining_axis_steps.
  rewrite nth_mirrored, abs_opp.
  apply fold_left_pointwise. intros d i.
  unfold defining_axis_step. now rewrite nth_mirrored, abs_opp.
Qed.

(** X7: reversing a movement changes nothing in its segment but the direction
    bits: the fractions, the loop counts and the timing are those of the
    forward movement, and bit [i] is set for the axes that moved forward. *)
Theorem synthesizer_direction_symmetric (param : MotorMovement)
    (defining_axis_steps : Z) (i : nat) :
  (i < BEAGLEG_NUM_MOTORS)%nat ->
  let forward := new_element param defining_axis_steps in
  let backward := new_element (mirrored param) defining_axis_steps in
  fractions backward = fractions forward /\
  loops_accel backward = loops_accel forward /\
  loops_travel backward = loops_travel forward /\
  loops_decel backward = loops_decel forward /\
  accel_series_index backward = accel_series_index forward /\
  hires_accel_cycles backward = hires_accel_cycles forward /\
  travel_delay_cycles backward = travel_delay_cycles forward /\
  aux backward = aux forward /\
  Z.testbit (direction_bits backward) (Z.of_nat i) = (0 <? nth i (steps param) 0) /\
  get_defining_axis_steps (steps (mirrored param))
  = get_defining_axis_steps (steps param).
Proof.
  intros Hi forward backward.
  assert (map (fraction_of (steps (mirrored param)) defining_axis_steps)
            (seq 0 MOTION_MOTOR_COUNT)
          = map (fraction_of (steps param) defining_axis_steps)
              (seq 0 MOTION_MOTOR_COUNT)) as Hfr.
  { apply map_ext. intros j. unfold fraction_of. now rewrite nth_mirrored, abs_opp. }
  assert (Z.testbit (direction_bits backward) (Z.of_nat i) = (0 <? nth i (steps param) 0))
    as Hbit.
  { subst backward. rewrite new_element_direction_bit by exact Hi.
    rewrite nth_mirrored.
    destruct (Z.ltb_spec (- nth i (steps param) 0) 0),
      (Z.ltb_spec 0 (nth i (steps param) 0)); lia || reflexivity. }
  pose proof (get_defining_axis_steps_mirrored param) as Hdef.
  subst forward backward. revert Hbit.
  unfold new_element, ramp_seed, travel_divisor. cbv zeta.
  rewrite Hfr. cbn [mirrored v0 v1 aux_bits].
  destruct (F32.eqb (v0 param) (v1 param)); [|destruct (F32.ltb (v0 param) (v1 param))];
    cbn; intros Hbit; repeat split; auto.
Qed.

(** ** Speeds that are not numbers *)







(** ** Clipping *)

(** X10: [clip_hardware_frequency_limit] returns its argument or the limit, is
    idempotent, never returns a speed above the limit, leaves every speed
    below the limit alone, negative ones included, and maps NaN to the
    limit. *)
Theorem clip_is_minimum (v : spec_float) :
  (clip_hardware_frequency_limit v = v
   \/ clip_hardware_frequency_limit v = hardware_frequency_limit_) /\
  clip_hardware_frequency_limit (clip_hardware_frequency_limit v)
  = clip_hardware_frequency_limit v /\
  F32.ltb hardware_frequency_limit_ (clip_hardware_frequency_limit v) = false /\
  (F32.ltb v hardware_frequency_limit_ = true -> clip_hardware_frequency_limit v = v) /\
  (F32.ltb hardware_frequency_limit_ v = true ->
   clip_hardware_frequency_limit v = hardware_frequency_limit_) /\
  clip_hardware_frequency_limit S754_nan = hardware_frequency_limit_.
Proof.
  split; [|split; [|split; [|split; [|split]]]].
  - unfold clip_hardware_frequency_limit.
    destruct (F32.ltb v hardware_frequency_limit_); auto.
  - destruct (F32.ltb v hardware_frequency_limit_) eqn:E;
      unfold clip_hardware_frequency_limit; rewrite E.
    + now rewrite E.
    + unfold F32.ltb. now rewrite SFltb_irrefl.
  - apply clip_not_above.
  - apply clip_below.
  - apply clip_above.
  - reflexivity.
Qed.

(** ** Exact conversions and exact squares *)

Lemma iter_pos_eq {A : Type} (f : A -> A) (n : positive) (x : A) :
  iter_pos f n x = Pos.iter f x n.
Proof.
  revert x. induction n as [n IH|n IH|]; intros x; cbn [iter_pos Pos.iter].
  - rewrite !IH. now rewrite <- !Pos.iter_swap.
  - now rewrite !IH.
  - reflexivity.
Qed.

Lemma digits2_pos_shift (m : positive) (k : positive) :
  Z.pos (digits2_pos (Pos.iter xO m k)) = Z.pos (digits2_pos m) + Z.pos k.
Proof.
  induction k as [|k IH] using Pos.peano_ind.
  - cbn [Pos.iter digits2_pos]. lia.
  - rewrite Pos.iter_succ. cbn [digits2_pos]. lia.
Qed.

Lemma shr_shifted (m : positive) (k : positive) :
  iter_pos shr_1 k {| shr_m := Z.pos (Pos.iter xO m k); shr_r := false; shr_s := false |}
  = {| shr_m := Z.pos m; shr_r := false; shr_s := false |}.
Proof.
  rewrite iter_pos_eq.
  induction k as [|k IH] using Pos.peano_ind.
  - reflexivity.
  - rewrite Pos.iter_succ_r, Pos.iter_succ. cbn [shr_1 orb]. exact IH.
Qed.

Lemma round_canonical (prec emax : Z) (s : bool) (m : positive) (e : Z) :
  fexp prec emax (Z.pos (digits2_pos m) + e) = e ->
  e <= emax - prec ->
  binary_round_aux prec emax s (Z.pos m) e loc_Exact = S754_finite s m e.
Proof.
  intros Hc He. unfold binary_round_aux, shr_fexp.
  cbn [Zdigits2 shr_record_of_loc]. rewrite Hc, Z.sub_diag.
  cbn [shr shr_m loc_of_shr_record round_nearest_even Zdigits2 shr_record_of_loc].
  rewrite Hc, Z.sub_diag. cbn [shr shr_m].
  apply Z.leb_le in He. now rewrite He.
Qed.

(** Widening: a mantissa with fewer digits than the format holds is shifted
    left, exactly. *)
Lemma round_widen (prec emax : Z) (s : bool) (m k : positive) (e : Z) :
  fexp prec emax (Z.pos (digits2_pos m) + e) = e - Z.pos k ->
  e - Z.pos k <= emax - prec ->
  binary_round prec emax s m e = S754_finite s (Pos.iter xO m k) (e - Z.pos k).
Proof.
  intros Hc He. unfold binary_round, shl_align. rewrite Hc.
  replace (e - Z.pos k - e) with (Z.neg k) by lia.
  apply round_canonical; [|exact He].
  rewrite digits2_pos_shift.
  replace (Z.pos (digits2_pos m) + Z.pos k + (e - Z.pos k))
    with (Z.pos (digits2_pos m) + e) by lia.
  exact Hc.
Qed.

(** Narrowing a widened mantissa gives the mantissa back. *)
Lemma round_narrow (prec emax : Z) (s : bool) (m k : positive) (e : Z) :
  fexp prec emax (Z.pos (digits2_pos m) + e) = e ->
  e <= emax - prec ->
  binary_round prec emax s (Pos.iter xO m k) (e - Z.pos k) = S754_finite s m e.
Proof.
  intros Hc He. unfold binary_round, shl_align.
  rewrite digits2_pos_shift.
  replace (Z.pos (digits2_pos m) + Z.pos k + (e - Z.pos k))
    with (Z.pos (digits2_pos m) + e) by lia.
  rewrite Hc. replace (e - (e - Z.pos k)) with (Z.pos k) by lia.
  unfold binary_round_aux, shr_fexp. cbn [Zdigits2 shr_record_of_loc].
  rewrite digits2_pos_shift.
  replace (Z.pos (digits2_pos m) + Z.pos k + (e - Z.pos k))
    with (Z.pos (digits2_pos m) + e) by lia.
  rewrite Hc. replace (e - (e - Z.pos k)) with (Z.pos k) by lia.
  cbn [shr]. rewrite shr_shifted.
  cbn [shr_m loc_of_shr_record round_nearest_even Zdigits2 shr_record_of_loc].
  replace (e - Z.pos k + Z.pos k) with e by lia.
  rewrite Hc, Z.sub_diag. cbn [shr shr_m].
  apply Z.leb_le in He. now rewrite He.
Qed.

(** [(float)(double) x = x] for every [float] x. *)
Lemma float_double_float (x : spec_float) :
  F32.valid x = true -> F32.of_double (F64.of_float x) = x.
Proof.
  destruct x as [s|s| |s m e]; try reflexivity.
  unfold F32.valid, valid_binary, bounded, canonical_mantissa. intros Hv.
  apply andb_prop in Hv. destruct Hv as [Hc He].
  apply Z.eqb_eq in Hc. apply Z.leb_le in He.
  assert (1 <= Z.pos (digits2_pos m)) as Hdm by lia.
  unfold F32.of_double, F64.of_float, FloatFormat.convert.
  assert (Z.pos (digits2_pos m) <= 24 /\ -149 <= e) as [Hd24 Hemin].
  { unfold fexp, emin, F32.prec, F32.emax in Hc. lia. }
  set (k := Z.to_pos (53 - Z.pos (digits2_pos m))).
  assert (Z.pos k = 53 - Z.pos (digits2_pos m)) as Ek by (subst k; lia).
  rewrite (round_widen F64.prec F64.emax s m k e);
    [|unfold fexp, emin, F64.prec, F64.emax in *; lia
     |unfold F64.prec, F64.emax, F32.prec, F32.emax in *; lia].
  apply round_narrow; assumption.
Qed.

Lemma digits2_pos_size (m : positive) : digits2_pos m = Pos.size m.
Proof. induction m as [m IH|m IH|]; cbn [digits2_pos Pos.size]; congruence. Qed.

Lemma digits_bounds (m : positive) :
  2 ^ (Z.pos (digits2_pos m) - 1) <= Z.pos m < 2 ^ Z.pos (digits2_pos m).
Proof.
  rewrite digits2_pos_size.
  pose proof (Pos.size_gt m) as Hgt. pose proof (Pos.size_le m) as Hle.
  apply Pos2Z.pos_lt_pos in Hgt. apply Pos2Z.pos_le_pos in Hle.
  rewrite Pos2Z.inj_pow in Hgt, Hle.
  replace (Z.pos (Pos.size m)) with (Z.pos (Pos.size m) - 1 + 1) in Hle at 1 by lia.
  rewrite Z.pow_add_r in Hle by lia.
  change (Z.pos m~0) with (2 * Z.pos m) in Hle. lia.
Qed.

Lemma digits_unique (m : positive) (d : Z) :
  2 ^ (d - 1) <= Z.pos m < 2 ^ d -> Z.pos (digits2_pos m) = d.
Proof.
  intros [Hlo Hhi]. pose proof (digits_bounds m) as [Blo Bhi].
  assert (0 < d).
  { destruct (Z.le_gt_cases d 0) as [Hle|]; [|assumption].
    pose proof (Z.pow_le_mono_r 2 d 0 ltac:(lia) Hle). simpl in *. lia. }
  destruct (Z.lt_trichotomy (Z.pos (digits2_pos m)) d) as [Hlt|[Heq|Hgt]]; [|assumption|].
  - pose proof (Z.pow_le_mono_r 2 (Z.pos (digits2_pos m)) (d - 1) ltac:(lia) ltac:(lia)). lia.
  - pose proof (Z.pow_le_mono_r 2 d (Z.pos (digits2_pos m) - 1) ltac:(lia) ltac:(lia)). lia.
Qed.

Lemma digits_square (m : positive) :
  Z.pos (digits2_pos (m * m)) = 2 * Z.pos (digits2_pos m)
  \/ Z.pos (digits2_pos (m * m)) = 2 * Z.pos (digits2_pos m) - 1.
Proof.
  pose proof (digits_bounds m) as [Blo Bhi].
  set (d := Z.pos (digits2_pos m)) in *.
  assert (1 <= d) by (subst d; lia).
  assert (2 ^ (2 * d - 2) <= Z.pos (m * m) < 2 ^ (2 * d)) as [Slo Shi].
  { rewrite Pos2Z.inj_mul.
    replace (2 * d - 2) with ((d - 1) + (d - 1)) by lia.
    replace (2 * d) with (d + d) by lia.
    rewrite !Z.pow_add_r by lia.
    assert (0 < 2 ^ (d - 1)) by (apply Z.pow_pos_nonneg; lia).
    split; nia. }
  destruct (Z.lt_ge_cases (Z.pos (m * m)) (2 ^ (2 * d - 1))) as [Hlt|Hge].
  - right. apply digits_unique.
    replace (2 * d - 1 - 1) with (2 * d - 2) by lia. lia.
  - left. apply digits_unique. lia.
Qed.

Lemma iter_xO_value (m k : positive) : Z.pos (Pos.iter xO m k) = Z.pos m * 2 ^ Z.pos k.
Proof.
  induction k as [|k IH] using Pos.peano_ind.
  - cbn [Pos.iter]. lia.
  - rewrite Pos.iter_succ, Pos2Z.inj_succ, Z.pow_succ_r by lia.
    change (Z.pos (Pos.iter xO m k)~0) with (2 * Z.pos (Pos.iter xO m k)). lia.
Qed.

Lemma pos_of_value (p q : positive) : Z.pos p = Z.pos q -> p = q.
Proof. congruence. Qed.

(** A mantissa with [k] trailing zero bits is shifted right exactly. *)
Lemma round_aux_shifted (prec emax : Z) (s : bool) (q k : positive) (e : Z) :
  fexp prec emax (Z.pos (digits2_pos q) + (e + Z.pos k)) = e + Z.pos k ->
  e + Z.pos k <= emax - prec ->
  binary_round_aux prec emax s (Z.pos (Pos.iter xO q k)) e loc_Exact
  = S754_finite s q (e + Z.pos k).
Proof.
  intros Hc He.
  unfold binary_round_aux, shr_fexp. cbn [Zdigits2 shr_record_of_loc].
  rewrite digits2_pos_shift.
  replace (Z.pos (digits2_pos q) + Z.pos k + e)
    with (Z.pos (digits2_pos q) + (e + Z.pos k)) by lia.
  rewrite Hc. replace (e + Z.pos k - e) with (Z.pos k) by lia.
  cbn [shr]. rewrite shr_shifted.
  cbn [shr_m loc_of_shr_record round_nearest_even Zdigits2 shr_record_of_loc].
  rewrite Hc, Z.sub_diag. cbn [shr shr_m].
  apply Z.leb_le in He. now rewrite He.
Qed.

Lemma sqrtrem_square (M : positive) : Z.sqrtrem (Z.pos (M * M)) = (Z.pos M, 0).
Proof.
  pose proof (Z.sqrtrem_spec (Z.pos (M * M)) ltac:(lia)) as H.
  destruct (Z.sqrtrem (Z.pos (M * M))) as [q r]. destruct H as [E B].
  rewrite Pos2Z.inj_mul in E.
  assert (q = Z.pos M) by nia. subst q. f_equal. lia.
Qed.

Lemma of_float_widened (s : bool) (m : positive) (e : Z) :
  F32.valid (S754_finite s m e) = true ->
  F64.of_float (S754_finite s m e) = widened s m e /\
  Z.pos (digits2_pos m) <= 24 /\ -149 <= e <= 104.
Proof.
  unfold F32.valid, valid_binary, bounded, canonical_mantissa. intros Hv.
  apply andb_prop in Hv. destruct Hv as [Hc He].
  apply Z.eqb_eq in Hc. apply Z.leb_le in He.
  assert (1 <= Z.pos (digits2_pos m)) as Hdm by lia.
  assert (Z.pos (digits2_pos m) <= 24 /\ -149 <= e) as [Hd24 Hemin].
  { unfold fexp, emin, F32.prec, F32.emax in Hc. lia. }
  unfold F32.prec, F32.emax in He.
  split; [|lia].
  unfold F64.of_float, FloatFormat.convert, widened.
  set (k := Z.to_pos (53 - Z.pos (digits2_pos m))).
  assert (Z.pos k = 53 - Z.pos (digits2_pos m)) as Ek by (subst k; lia).
  rewrite <- Ek.
  apply round_widen; unfold fexp, emin, F64.prec, F64.emax in *; lia.
Qed.

Lemma widened_square (s : bool) (m : positive) (e : Z) :
  Z.pos (digits2_pos m) <= 24 -> -149 <= e <= 104 ->
  F64.mul (widened s m e) (widened s m e) = widened false (m * m) (e + e).
Proof.
  intros Hd He.
  assert (1 <= Z.pos (digits2_pos m)) as Hdm by lia.
  unfold F64.mul, SFmul, widened.
  set (k := Z.to_pos (53 - Z.pos (digits2_pos m))).
  assert (Z.pos k = 53 - Z.pos (digits2_pos m)) as Ek by (subst k; lia).
  rewrite <- Ek.
  set (kk := Z.to_pos (53 - Z.pos (digits2_pos (m * m)))).
  assert (Z.pos kk = 53 - Z.pos (digits2_pos (m * m))) as Ekk
    by (subst kk; destruct (digits_square m); lia).
  rewrite <- Ekk.
  set (sh := Z.to_pos (2 * Z.pos k - Z.pos kk)).
  assert (Z.pos sh = 2 * Z.pos k - Z.pos kk) as Esh
    by (subst sh; destruct (digits_square m); lia).
  assert (Pos.iter xO m k * Pos.iter xO m k = Pos.iter xO (Pos.iter xO (m * m) kk) sh)%positive
    as ->.
  { apply pos_of_value. rewrite Pos2Z.inj_mul, !iter_xO_value, Pos2Z.inj_mul.
    rewrite Esh.
    replace (2 * Z.pos k - Z.pos kk) with (Z.pos k + Z.pos k - Z.pos kk) by lia.
    assert (2 ^ Z.pos k * 2 ^ Z.pos k = 2 ^ Z.pos kk * 2 ^ (Z.pos k + Z.pos k - Z.pos kk)) as Hp.
    { rewrite <- !Z.pow_add_r by (destruct (digits_square m); lia). f_equal. lia. }
    nia. }
  replace (xorb s s) with false by (destruct s; reflexivity).
  rewrite (round_aux_shifted F64.prec F64.emax false _ sh);
    [f_equal; lia| |]; rewrite ?digits2_pos_shift;
      unfold fexp, emin, F64.prec, F64.emax; destruct (digits_square m); lia.
Qed.

Lemma widened_sqrt (m : positive) (e : Z) :
  Z.pos (digits2_pos m) <= 24 -> -149 <= e <= 104 ->
  F64.sqrt (widened false (m * m) (e + e)) = widened false m e.
Proof.
  intros Hd He.
  assert (1 <= Z.pos (digits2_pos m)) as Hdm by lia.
  unfold F64.sqrt, SFsqrt, SFsqrt_core_binary, widened.
  set (k := Z.to_pos (53 - Z.pos (digits2_pos m))).
  assert (Z.pos k = 53 - Z.pos (digits2_pos m)) as Ek by (subst k; lia).
  rewrite <- Ek.
  set (kk := Z.to_pos (53 - Z.pos (digits2_pos (m * m)))).
  assert (Z.pos kk = 53 - Z.pos (digits2_pos (m * m))) as Ekk
    by (subst kk; destruct (digits_square m); lia).
  rewrite <- Ekk.
  cbn [Zdigits2]. rewrite digits2_pos_shift, !Z.div2_div.
  pose proof (digits_square m) as Hsq.
  set (dd := Z.pos (digits2_pos (m * m))) in *.
  set (dm := Z.pos (digits2_pos m)) in *.
  assert (Z.min (fexp F64.prec F64.emax ((dd + Z.pos kk + (e + e - Z.pos kk) + 1) / 2))
            ((e + e - Z.pos kk) / 2) = e - Z.pos k) as ->.
  { unfold fexp, emin, F64.prec, F64.emax.
    Z.div_mod_to_equations. lia. }
  set (sh := Z.to_pos (2 * Z.pos k - Z.pos kk)).
  assert (Z.pos sh = 2 * Z.pos k - Z.pos kk) as Esh by (subst sh; lia).
  replace (e + e - Z.pos kk - 2 * (e - Z.pos k)) with (Z.pos sh) by lia.
  rewrite Z.shiftl_mul_pow2 by lia.
  assert (Z.pos (Pos.iter xO (m * m)%positive kk) * 2 ^ Z.pos sh
          = Z.pos (Pos.iter xO m k * Pos.iter xO m k)) as ->.
  { rewrite Pos2Z.inj_mul, !iter_xO_value, Pos2Z.inj_mul, Esh.
    replace (2 * Z.pos k - Z.pos kk) with (Z.pos k + Z.pos k - Z.pos kk) by lia.
    assert (2 ^ Z.pos k * 2 ^ Z.pos k = 2 ^ Z.pos kk * 2 ^ (Z.pos k + Z.pos k - Z.pos kk)) as Hp.
    { rewrite <- !Z.pow_add_r by lia. f_equal. lia. }
    nia. }
  rewrite sqrtrem_square. cbn [Z.eqb].
  apply round_canonical.
  - rewrite digits2_pos_shift. fold dm. unfold fexp, emin, F64.prec, F64.emax. lia.
  - unfold F64.prec, F64.emax. lia.
Qed.

(** ** Constant speed through the splitting path *)

Lemma of_int_widened (p : positive) :
  Z.pos p < 2 ^ 52 ->
  F64.of_int (Z.pos p) = widened false p 0 /\ F64.of_int (Z.neg p) = widened true p 0.
Proof.
  intros Hp.
  assert (Z.pos (digits2_pos p) <= 52) as Hd.
  { pose proof (digits_bounds p) as [Blo _].
    destruct (Z.le_gt_cases (Z.pos (digits2_pos p)) 52) as [|Hgt]; [assumption|].
    pose proof (Z.pow_le_mono_r 2 52 (Z.pos (digits2_pos p) - 1) ltac:(lia) ltac:(lia)).
    lia. }
  assert (1 <= Z.pos (digits2_pos p)) as Hdm by lia.
  unfold F64.of_int, FloatFormat.of_Z, binary_normalize, widened.
  set (k := Z.to_pos (53 - Z.pos (digits2_pos p))).
  assert (Z.pos k = 53 - Z.pos (digits2_pos p)) as Ek by (subst k; lia).
  rewrite <- Ek. change (0 - Z.pos k) with (Z.neg k).
  split; (rewrite (round_widen F64.prec F64.emax _ p k 0);
          [reflexivity
          |unfold fexp, emin, F64.prec, F64.emax; lia
          |unfold F64.prec, F64.emax; lia]).
Qed.

(** [(double) n] of an [int] n is zero or a finite number. *)
Lemma of_int_finite (z : Z) :
  - 2 ^ 31 <= z < 2 ^ 31 ->
  F64.of_int z = S754_zero false \/ exists s m e, F64.of_int z = S754_finite s m e.
Proof.
  intros Hz. destruct z as [|p|p].
  - left. reflexivity.
  - right. destruct (of_int_widened p ltac:(lia)) as [-> _].
    unfold widened. eauto.
  - right. destruct (of_int_widened p ltac:(lia)) as [_ ->].
    unfold widened. eauto.
Qed.

(** [2.0 * defining_axis_steps] in [double] is a positive finite number. *)
Lemma twice_steps_finite (D : Z) :
  0 < D < 2 ^ 31 ->
  exists m e, F64.mul (F64.of_int 2) (F64.of_int D) = S754_finite false m e.
Proof.
  intros HD. destruct D as [|p|p]; try lia.
  destruct (of_int_widened p ltac:(lia)) as [-> _].
  assert (Z.pos (digits2_pos p) <= 31) as Hd.
  { pose proof (digits_bounds p) as [Blo _].
    destruct (Z.le_gt_cases (Z.pos (digits2_pos p)) 31) as [|Hgt]; [assumption|].
    pose proof (Z.pow_le_mono_r 2 31 (Z.pos (digits2_pos p) - 1) ltac:(lia) ltac:(lia)).
    lia. }
  assert (1 <= Z.pos (digits2_pos p)) as Hdm by lia.
  unfold widened.
  set (k := Z.to_pos (53 - Z.pos (digits2_pos p))).
  assert (Z.pos k = 53 - Z.pos (digits2_pos p)) as Ek by (subst k; lia).
  rewrite <- Ek.
  change (F64.of_int 2) with (S754_finite false 4503599627370496 (-51)).
  unfold F64.mul, SFmul. cbn [xorb].
  assert (4503599627370496 * Pos.iter xO p k = Pos.iter xO (Pos.iter xO p k) 52)%positive
    as ->.
  { apply pos_of_value. rewrite Pos2Z.inj_mul, (iter_xO_value _ 52).
    change (2 ^ 52) with 4503599627370496. lia. }
  rewrite (round_aux_shifted F64.prec F64.emax false _ 52);
    [eauto| |]; rewrite ?digits2_pos_shift;
      unfold fexp, emin, F64.prec, F64.emax; lia.
Qed.

Lemma SFeqb_refl_finite (s : bool) (m : positive) (e : Z) :
  SFeqb (S754_finite s m e) (S754_finite s m e) = true.
Proof.
  unfold SFeqb, SFcompare.
  destruct s; rewrite Z.compare_refl, Pos.compare_cont_refl; reflexivity.
Qed.

(** With equal entry and exit speed the acceleration of the splitting path
    is zero. *)
Lemma split_acceleration_constant (param : MotorMovement) (m : positive) (e : Z) :
  0 < get_defining_axis_steps (steps param) ->
  v0 param = S754_finite false m e -> v1 param = v0 param ->
  F32.valid (v0 param) = true ->
  split_acceleration param = S754_zero false.
Proof.
  intros HD E0 E1 Hv. unfold split_acceleration. rewrite E1, E0.
  rewrite E0 in Hv. destruct (of_float_widened false m e Hv) as (-> & Hd & He).
  unfold sqd. rewrite widened_square by assumption.
  pose proof (defining_axis_steps_int (steps param)) as Hint.
  destruct (twice_steps_finite (get_defining_axis_steps (steps param)) ltac:(lia))
    as (m2 & e2 & ->).
  unfold widened, F64.sub, SFsub. rewrite Z.sub_diag. reflexivity.
Qed.

(** At zero acceleration a division leaves at the speed it entered with. *)
Lemma division_exit_speed_constant (m : positive) (e : Z) (division_steps : Z) :
  Z.pos (digits2_pos m) <= 24 -> -149 <= e <= 104 ->
  - 2 ^ 31 <= division_steps < 2 ^ 31 ->
  division_exit_speed (S754_zero false) (widened false m e) division_steps
  = widened false m e.
Proof.
  intros Hd He Hds. unfold division_exit_speed, sqd. cbv zeta.
  rewrite widened_square by assumption.
  change (F64.mul (F64.of_int 2) (S754_zero false)) with (S754_zero false).
  assert (exists s, F64.mul (S754_zero false) (F64.of_int division_steps) = S754_zero s)
    as [s ->].
  { destruct (of_int_finite division_steps Hds) as [->|(s & m' & e' & ->)];
      cbn; eauto. }
  assert (F64.add (widened false (m * m) (e + e)) (S754_zero s)
          = widened false (m * m) (e + e)) as -> by reflexivity.
  assert (F64.ltb (F64.of_int 0) (widened false (m * m) (e + e)) = true) as ->
    by reflexivity.
  apply widened_sqrt; assumption.
Qed.

Lemma split_calls_constant (n : nat) (hs : list Z) (m : positive) (e : Z) :
  F32.valid (S754_finite false m e) = true ->
  forall st : SplitState,
    previous_speed st = widened false m e ->
    Forall (fun c => v0 (fst c) = S754_finite false m e
                     /\ v1 (fst c) = S754_finite false m e)
      (split_calls n hs (S754_zero false) st).
Proof.
  intros Hv.
  destruct (of_float_widened false m e Hv) as (Ew & Hd & He).
  pose proof (float_double_float _ Hv) as Hback. rewrite Ew in Hback.
  induction n as [|n IH]; intros st Hst; cbn [split_calls]; [constructor|].
  destruct (split_division hs (S754_zero false) st) as [[output division_steps] st'] eqn:E.
  unfold split_division in E. injection E as <- <- <-.
  rewrite Hst.
  rewrite division_exit_speed_constant
    by (assumption || apply defining_axis_steps_int).
  constructor.
  - cbn [fst v0 v1]. auto.
  - apply IH. reflexivity.
Qed.

(** X11: a request at constant speed that has to be split stays at constant
    speed: every division enters and leaves at exactly the requested speed,
    so every segment is a travel segment with the delay the request would
    have had unsplit. *)
Theorem split_constant_speed (param : MotorMovement) (m : positive) (e : Z) :
  well_formed param ->
  get_defining_axis_steps (steps param) > MAX_STEPS_PER_SEGMENT ->
  v0 param = S754_finite false m e -> v1 param = v0 param ->
  F32.valid (v0 param) = true ->
  Forall (fun c =>
            v0 (fst c) = v0 param /\ v1 (fst c) = v0 param /\
            loops_travel (segment_of_call c) = LOOPS_PER_STEP * snd c /\
            loops_accel (segment_of_call c) = 0 /\
            loops_decel (segment_of_call c) = 0 /\
            travel_delay_cycles (segment_of_call c)
            = round2int (F32.div (F32.of_int TIMER_FREQUENCY) (travel_divisor param)))
    (calls_of param).
Proof.
  intros Hwf Hgt E0 E1 Hv.
  assert (0 < get_defining_axis_steps (steps param)) as HD
    by (rewrite MAX_STEPS_PER_SEGMENT_value in Hgt; lia).
  pose proof (split_acceleration_constant param m e HD E0 E1 Hv) as Ha.
  assert (Forall (fun c => v0 (fst c) = S754_finite false m e
                           /\ v1 (fst c) = S754_finite false m e) (calls_of param))
    as Hspeeds.
  { rewrite calls_of_split, Ha by exact Hgt.
    apply split_calls_constant; [now rewrite <- E0|].
    cbn [split_start previous_speed]. rewrite E0.
    apply of_float_widened. now rewrite <- E0. }
  rewrite Forall_forall in *. intros c Hc.
  destruct (Hspeeds c Hc) as [Hc0 Hc1].
  destruct (call_shape param c Hwf Hc) as (Hrange & _).
  destruct (total_loops_value (snd c)
              ltac:(rewrite MAX_STEPS_PER_SEGMENT_value; lia)) as [Eloops _].
  rewrite E0. split; [exact Hc0|]. split; [exact Hc1|].
  unfold segment_of_call, new_element. cbv zeta.
  unfold F32.eqb. rewrite Hc0, Hc1, SFeqb_refl_finite.
  cbn [loops_travel loops_accel loops_decel travel_delay_cycles].
  split; [exact Eloops|]. split; [reflexivity|]. split; [reflexivity|].
  unfold travel_divisor. now rewrite Hc0, E0.
Qed.

(** X12: the splitting path starts at exactly the requested speed: the round trip
    of [v0] through [double] loses nothing. *)
Theorem split_starts_at_requested_speed (param : MotorMovement) :
  get_defining_axis_steps (steps param) > MAX_STEPS_PER_SEGMENT ->
  F32.valid (v0 param) = true ->
  exists c rest, calls_of param = c :: rest /\ v0 (fst c) = v0 param.
Proof.
  intros Hgt Hv.
  pose proof (defining_axis_steps_int (steps param)) as Hint.
  destruct (split_divisions param Hgt) as (Hd & _).
  rewrite calls_of_split by exact Hgt.
  rewrite divisions_of_value by (rewrite ?MAX_STEPS_PER_SEGMENT_value in *; lia).
  destruct (Z.to_nat (get_defining_axis_steps (steps param) ÷ 32767 + 1)) as [|n] eqn:En;
    [lia|].
  cbn [split_calls].
  destruct (split_division (split_increments param) (split_acceleration param)
              (split_start param)) as [[output division_steps] st'] eqn:E.
  exists (output, division_steps), (split_calls n (split_increments param)
                                      (split_acceleration param) st').
  split; [reflexivity|].
  unfold split_division in E. injection E as <- _ _.
  cbn [fst v0 split_start previous_speed]. apply float_double_float, Hv.
Qed.

(** ** The operations table *)

Lemma run_program_app (ops1 ops2 : list Operation) :
  run_program (ops1 ++ ops2) = run_program ops1 ++ run_program ops2.
Proof. unfold run_program. apply flat_map_app. Qed.

Lemma enable_preceded_snoc (trace : list BackendCall) (calls : list BackendCall) :
  enable_preceded_by_drain trace ->
  enable_preceded_by_drain calls ->
  (forall on rest, calls <> CallMotorEnable on :: rest) ->
  enable_preceded_by_drain (trace ++ calls).
Proof.
  intros Ht Hc Hfirst pre on post E.
  apply app_eq_app in E. destruct E as (l & [[Etrace Epost]|[Epre Ecalls]]).
  - destruct l as [|x l].
    + exfalso. rewrite app_nil_l in Epost. eapply Hfirst. symmetry. exact Epost.
    + cbn in Epost. injection Epost as <- Epost.
      apply (Ht pre on l). now rewrite Etrace.
  - destruct (Hc l on post Ecalls) as (pre' & ->).
    exists (trace ++ pre'). rewrite Epre. now rewrite app_assoc.
Qed.

(** X13: whatever sequence of operations is run through the table, the backend
    is never asked to switch the motors without having been asked, directly
    before, to wait until the queue is empty: no segment is queued between
    the drain and the switch. *)
Theorem motor_enable_waits_for_queue (ops : list Operation) :
  enable_preceded_by_drain (run_program ops).
Proof.
  induction ops as [|op ops IH] using rev_ind.
  - intros pre on post E. destruct pre; discriminate E.
  - rewrite run_program_app. cbn [run_program flat_map]. rewrite app_nil_r.
    apply enable_preceded_snoc; [exact IH| |].
    + destruct op as [param err|on|]; cbn [run_operation].
      * intros pre on post E. exfalso.
        assert (In (CallMotorEnable on) (map CallEnqueue (segments_of param))) as Hin
          by (rewrite E; apply in_elt).
        apply in_map_iff in Hin. destruct Hin as (seg & Hseg & _). discriminate Hseg.
      * unfold beagleg_motor_enable. intros pre on' post E.
        destruct pre as [|x [|y pre]]; try discriminate E.
        -- exists []. injection E as <- _. reflexivity.
        -- injection E as _ _ E. destruct pre; discriminate E.
      * unfold beagleg_wait_queue_empty. intros pre on post E.
        destruct pre as [|x pre]; [discriminate E|].
        injection E as _ E. destruct pre; discriminate E.
    + destruct op as [param err|on|]; cbn [run_operation]; intros on' rest E.
      * destruct (segments_of param); discriminate E.
      * discriminate E.
      * discriminate E.
Qed.


(** ** The auxiliary bits and the direction bits of the queued segments *)

Lemma direction_bits_bound (param_steps : list Z) (n : nat) :
  0 <= fold_left (direction_bit_step param_steps) (seq 0 n) 0 < 2 ^ Z.of_nat n.
Proof.
  induction n as [|n IH]; [cbn; lia|].
  rewrite seq_S, fold_left_app. cbn [fold_left Nat.add].
  set (bits := fold_left (direction_bit_step param_steps) (seq 0 n) 0) in *.
  rewrite Nat2Z.inj_succ, Z.pow_succ_r by lia.
  unfold direction_bit_step.
  destruct (nth n param_steps 0 <? 0); [|lia].
  rewrite Z.shiftl_1_l.
  assert (0 <= Z.lor bits (2 ^ Z.of_nat n)) as Hnn
    by (apply Z.lor_nonneg; split; [lia|apply Z.pow_nonneg; lia]).
  split; [exact Hnn|].
  destruct (Z.eq_dec (Z.lor bits (2 ^ Z.of_nat n)) 0) as [E|Hne]; [rewrite E; lia|].
  replace (2 * 2 ^ Z.of_nat n) with (2 ^ (Z.of_nat n + 1))
    by (rewrite Z.pow_add_r by lia; lia).
  apply Z.log2_lt_pow2; [lia|].
  rewrite Z.log2_lor by (try lia; apply Z.pow_nonneg; lia).
  rewrite Z.log2_pow2 by lia.
  destruct (Z.eq_dec bits 0) as [E0|Hb].
  - rewrite E0. cbn [Z.log2]. lia.
  - assert (Z.log2 bits < Z.of_nat n) by (apply Z.log2_lt_pow2; lia). lia.
Qed.

(** X14: the direction bits of every queued segment fit the motor count: no bit
    at or above [MOTION_MOTOR_COUNT] is ever set. *)
Theorem direction_bits_in_range (param : MotorMovement) :
  Forall (fun seg => 0 <= direction_bits seg < 2 ^ Z.of_nat MOTION_MOTOR_COUNT
                     /\ forall j, Z.of_nat MOTION_MOTOR_COUNT <= j ->
                                  Z.testbit (direction_bits seg) j = false)
    (segments_of param).
Proof.
  rewrite segments_of_calls, Forall_map, Forall_forall. intros c _.
  unfold segment_of_call.
  destruct (new_element_common (fst c) (snd c)) as (_ & _ & -> & _).
  pose proof (direction_bits_bound (steps (fst c)) MOTION_MOTOR_COUNT) as B.
  split; [exact B|].
  intros j Hj.
  set (bits := fold_left (direction_bit_step (steps (fst c)))
                 (seq 0 MOTION_MOTOR_COUNT) 0) in *.
  destruct (Z.eq_dec bits 0) as [E|Hne]; [rewrite E; apply Z.testbit_0_l|].
  apply Z.bits_above_log2; [lia|].
  assert (Z.log2 bits < Z.of_nat MOTION_MOTOR_COUNT)
    by (apply Z.log2_lt_pow2; lia).
  lia.
Qed.

(** X15: a request that fits one segment is queued as exactly one segment, which
    carries the request's [aux_bits] and all its loops. *)
Theorem single_segment_request (param : MotorMovement)
    (err_stream : option stream) (w : World) :
  well_formed param ->
  get_defining_axis_steps (steps param) <> 0 ->
  get_defining_axis_steps (steps param) <= MAX_STEPS_PER_SEGMENT ->
  exists seg,
    queue (snd (beagleg_enqueue param err_stream w)) = queue w ++ [seg] /\
    fst (beagleg_enqueue param err_stream w) = 0 /\
    written (snd (beagleg_enqueue param err_stream w)) = written w /\
    aux seg = aux_bits param /\
    state seg = STATE_FILLED /\
    loops_accel seg + loops_travel seg + loops_decel seg
    = LOOPS_PER_STEP * get_defining_axis_steps (steps param).
Proof.
  intros Hwf Hne Hle.
  pose proof (defining_axis_steps_nonneg param Hwf) as Hnn.
  exists (new_element param (get_defining_axis_steps (steps param))).
  destruct (beagleg_enqueue_frame param err_stream w) as (_ & Hq & _).
  destruct (enqueue_accepts param err_stream w Hne) as (Hr & Hw).
  destruct (new_element_common param (get_defining_axis_steps (steps param)))
    as (Hst & Haux & _).
  split.
  { rewrite Hq, segments_of_calls, calls_of_single by assumption. reflexivity. }
  split; [exact Hr|]. split; [exact Hw|]. split; [exact Haux|]. split; [exact Hst|].
  destruct (total_loops_value (get_defining_axis_steps (steps param))
              ltac:(lia)) as (Hl & _).
  unfold new_element.
  destruct (F32.eqb (v0 param) (v1 param));
    [|destruct (F32.ltb (v0 param) (v1 param))];
    cbn [loops_accel loops_travel loops_decel]; rewrite Hl; lia.
Qed.

(** X16: the splitting path never reads the request's [aux_bits]: the segments
    it queues are the same whatever the request asks for, and the [aux] of
    each of them is left indeterminate. *)
Theorem split_ignores_aux_bits (param : MotorMovement) (a : option Z) :
  get_defining_axis_steps (steps param) > MAX_STEPS_PER_SEGMENT ->
  segments_of (with_aux_bits param a) = segments_of param /\
  (2 <= List.length (segments_of param))%nat /\
  Forall (fun seg => aux seg = None) (segments_of param).
Proof.
  intros Hgt.
  pose proof (defining_axis_steps_int (steps param)) as HD.
  split; [|split].
  - rewrite !segments_of_calls.
    rewrite (calls_of_split param Hgt).
    rewrite (calls_of_split (with_aux_bits param a)) by exact Hgt.
    reflexivity.
  - rewrite segments_of_calls, length_map, calls_of_split, split_calls_length
      by exact Hgt.
    rewrite divisions_of_value by lia.
    destruct (split_divisions param Hgt) as (Hd & _). lia.
  - apply aux_of_split_segments, Hgt.
Qed.


(** ** The steps of the divisions together *)

Lemma Zsum_abs_le {A : Type} (f g : A -> Z) (l : list A) :
  (forall c, In c l -> Z.abs (f c) <= g c) ->
  Z.abs (Zsum (map f l)) <= Zsum (map g l).
Proof.
  induction l as [|c l IH]; intros H; cbn [map Zsum fold_right]; [lia|].
  pose proof (H c (or_introl eq_refl)) as Hc.
  assert (Z.abs (Zsum (map f l)) <= Zsum (map g l)) as Hl
    by (apply IH; intros c' Hc'; apply H; right; exact Hc').
  unfold Zsum in *. lia.
Qed.

Lemma Zsum_le_const {A : Type} (g : A -> Z) (l : list A) (b : Z) :
  (forall c, In c l -> g c <= b) ->
  Zsum (map g l) <= Z.of_nat (List.length l) * b.
Proof.
  induction l as [|c l IH]; intros H; cbn [map Zsum fold_right List.length]; [lia|].
  pose proof (H c (or_introl eq_refl)) as Hc.
  assert (Zsum (map g l) <= Z.of_nat (List.length l) * b) as Hl
    by (apply IH; intros c' Hc'; apply H; right; exact Hc').
  unfold Zsum in *. lia.
Qed.

Lemma split_axis_total (param : MotorMovement) (i : nat) :
  well_formed param ->
  get_defining_axis_steps (steps param) > MAX_STEPS_PER_SEGMENT ->
  (i < BEAGLEG_NUM_MOTORS)%nat ->
  Zsum (axis_deltas i (calls_of param)) = nth i (steps param) 0.
Proof.
  intros Hwf Hgt Hi.
  pose proof (defining_axis_steps_int (steps param)) as HD.
  pose proof (divisions_facts (get_defining_axis_steps (steps param))
                ltac:(rewrite MAX_STEPS_PER_SEGMENT_value in Hgt; lia) ltac:(lia)) as F.
  cbv zeta in F.
  rewrite split_axis_deltas by assumption.
  rewrite Zsum_delta_seq, Z2Nat.id by lia.
  rewrite Z.mul_0_l, Z.div_0_l, Z.add_0_l, Z.sub_0_r by lia.
  apply quot_plus_one_total; lia.
Qed.

(** No axis makes more than [defining_axis_steps / divisions + 1] steps in
    one division. *)
Lemma split_delta_size (param : MotorMovement) (i : nat) :
  well_formed param ->
  get_defining_axis_steps (steps param) > MAX_STEPS_PER_SEGMENT ->
  (i < BEAGLEG_NUM_MOTORS)%nat ->
  forall c, In c (calls_of param) ->
    Z.abs (nth i (steps (fst c)) 0)
    <= get_defining_axis_steps (steps param)
       / (get_defining_axis_steps (steps param) ÷ 32767 + 1) + 1.
Proof.
  intros Hwf Hgt Hi.
  destruct (split_divisions param Hgt) as (Hd & HD & Hhalf & _).
  pose proof (defining_axis_steps_bounds_all param i Hwf) as Hs.
  apply (split_calls_delta_prop param i
           (fun delta =>
              Z.abs delta
              <= get_defining_axis_steps (steps param)
                 / (get_defining_axis_steps (steps param) ÷ 32767 + 1) + 1)
           Hwf Hgt Hi).
  intros x.
  set (D := get_defining_axis_steps (steps param)) in *.
  set (d := D ÷ 32767 + 1) in *.
  set (s := nth i (steps param) 0) in *.
  set (h := s * 2 ^ 32 ÷ d + 1).
  pose proof (div_step_two_values x h) as T.
  assert (D < d * (D / d + 1)) as Hq.
  { pose proof (Z.mul_succ_div_gt D d ltac:(lia)). lia. }
  assert (0 <= D / d) as Hq0 by (apply Z.div_pos; lia).
  destruct (Z.le_gt_cases 0 s) as [Hpos|Hneg].
  - pose proof (quot_bounds_nonneg s d ltac:(lia) Hpos) as B.
    assert (0 <= h / 2 ^ 32 <= D / d) as Hh.
    { split.
      - apply Z.div_pos; [|lia]. unfold h. nia.
      - apply Z.lt_succ_r. apply Z.div_lt_upper_bound; [lia|].
        unfold h. nia. }
    lia.
  - pose proof (quot_bounds_neg s d ltac:(lia) ltac:(lia)) as B.
    assert (- (D / d + 1) <= h / 2 ^ 32 <= -1) as Hh.
    { split.
      - apply Z.div_le_lower_bound; [lia|]. unfold h. nia.
      - apply Z.lt_succ_r. apply Z.div_lt_upper_bound; [lia|].
        unfold h. nia. }
    lia.
Qed.

(** X17: the divisions together count at least the steps of the request on its
    defining axis, and at most one step more for each division: where two
    axes round differently a division is as long as its longest axis. *)
Theorem split_total_steps (param : MotorMovement) :
  well_formed param ->
  get_defining_axis_steps (steps param) > MAX_STEPS_PER_SEGMENT ->
  get_defining_axis_steps (steps param)
  <= Zsum (map snd (calls_of param))
  <= get_defining_axis_steps (steps param)
     + (get_defining_axis_steps (steps param) / MAX_STEPS_PER_SEGMENT + 1).
Proof.
  intros Hwf Hgt.
  pose proof (defining_axis_steps_int (steps param)) as HDi.
  destruct (split_divisions param Hgt) as (Hd & HD & Hhalf & Ediv).
  split.
  - destruct (defining_axis_steps_attained (steps param)) as (j & Hj & E).
    rewrite well_formed_abs in E by exact Hwf.
    assert (j < BEAGLEG_NUM_MOTORS)%nat as Hj'.
    { destruct (Nat.lt_ge_cases j BEAGLEG_NUM_MOTORS) as [|Hge]; [assumption|].
      rewrite nth_overflow in E by (destruct Hwf as [-> _]; exact Hge).
      rewrite MAX_STEPS_PER_SEGMENT_value in Hgt. cbn in E. lia. }
    rewrite E, <- (split_axis_total param j Hwf Hgt Hj').
    unfold axis_deltas.
    apply (Zsum_abs_le (fun c => nth j (steps (fst c)) 0) snd).
    intros c Hc.
    destruct (call_shape param c Hwf Hc) as (_ & _ & Hall & _).
    apply Hall, Hj'.
  - rewrite <- Ediv.
    set (D := get_defining_axis_steps (steps param)) in *.
    set (d := D ÷ 32767 + 1) in *.
    assert (forall c, In c (calls_of param) -> snd c <= D / d + 1) as Hb.
    { intros c Hc.
      destruct (call_shape param c Hwf Hc) as (_ & _ & _ & (j & Hj & <-) & _).
      apply (split_delta_size param j Hwf Hgt Hj c Hc). }
    pose proof (Zsum_le_const snd (calls_of param) (D / d + 1) Hb) as Hsum.
    assert (Z.of_nat (List.length (calls_of param)) = d) as Elen.
    { rewrite calls_of_split, split_calls_length, divisions_of_value
        by (try exact Hgt; fold D; lia).
      fold D d. apply Z2Nat.id. lia. }
    rewrite Elen in Hsum.
    pose proof (Z.mul_div_le D d ltac:(lia)). lia.
Qed.


(** ** A ramp from standstill *)

Lemma mul_two_number (s : bool) (m : positive) (e : Z) :
  F32.valid (S754_finite s m e) = true ->
  match F32.mul (F32.of_int 2) (S754_finite s m e) with
  | S754_finite _ _ _ | S754_infinity _ => True
  | _ => False
  end.
Proof.
  intros Hv.
  change (F32.of_int 2) with (S754_finite false 8388608 (-22)).
  unfold F32.valid, valid_binary, bounded, canonical_mantissa in Hv.
  apply andb_prop in Hv. destruct Hv as [Hc He].
  apply Z.eqb_eq in Hc. apply Z.leb_le in He.
  unfold fexp, emin, F32.prec, F32.emax in Hc, He.
  assert (1 <= Z.pos (digits2_pos m)) as Hdm by lia.
  unfold F32.mul, SFmul, binary_round_aux, shr_fexp.
  cbn [Pos.mul xorb Zdigits2 digits2_pos].
  rewrite !Pos2Z.inj_succ.
  unfold fexp, emin, F32.prec, F32.emax.
  set (dm := Z.pos (digits2_pos m)) in *.
  destruct (Z.le_gt_cases (-149) (dm + e - 24)) as [Hn|Hsub].
  - match goal with
    | |- context [shr ?r ?x ?n] => replace n with 23 by lia
    end.
    cbn [shr iter_pos shr_1 shr_record_of_loc orb shr_m loc_of_shr_record
           round_nearest_even Zdigits2].
    fold dm.
    match goal with
    | |- context [shr ?r ?x ?n] => replace n with 0 by lia
    end.
    cbn [shr shr_m]. destruct (_ <=? _); exact I.
  - match goal with
    | |- context [shr ?r ?x ?n] => replace n with 22 by lia
    end.
    cbn [shr iter_pos shr_1 shr_record_of_loc orb shr_m loc_of_shr_record
           round_nearest_even Zdigits2 digits2_pos].
    rewrite Pos2Z.inj_succ. fold dm.
    match goal with
    | |- context [shr ?r ?x ?n] => replace n with 0 by lia
    end.
    cbn [shr shr_m]. destruct (_ <=? _); exact I.
Qed.

Lemma ramp_seed_from_rest (param : MotorMovement) (acceleration : spec_float) :
  is_zero (v0 param) = true ->
  F32.valid acceleration = true ->
  acceleration <> S754_nan ->
  (is_zero acceleration = false ->
   ramp_seed param acceleration
   = (Some 0,
      round2int
        (F32.mul (F32.of_int (Z.shiftl 1 DELAY_CYCLE_SHIFT))
           (calcAccelerationCurveValueAt 0 acceleration)))) /\
  (is_zero acceleration = true -> ramp_seed param acceleration = (None, None)).
Proof.
  intros Hz Hv Hnan. unfold ramp_seed.
  assert (sq (F32.sub (v0 param) (F32.of_int 0)) = S754_zero false) as ->.
  { destruct (v0 param) as [[|]| | |]; try discriminate; reflexivity. }
  destruct acceleration as [s|s| |s m e]; cbn [is_zero].
  - split; [discriminate|]. intros _. destruct s; reflexivity.
  - split; [|discriminate]. intros _. destruct s; reflexivity.
  - contradiction.
  - split; [|discriminate]. intros _.
    pose proof (mul_two_number s m e Hv) as Hm.
    destruct (F32.mul (F32.of_int 2) (S754_finite s m e)) as [s'|s'| |s' m' e'];
      try contradiction; destruct s'; reflexivity.
Qed.

(** X18: an acceleration from standstill puts all loops in [loops_accel]
    and starts the series of delays at index 0 exactly when the
    [acceleration] computed for it is not zero; when it is zero, the speed
    being too small for its square, the index and the first delay are the
    conversion of a NaN.  Nothing is said of [hires_accel_cycles] for an
    acceleration that is not zero: its conversion is undefined as soon as
    the first delay exceeds the range of [int]. *)
Theorem ramp_from_rest (param : MotorMovement) (defining_axis_steps : Z) :
  is_zero (v0 param) = true ->
  F32.ltb (v0 param) (v1 param) = true ->
  F32.valid (ramp_acceleration param defining_axis_steps) = true ->
  ramp_acceleration param defining_axis_steps <> S754_nan ->
  let seg := new_element param defining_axis_steps in
  loops_accel seg = store_loops (int32 (LOOPS_PER_STEP * defining_axis_steps)) /\
  loops_travel seg = 0 /\ loops_decel seg = 0 /\
  (accel_series_index seg = Some 0
   <-> is_zero (ramp_acceleration param defining_axis_steps) = false) /\
  (is_zero (ramp_acceleration param defining_axis_steps) = true ->
   accel_series_index seg = None /\ hires_accel_cycles seg = None).
Proof.
  intros Hz Hlt Hv Hnan seg.
  destruct (ramp_seed_from_rest param _ Hz Hv Hnan) as [Hsome Hnone].
  assert (F32.eqb (v0 param) (v1 param) = false) as Heq.
  { unfold F32.ltb, SFltb in Hlt. unfold F32.eqb, SFeqb.
    destruct (SFcompare (v0 param) (v1 param)) as [[| |]|]; congruence. }
  unfold seg, new_element. rewrite Heq, Hlt.
  cbn [loops_accel loops_travel loops_decel accel_series_index hires_accel_cycles].
  fold (ramp_acceleration param defining_axis_steps).
  split; [reflexivity|]. split; [reflexivity|]. split; [reflexivity|].
  split; [split|].
  - intros Hi.
    destruct (is_zero (ramp_acceleration param defining_axis_steps)) eqn:E;
      [|reflexivity].
    rewrite (Hnone eq_refl) in Hi. discriminate.
  - intros E. rewrite (Hsome E). reflexivity.
  - intros E. rewrite (Hnone E). split; reflexivity.
Qed.


(** ** The delay of a travel segment *)












End MotorOperations.

(** * The line reader of the configuration file *)

Section ConfigLines.

Variable SIZE_MAX : Z.

Import StringPiece ConfigParser.

Lemma before_length (stop : ascii -> bool) (l : list ascii) :
  (List.length (before stop l) <= List.length l)%nat.
Proof.
  induction l as [|c l IH]; cbn; [lia|]. destruct (stop c); cbn; lia.
Qed.

Lemma before_length_lt (stop : ascii -> bool) (l : list ascii) :
  existsb stop l = true -> (List.length (before stop l) < List.length l)%nat.
Proof.
  induction l as [|c l IH]; cbn; [discriminate|].
  destruct (stop c); cbn; [lia|]. intros H. specialize (IH H). lia.
Qed.

Lemma firstn_before (stop : ascii -> bool) (l : list ascii) :
  firstn (List.length (before stop l)) l = before stop l.
Proof.
  induction l as [|c l IH]; cbn; [reflexivity|].
  destruct (stop c); cbn; [reflexivity|]. now rewrite IH.
Qed.

Lemma skipn_after (stop : ascii -> bool) (l : list ascii) :
  existsb stop l = true -> skipn (S (List.length (before stop l))) l = after stop l.
Proof.
  induction l as [|c l IH]; cbn [existsb before after]; [discriminate|].
  destruct (stop c); cbn [orb List.length]; [reflexivity|].
  intros H. change (skipn (S (List.length (before stop l))) l = after stop l).
  apply IH, H.
Qed.

Lemma after_none (stop : ascii -> bool) (l : list ascii) :
  existsb stop l = false -> after stop l = [].
Proof.
  induction l as [|c l IH]; cbn; [reflexivity|].
  destruct (stop c); cbn; [discriminate|exact IH].
Qed.

Lemma before_stops (stop : ascii -> bool) (l : list ascii) :
  Forall (fun c => stop c = false) (before stop l).
Proof.
  induction l as [|c l IH]; cbn; [constructor|].
  destruct (stop c) eqn:E; constructor; assumption.
Qed.

Lemma split_at_stop (stop : ascii -> bool) (l : list ascii) :
  existsb stop l = true ->
  exists c, stop c = true /\ l = before stop l ++ c :: after stop l.
Proof.
  induction l as [|c l IH]; cbn; [discriminate|].
  destruct (stop c) eqn:E; cbn.
  - intros _. exists c. split; [exact E|reflexivity].
  - intros H. destruct (IH H) as (c' & Hc' & Hl). exists c'.
    split; [exact Hc'|]. now rewrite <- Hl.
Qed.

Lemma newline_ends_line (c : ascii) : is_newline c = true -> ends_line c = true.
Proof.
  unfold is_newline, ends_line. intros ->. now rewrite !orb_true_r.
Qed.

Lemma ends_line_before_newline (l : list ascii) :
  (List.length (before ends_line l) <= List.length (before is_newline l))%nat.
Proof.
  induction l as [|c l IH]; cbn; [lia|].
  destruct (is_newline c) eqn:E.
  - rewrite (newline_ends_line c E). cbn. lia.
  - destruct (ends_line c); cbn; lia.
Qed.

(** What the loop of [NextLine] computes on the characters [todo] that lie
    between [endline] and the end of the source. *)
Lemma NextLine_loop_value (mem : list ascii) (source : StringPiece.t) (start : Z)
    (todo : list ascii) :
  forall (endline : Z) (result : StringPiece.t),
  (forall k c, nth_error todo k = Some c ->
               read mem (endline + Z.of_nat k) = Some c) ->
  NextLine_loop SIZE_MAX mem source start (List.length todo) endline result
  = Some
      (if existsb is_newline todo
       then (match data result with
             | None =>
                 assign (Some start)
                   (size_t SIZE_MAX
                      (endline + Z.of_nat (List.length (before ends_line todo)) - start))
             | Some _ => result
             end,
             assign (Some (endline + Z.of_nat (List.length (before is_newline todo)) + 1))
               (size_t SIZE_MAX
                  (length source
                   - (endline + Z.of_nat (List.length (before is_newline todo)) - start)
                   - 1)))
       else (assign (Some start)
               (size_t SIZE_MAX (endline + Z.of_nat (List.length todo) - start)),
             assign (end_ source) 0)).
Proof.
  induction todo as [|c todo IH]; intros endline result Hread.
  - cbn [List.length NextLine_loop existsb]. rewrite Z.add_0_r. reflexivity.
  - cbn [List.length NextLine_loop].
    pose proof (Hread 0%nat c eq_refl) as H0. rewrite Z.add_0_r in H0. rewrite H0.
    cbn [existsb before].
    destruct (is_newline c) eqn:Enl.
    + rewrite (newline_ends_line c Enl). cbn [orb List.length].
      rewrite !Z.add_0_r. destruct (data result); reflexivity.
    + cbn [orb]. rewrite IH.
      2:{ intros k c' Hk. replace (endline + 1 + Z.of_nat k)
            with (endline + Z.of_nat (S k)) by lia. apply Hread. exact Hk. }
      destruct (existsb is_newline todo).
      * f_equal. f_equal.
        -- destruct (data result) eqn:Ed; [rewrite Ed; reflexivity|].
           destruct (ends_line c); cbn [data data_ assign List.length].
           ++ rewrite Z.add_0_r. reflexivity.
           ++ rewrite Ed. f_equal. f_equal. lia.
        -- cbn [List.length]. f_equal; [f_equal; lia|f_equal; lia].
      * f_equal. f_equal. f_equal. f_equal. lia.
Qed.

Lemma ToString_length (mem : list ascii) (s : StringPiece.t) :
  inside SIZE_MAX mem s -> List.length (ToString mem s) = Z.to_nat (len_ s).
Proof.
  unfold inside, ToString. destruct (data_ s) as [p|].
  - intros (Hp & Hl & Hm). rewrite length_firstn, length_skipn. lia.
  - intros ->. reflexivity.
Qed.

Lemma ToString_read (mem : list ascii) (s : StringPiece.t) (p : Z) :
  inside SIZE_MAX mem s -> data_ s = Some p ->
  forall k c, nth_error (ToString mem s) k = Some c ->
              read mem (p + Z.of_nat k) = Some c.
Proof.
  unfold inside, ToString. intros Hin Hd. rewrite Hd in *.
  destruct Hin as (Hp & Hl & Hm). intros k c Hk.
  rewrite nth_error_firstn in Hk.
  destruct (k <? Z.to_nat (len_ s))%nat; [|discriminate].
  rewrite nth_error_skipn in Hk.
  unfold read. destruct (p + Z.of_nat k <? 0) eqn:E; [apply Z.ltb_lt in E; lia|].
  replace (Z.to_nat (p + Z.of_nat k)) with (Z.to_nat p + k)%nat by lia. exact Hk.
Qed.

Lemma ToString_prefix (mem : list ascii) (s : StringPiece.t) (p : Z) (n : nat) :
  data_ s = Some p -> (n <= Z.to_nat (len_ s))%nat ->
  ToString mem (assign (Some p) (Z.of_nat n)) = firstn n (ToString mem s).
Proof.
  intros Hd Hn. unfold ToString. rewrite Hd. cbn [assign data_ len_].
  rewrite Nat2Z.id, firstn_firstn. f_equal. lia.
Qed.

Lemma ToString_suffix (mem : list ascii) (s : StringPiece.t) (p : Z) (n : nat) :
  data_ s = Some p -> 0 <= p -> (n <= Z.to_nat (len_ s))%nat ->
  ToString mem (assign (Some (p + Z.of_nat n)) (len_ s - Z.of_nat n))
  = skipn n (ToString mem s).
Proof.
  intros Hd Hp Hn. unfold ToString. rewrite Hd. cbn [assign data_ len_].
  rewrite skipn_firstn_comm, skipn_skipn. f_equal; [lia|f_equal; lia].
Qed.

(** All that a call of [NextLine] on a non-empty source inside the buffer
    does. *)
Lemma NextLine_value (mem : list ascii) (source : StringPiece.t) (p : Z) :
  inside SIZE_MAX mem source -> data_ source = Some p -> len_ source <> 0 ->
  exists result rest q,
    NextLine SIZE_MAX mem source = Some (result, rest) /\
    data_ result = Some p /\
    0 <= len_ result <= len_ source /\
    data_ rest = Some q /\
    q + len_ rest = p + len_ source /\
    0 <= len_ rest < len_ source /\
    inside SIZE_MAX mem rest /\
    ToString mem result
    = (if existsb is_newline (ToString mem source)
       then before ends_line (ToString mem source)
       else ToString mem source) /\
    ToString mem rest = after is_newline (ToString mem source).
Proof.
  intros Hin Hd Hne.
  pose proof (ToString_length mem source Hin) as Hlen.
  pose proof (ToString_read mem source p Hin Hd) as Hread.
  pose proof Hin as Hin'. unfold inside in Hin'. rewrite Hd in Hin'.
  destruct Hin' as (Hp & Hl & Hm).
  unfold NextLine, length, begin. rewrite Hd.
  destruct (len_ source =? 0) eqn:E0; [apply Z.eqb_eq in E0; contradiction|].
  rewrite <- Hlen.
  rewrite (NextLine_loop_value mem source p (ToString mem source) p null Hread).
  set (text := ToString mem source) in *.
  pose proof (before_length ends_line text) as Bj.
  pose proof (ends_line_before_newline text) as Bjk.
  destruct (existsb is_newline text) eqn:Enl.
  - pose proof (before_length_lt is_newline text Enl) as Bk.
    set (j := List.length (before ends_line text)) in *.
    set (k := List.length (before is_newline text)) in *.
    cbn [data null data_].
    replace (size_t SIZE_MAX (p + Z.of_nat j - p)) with (Z.of_nat j)
      by (unfold size_t; rewrite Z.mod_small; lia).
    replace (size_t SIZE_MAX (length source - (p + Z.of_nat k - p) - 1))
      with (len_ source - Z.of_nat (S k))
      by (unfold size_t, length; rewrite Z.mod_small; lia).
    replace (p + Z.of_nat k + 1) with (p + Z.of_nat (S k)) by lia.
    eexists _, _, _. split; [reflexivity|].
    cbn [assign data_ len_].
    split; [reflexivity|]. split; [lia|]. split; [reflexivity|].
    split; [lia|]. split; [lia|]. split; [unfold inside; cbn [assign data_ len_]; lia|].
    split.
    + rewrite (ToString_prefix mem source p j Hd) by lia.
      fold text. apply firstn_before.
    + rewrite (ToString_suffix mem source p (S k) Hd Hp) by lia.
      fold text. apply skipn_after, Enl.
  - replace (size_t SIZE_MAX (p + Z.of_nat (List.length text) - p)) with (len_ source)
      by (unfold size_t; rewrite Z.mod_small; lia).
    unfold end_, ptr_add. rewrite Hd. cbn [option_map].
    eexists _, _, _. split; [reflexivity|].
    cbn [assign data_ len_].
    split; [reflexivity|]. split; [lia|]. split; [reflexivity|].
    split; [lia|]. split; [lia|]. split; [unfold inside; cbn [assign data_ len_]; lia|].
    split.
    + unfold text, ToString, assign. rewrite Hd. reflexivity.
    + rewrite after_none by exact Enl. unfold ToString. cbn [data_ len_].
      reflexivity.
Qed.

Lemma filter_newline_after (l : list ascii) :
  existsb is_newline l = true ->
  List.length (filter is_newline l)
  = S (List.length (filter is_newline (after is_newline l))).
Proof.
  induction l as [|c l IH]; cbn; [discriminate|].
  destruct (is_newline c); cbn; [reflexivity|exact IH].
Qed.

Lemma filter_newline_none (l : list ascii) :
  existsb is_newline l = false -> filter is_newline l = [].
Proof.
  induction l as [|c l IH]; cbn; [reflexivity|].
  destruct (is_newline c); cbn; [discriminate|exact IH].
Qed.

Lemma open_line_after (l : list ascii) :
  existsb is_newline l = true -> open_line l = open_line (after is_newline l).
Proof.
  intros H. destruct (split_at_stop is_newline l H) as (c & Hc & Hl).
  unfold open_line. rewrite Hl at 1.
  rewrite rev_app_distr. cbn [rev]. rewrite <- app_assoc. cbn [app].
  destruct (rev (after is_newline l)) as [|x r]; cbn [app].
  - rewrite Hc. reflexivity.
  - reflexivity.
Qed.

Lemma open_line_none (l : list ascii) :
  l <> [] -> existsb is_newline l = false -> open_line l = true.
Proof.
  intros Hne H. unfold open_line.
  destruct (rev l) as [|c r] eqn:E.
  - apply (f_equal (@rev ascii)) in E. rewrite rev_involutive in E. contradiction.
  - assert (In c l) as Hc by (apply in_rev; rewrite E; left; reflexivity).
    destruct (is_newline c) eqn:Ec; [|reflexivity].
    assert (existsb is_newline l = true) by (apply existsb_exists; eauto).
    congruence.
Qed.

Lemma no_newline_in_line (l : list ascii) :
  Forall (fun c => is_newline c = false)
    (if existsb is_newline l then before ends_line l else l).
Proof.
  destruct (existsb is_newline l) eqn:E.
  - eapply Forall_impl; [|apply before_stops].
    intros c Hc. cbv beta in Hc. destruct (is_newline c) eqn:Ec; [|reflexivity].
    rewrite (newline_ends_line c Ec) in Hc. discriminate.
  - rewrite Forall_forall. intros c Hc.
    destruct (is_newline c) eqn:Ec; [|reflexivity].
    assert (existsb is_newline l = true) by (apply existsb_exists; eauto).
    congruence.
Qed.

Lemma content_lines_value (mem : list ascii) (n : nat) :
  forall content_data,
  inside SIZE_MAX mem content_data ->
  (Z.to_nat (len_ content_data) <= n)%nat ->
  exists lines,
    content_lines SIZE_MAX mem (S n) content_data = Some lines /\
    List.length lines = line_count (ToString mem content_data) /\
    Forall (fun line =>
              data_ line <> None /\
              Forall (fun c => is_newline c = false) (ToString mem line))
      lines.
Proof.
  assert (forall m content_data,
             inside SIZE_MAX mem content_data -> len_ content_data = 0 ->
             exists lines,
               content_lines SIZE_MAX mem (S m) content_data = Some lines /\
               List.length lines = line_count (ToString mem content_data) /\
               Forall (fun line =>
                         data_ line <> None /\
                         Forall (fun c => is_newline c = false) (ToString mem line))
                 lines) as Hempty.
  { intros m content_data Hin E0.
    pose proof (ToString_length mem content_data Hin) as Hlen.
    exists []. cbn [content_lines]. unfold NextLine, length. rewrite E0.
    cbn [Z.eqb null data data_].
    split; [reflexivity|]. split; [|constructor].
    rewrite E0 in Hlen. destruct (ToString mem content_data); [reflexivity|].
    cbn in Hlen. lia. }
  induction n as [|n IH]; intros content_data Hin Hn.
  - apply Hempty; [exact Hin|].
    unfold inside in Hin. destruct (data_ content_data); lia.
  - destruct (Z.eq_dec (len_ content_data) 0) as [E0|Hne].
    + apply Hempty; assumption.
    + destruct (data_ content_data) as [p|] eqn:Hd.
      2:{ unfold inside in Hin. rewrite Hd in Hin. contradiction. }
      destruct (NextLine_value mem content_data p Hin Hd Hne)
        as (result & rest & q & HN & Hr & Hrl & Hq & Hsum & Hlt & Hrest & Tr & Ts).
      destruct (IH rest Hrest ltac:(lia)) as (lines & Hl & Hcount & Hall).
      exists (result :: lines).
      change (content_lines SIZE_MAX mem (S (S n)) content_data)
        with (match NextLine SIZE_MAX mem content_data with
              | None => None
              | Some (line, content_data') =>
                  match data line with
                  | None => Some []
                  | Some _ =>
                      option_map (cons line)
                        (content_lines SIZE_MAX mem (S n) content_data')
                  end
              end).
      rewrite HN. unfold data. rewrite Hr, Hl. cbn [option_map].
      split; [reflexivity|]. split.
      * cbn [List.length]. rewrite Hcount, Ts. unfold line_count.
        pose proof (ToString_length mem content_data Hin) as Hlen.
        destruct (existsb is_newline (ToString mem content_data)) eqn:Enl.
        -- rewrite (filter_newline_after _ Enl), (open_line_after _ Enl). lia.
        -- rewrite (after_none _ _ Enl), (filter_newline_none _ Enl).
           rewrite (open_line_none (ToString mem content_data)); [reflexivity| |exact Enl].
           intros E. rewrite E in Hlen. cbn in Hlen. lia.
      * constructor; [|exact Hall].
        split; [rewrite Hr; discriminate|].
        rewrite Tr. apply no_newline_in_line.
Qed.

(** X19: [NextLine] on a source that is not empty returns a piece that is not
    [NULL], starting where the source started, and leaves a strictly shorter
    source that ends where the source ended: the loop of [EmitConfigValues]
    sees every character once and comes to an end. *)
Theorem NextLine_advances (mem : list ascii) (source : StringPiece.t) (p : Z) :
  inside SIZE_MAX mem source -> data_ source = Some p -> len_ source <> 0 ->
  exists result rest q,
    NextLine SIZE_MAX mem source = Some (result, rest) /\
    data_ result = Some p /\
    0 <= len_ result <= len_ source /\
    data_ rest = Some q /\
    q + len_ rest = p + len_ source /\
    0 <= len_ rest < len_ source /\
    inside SIZE_MAX mem rest.
Proof.
  intros Hin Hd Hne.
  destruct (NextLine_value mem source p Hin Hd Hne)
    as (result & rest & q & HN & Hr & Hrl & Hq & Hsum & Hlt & Hrest & _).
  exists result, rest, q. repeat split; try assumption; lia.
Qed.

(** X20: the line [NextLine] returns: when the source holds a newline, the
    characters before the first ['#'], ['\r'] or ['\n'], and the source
    goes on after that newline; when it holds none, all of the source, a
    comment included, and nothing is left. *)
Theorem NextLine_line (mem : list ascii) (source : StringPiece.t) (p : Z) :
  inside SIZE_MAX mem source -> data_ source = Some p -> len_ source <> 0 ->
  exists result rest,
    NextLine SIZE_MAX mem source = Some (result, rest) /\
    ToString mem result
    = (if existsb is_newline (ToString mem source)
       then before ends_line (ToString mem source)
       else ToString mem source) /\
    ToString mem rest = after is_newline (ToString mem source) /\
    (existsb is_newline (ToString mem source) = true ->
     Forall (fun c => ends_line c = false) (ToString mem result)).
Proof.
  intros Hin Hd Hne.
  destruct (NextLine_value mem source p Hin Hd Hne)
    as (result & rest & q & HN & _ & _ & _ & _ & _ & _ & Tr & Ts).
  exists result, rest. split; [exact HN|]. split; [exact Tr|]. split; [exact Ts|].
  intros E. rewrite Tr, E. apply before_stops.
Qed.

(** X21: the loop over the lines of a content comes to an end within one call
    of [NextLine] per character and one more, reads nothing outside the
    content, and goes through one line for each newline and one for an
    unfinished last line; no line holds a newline. *)
Theorem content_lines_counted (mem : list ascii) (content_data : StringPiece.t) :
  inside SIZE_MAX mem content_data ->
  exists lines,
    content_lines SIZE_MAX mem (S (Z.to_nat (len_ content_data))) content_data
    = Some lines /\
    List.length lines = line_count (ToString mem content_data) /\
    Forall (fun line =>
              data_ line <> None /\
              Forall (fun c => is_newline c = false) (ToString mem line))
      lines.
Proof.
  intros Hin. apply content_lines_value; [exact Hin|lia].
Qed.

(** X22: [substr(pos, len)] inside the piece is the piece of these characters;
    reaching behind the end of the piece fails the assertion. *)
Theorem substr_in_range (mem : list ascii) (s : StringPiece.t) (pos len : Z) :
  inside SIZE_MAX mem s -> data_ s <> None ->
  0 <= pos -> 0 <= len -> pos + len <= SIZE_MAX ->
  (pos + len <= len_ s ->
   exists r, substr SIZE_MAX s pos len = Some r /\
             inside SIZE_MAX mem r /\
             ToString mem r
             = firstn (Z.to_nat len) (skipn (Z.to_nat pos) (ToString mem s))) /\
  (len_ s < pos + len -> substr SIZE_MAX s pos len = None).
Proof.
  intros Hin Hd Hpos Hlen Hmax.
  destruct (data_ s) as [p|] eqn:Ed; [clear Hd|contradiction].
  unfold inside in Hin. rewrite Ed in Hin. destruct Hin as (Hp & Hl & Hm).
  unfold substr, size_t. rewrite Z.mod_small by lia.
  split.
  - intros Hle. destruct (pos + len <=? len_ s) eqn:E; [|apply Z.leb_gt in E; lia].
    eexists. split; [reflexivity|].
    unfold inside, ToString, ptr_add. rewrite Ed. cbn [option_map data_ len_].
    split; [lia|].
    rewrite skipn_firstn_comm, skipn_skipn, firstn_firstn.
    f_equal; [lia|f_equal; lia].
  - intros Hgt. destruct (pos + len <=? len_ s) eqn:E; [apply Z.leb_le in E; lia|].
    reflexivity.
Qed.

(** X23: [substr(pos)] never fails its assertion: the length it passes on is
    computed in [size_t], so for a [pos] behind the end of the piece the
    sum wraps to the length of the piece, and the piece returned reaches
    behind the end. *)
Theorem substr_from_unchecked (s : StringPiece.t) (pos : Z) :
  0 <= len_ s <= SIZE_MAX -> 0 <= pos <= SIZE_MAX ->
  exists r,
    substr_from SIZE_MAX s pos = Some r /\
    data_ r = ptr_add (data_ s) pos /\
    len_ r = (if pos <=? len_ s then len_ s - pos
              else SIZE_MAX + 1 - (pos - len_ s)) /\
    (len_ s < pos -> len_ s < pos + len_ r).
Proof.
  intros Hl Hpos.
  unfold substr_from, substr, size_t, length.
  rewrite Zplus_mod_idemp_r.
  replace (pos + (len_ s - pos)) with (len_ s) by lia.
  rewrite (Z.mod_small (len_ s)) by lia.
  rewrite Z.leb_refl.
  eexists. split; [reflexivity|]. cbn [data_ len_].
  split; [reflexivity|].
  assert ((len_ s - pos) mod (SIZE_MAX + 1)
          = if pos <=? len_ s then len_ s - pos
            else SIZE_MAX + 1 - (pos - len_ s)) as E.
  { destruct (pos <=? len_ s) eqn:E.
    - apply Z.leb_le in E. apply Z.mod_small. lia.
    - apply Z.leb_gt in E.
      rewrite <- (Z_mod_plus_full (len_ s - pos) 1 (SIZE_MAX + 1)).
      rewrite Z.mod_small; lia. }
  split; [exact E|].
  intros Hgt. rewrite E.
  destruct (pos <=? len_ s) eqn:E'; [apply Z.leb_le in E'; lia|]. lia.
Qed.

End ConfigLines.

(** ** Concrete requests *)

(** A three-motor instance with a 200 MHz timer, used to run the model. *)
Module Bench.

Definition TIMER_FREQUENCY : Z := 200000000.
Definition DELAY_CYCLE_SHIFT : Z := 5.
Definition STATE_FILLED : Z := 1.
Definition BEAGLEG_NUM_MOTORS : nat := 3.

Definition request (speed0 speed1 : Z) (aux_bits : Z) (steps : list Z) : MotorMovement :=
  {| v0 := F32.of_int speed0;
     v1 := F32.of_int speed1;
     aux_bits := Some aux_bits;
     steps := steps |}.

Definition calls (param : MotorMovement) : list (MotorMovement * Z) :=
  calls_of TIMER_FREQUENCY DELAY_CYCLE_SHIFT STATE_FILLED BEAGLEG_NUM_MOTORS
    hardware_frequency_limit_after_init param.

Definition segments (param : MotorMovement) : list MotionSegment :=
  segments_of TIMER_FREQUENCY DELAY_CYCLE_SHIFT STATE_FILLED BEAGLEG_NUM_MOTORS
    hardware_frequency_limit_after_init param.

Definition enqueue (param : MotorMovement) : Z * World :=
  beagleg_enqueue TIMER_FREQUENCY DELAY_CYCLE_SHIFT STATE_FILLED BEAGLEG_NUM_MOTORS
    hardware_frequency_limit_after_init param None empty_world.

Definition synthesize (param : MotorMovement) (defining_axis_steps : Z) : MotionSegment :=
  new_element TIMER_FREQUENCY DELAY_CYCLE_SHIFT STATE_FILLED BEAGLEG_NUM_MOTORS
    hardware_frequency_limit_after_init param defining_axis_steps.

Definition long_move : MotorMovement := request 100 100 0 [100000; -50000; 0].
Definition stop_move : MotorMovement := request 500 0 0 [100000; -1; -40000].
Definition short_move : MotorMovement := request 100 100 5 [1000; -500; 0].
Definition null_move : MotorMovement := request 100 100 0 [0; 0; 0].
Definition slow_stop : MotorMovement := request 1 0 0 [32768; 0; 0].
Definition unit_move : MotorMovement := request 100 100 0 [1; 0; 0].
Definition reverse_one : MotorMovement := request 100 100 0 [40000; -1; 0].
Definition standstill : MotorMovement := request 0 0 0 [1; 0; 0].
Definition aux_move : MotorMovement := request 100 100 1 [40000; 0; 0].
Definition opposed_move : MotorMovement := request 100 100 0 [-185631; 185631; 0].
Definition start_move : MotorMovement := request 0 1000 0 [1000; 500; 0].
Definition gentle_start : MotorMovement := request 0 100 0 [10000; 0; 0].
(** From standstill to the smallest positive [float]. *)
Definition creeping_move : MotorMovement :=
  {| v0 := F32.of_int 0; v1 := S754_finite false 1 (-149);
     aux_bits := Some 0; steps := [1000; 500; 0] |}.

End Bench.

(** ** A concrete configuration text *)

Module Sample.

(** A platform with a [size_t] of 32 bits. *)
Definition SIZE_MAX : Z := 2 ^ 32 - 1.

Definition line_feed : string := String ConfigParser.newline EmptyString.

(** A section line, a line with a comment and a last line, with a comment,
    that no newline ends. *)
Definition content : list ascii :=
  list_ascii_of_string
    ("[s]" ++ line_feed ++ "a=1 # c" ++ line_feed ++ "b=2 # d")%string.

Definition content_data : StringPiece.t :=
  StringPiece.assign (Some 0) (Z.of_nat (List.length content)).

End Sample.

Ltac well_formed_by_computation :=
  split; [reflexivity|repeat constructor; discriminate].

Example travel_1000_steps :
  Bench.segments (Bench.request 100 100 5 [1000; -500; 0])
  = [{| state := 1; direction_bits := 2;
        loops_accel := 0; loops_travel := 2000; loops_decel := 0;
        aux := Some 5; accel_series_index := None; hires_accel_cycles := None;
        travel_delay_cycles := Some 1000000;
        fractions := [2147483647; 1073741823; 0] |}].
Proof. vm_compute. reflexivity. Qed.

Example accelerate_from_rest :
  Bench.segments (Bench.request 0 1000 0 [1000; 500; 0])
  = [{| state := 1; direction_bits := 0;
        loops_accel := 2000; loops_travel := 0; loops_decel := 0;
        aux := Some 0; accel_series_index := Some 0;
        hires_accel_cycles := Some 193496800;
        travel_delay_cycles := Some 0;
        fractions := [2147483647; 1073741823; 0] |}].
Proof. vm_compute. reflexivity. Qed.

Example split_100000_steps :
  map (fun c => (steps (fst c), snd c))
    (Bench.calls (Bench.request 100 100 0 [100000; -1; -40000]))
  = [([25000; -1; -10000], 25000); ([25000; 0; -10000], 25000);
     ([25000; 0; -10000], 25000); ([25000; 0; -10000], 25000)].
Proof. vm_compute. reflexivity. Qed.

Example clipped_travel_delay :
  travel_delay_cycles (Bench.synthesize (Bench.request 2000000 2000000 0 [1000; 0; 0]) 1000)
  = Some 100.
Proof. vm_compute. reflexivity. Qed.

Example zero_request_rejected :
  Bench.enqueue (Bench.request 100 100 0 [0; 0; 0])
  = (1, {| queue := []; written := [(Stderr, zero_steps_message)];
           synthesizer_calls := [] |}).
Proof. vm_compute. reflexivity. Qed.

(** ** The theorems at concrete requests *)

Lemma split_conserves_steps_witness :
  well_formed Bench.BEAGLEG_NUM_MOTORS Bench.long_move /\
  get_defining_axis_steps Bench.BEAGLEG_NUM_MOTORS (steps Bench.long_move)
  > MAX_STEPS_PER_SEGMENT /\
  (1 < Bench.BEAGLEG_NUM_MOTORS)%nat /\
  Z.of_nat (List.length (Bench.calls Bench.long_move))
  = get_defining_axis_steps Bench.BEAGLEG_NUM_MOTORS (steps Bench.long_move)
    / MAX_STEPS_PER_SEGMENT + 1 /\
  Zsum (axis_deltas 1 (Bench.calls Bench.long_move)) = nth 1 (steps Bench.long_move) 0.
Proof.
  assert (well_formed Bench.BEAGLEG_NUM_MOTORS Bench.long_move) as Hwf
    by well_formed_by_computation.
  assert (get_defining_axis_steps Bench.BEAGLEG_NUM_MOTORS (steps Bench.long_move)
          > MAX_STEPS_PER_SEGMENT) as Hgt by (vm_compute; reflexivity).
  assert (1 < Bench.BEAGLEG_NUM_MOTORS)%nat as Hi by (unfold Bench.BEAGLEG_NUM_MOTORS; lia).
  split; [exact Hwf|]. split; [exact Hgt|]. split; [exact Hi|].
  exact (split_conserves_steps Bench.TIMER_FREQUENCY Bench.DELAY_CYCLE_SHIFT
           Bench.STATE_FILLED Bench.BEAGLEG_NUM_MOTORS
           hardware_frequency_limit_after_init Bench.long_move 1 Hwf Hgt Hi).
Defined.

Lemma split_speeds_continuous_witness :
  get_defining_axis_steps Bench.BEAGLEG_NUM_MOTORS (steps Bench.stop_move)
  > MAX_STEPS_PER_SEGMENT /\
  speed_chain
    (split_acceleration Bench.BEAGLEG_NUM_MOTORS Bench.stop_move)
    (F64.of_float (v0 Bench.stop_move)) (Bench.calls Bench.stop_move) /\
  continuous (Bench.calls Bench.stop_move) /\
  Forall (fun c => nonneg_number (v1 (fst c)) = true) (Bench.calls Bench.stop_move).
Proof.
  assert (get_defining_axis_steps Bench.BEAGLEG_NUM_MOTORS (steps Bench.stop_move)
          > MAX_STEPS_PER_SEGMENT) as Hgt by (vm_compute; reflexivity).
  split; [exact Hgt|].
  exact (split_speeds_continuous Bench.TIMER_FREQUENCY Bench.DELAY_CYCLE_SHIFT
           Bench.STATE_FILLED Bench.BEAGLEG_NUM_MOTORS
           hardware_frequency_limit_after_init Bench.stop_move Hgt).
Defined.

(** C2 as stated fails: stopping from speed 1 over 32768 steps, the last
    division ends at about 1.05e-8, not at 0. *)
Lemma split_stop_not_exact :
  F32.eqb (v1 Bench.slow_stop) (F32.of_int 0) = true /\
  get_defining_axis_steps Bench.BEAGLEG_NUM_MOTORS (steps Bench.slow_stop)
  > MAX_STEPS_PER_SEGMENT /\
  final_exit_speed Bench.TIMER_FREQUENCY Bench.DELAY_CYCLE_SHIFT Bench.STATE_FILLED
    Bench.BEAGLEG_NUM_MOTORS hardware_frequency_limit_after_init Bench.slow_stop
  = S754_finite false 11863283 (-50) /\
  is_zero
    (final_exit_speed Bench.TIMER_FREQUENCY Bench.DELAY_CYCLE_SHIFT Bench.STATE_FILLED
       Bench.BEAGLEG_NUM_MOTORS hardware_frequency_limit_after_init Bench.slow_stop)
  = false.
Proof. vm_compute. repeat split; reflexivity. Qed.

Lemma fraction_of_steps_witness :
  (1 < Bench.BEAGLEG_NUM_MOTORS)%nat /\
  0 < 1000 <= CInt.INT_MAX /\
  CInt.abs_defined (nth 1 (steps Bench.short_move) 0) /\
  Z.abs (nth 1 (steps Bench.short_move) 0) <= 1000 /\
  nth 1 (fractions (Bench.synthesize Bench.short_move 1000)) 0
  = Z.abs (nth 1 (steps Bench.short_move) 0) * (0xFFFFFFFF / LOOPS_PER_STEP) / 1000
  /\ 0xFFFFFFFF / LOOPS_PER_STEP = 2 ^ 31 - 1.
Proof.
  assert (1 < Bench.BEAGLEG_NUM_MOTORS)%nat as Hi by (unfold Bench.BEAGLEG_NUM_MOTORS; lia).
  assert (0 < 1000 <= CInt.INT_MAX) as Hd by (unfold CInt.INT_MAX; lia).
  assert (CInt.abs_defined (nth 1 (steps Bench.short_move) 0)) as Hs
    by (vm_compute; split; [reflexivity|discriminate]).
  assert (Z.abs (nth 1 (steps Bench.short_move) 0) <= 1000) as Hle
    by (vm_compute; discriminate).
  split; [exact Hi|]. split; [exact Hd|]. split; [exact Hs|]. split; [exact Hle|].
  exact (fraction_of_steps Bench.TIMER_FREQUENCY Bench.DELAY_CYCLE_SHIFT
           Bench.STATE_FILLED Bench.BEAGLEG_NUM_MOTORS
           hardware_frequency_limit_after_init Bench.short_move 1000 1 Hi Hd Hs Hle).
Defined.

(** C3 as stated fails: one step on the defining axis gives the fraction
    [2^31 - 1], where the stated scale [2^32 / LOOPS_PER_STEP] gives [2^31]. *)
Lemma fraction_scale_differs :
  nth 0 (fractions (Bench.synthesize Bench.unit_move 1)) 0 = 2147483647 /\
  stated_fraction (steps Bench.unit_move) 1 0 = 2147483648 /\
  nth 0 (fractions (Bench.synthesize Bench.unit_move 1)) 0
  <> stated_fraction (steps Bench.unit_move) 1 0.
Proof. vm_compute. repeat split; try reflexivity. discriminate. Qed.

(** C4 fails on the splitting path: a request with [aux_bits = 1] split in
    two divisions reaches the queue with an indeterminate [aux] in both
    segments. *)
Lemma split_loses_aux_bits :
  aux_bits Bench.aux_move = Some 1 /\
  fst (Bench.enqueue Bench.aux_move) = 0 /\
  map aux (queue (snd (Bench.enqueue Bench.aux_move))) = [None; None].
Proof. vm_compute. repeat split; reflexivity. Qed.

Lemma one_phase_per_segment_witness :
  0 < 1000 <= MAX_STEPS_PER_SEGMENT /\
  state (Bench.synthesize Bench.short_move 1000) = Bench.STATE_FILLED /\
  LOOPS_PER_STEP * 1000 <> 0 /\
  (if F32.eqb (v0 Bench.short_move) (v1 Bench.short_move) then
     loops_travel (Bench.synthesize Bench.short_move 1000) = LOOPS_PER_STEP * 1000 /\
     loops_accel (Bench.synthesize Bench.short_move 1000) = 0 /\
     loops_decel (Bench.synthesize Bench.short_move 1000) = 0
   else if F32.ltb (v0 Bench.short_move) (v1 Bench.short_move) then
     loops_accel (Bench.synthesize Bench.short_move 1000) = LOOPS_PER_STEP * 1000 /\
     loops_travel (Bench.synthesize Bench.short_move 1000) = 0 /\
     loops_decel (Bench.synthesize Bench.short_move 1000) = 0
   else
     loops_decel (Bench.synthesize Bench.short_move 1000) = LOOPS_PER_STEP * 1000 /\
     loops_travel (Bench.synthesize Bench.short_move 1000) = 0 /\
     loops_accel (Bench.synthesize Bench.short_move 1000) = 0).
Proof.
  assert (0 < 1000 <= MAX_STEPS_PER_SEGMENT) as Hd
    by (vm_compute; split; [reflexivity|discriminate]).
  split; [exact Hd|].
  exact (one_phase_per_segment Bench.TIMER_FREQUENCY Bench.DELAY_CYCLE_SHIFT
           Bench.STATE_FILLED Bench.BEAGLEG_NUM_MOTORS
           hardware_frequency_limit_after_init Bench.short_move 1000 Hd).
Defined.

Lemma synthesizer_precondition_witness :
  well_formed Bench.BEAGLEG_NUM_MOTORS Bench.stop_move /\
  Forall (fun c => 0 < snd c <= MAX_STEPS_PER_SEGMENT
                   /\ snd c = get_defining_axis_steps Bench.BEAGLEG_NUM_MOTORS
                                (steps (fst c)))
    (Bench.calls Bench.stop_move).
Proof.
  assert (well_formed Bench.BEAGLEG_NUM_MOTORS Bench.stop_move) as Hwf
    by well_formed_by_computation.
  split; [exact Hwf|].
  exact (synthesizer_precondition Bench.TIMER_FREQUENCY Bench.DELAY_CYCLE_SHIFT
           Bench.STATE_FILLED Bench.BEAGLEG_NUM_MOTORS
           hardware_frequency_limit_after_init Bench.stop_move Hwf).
Defined.

Lemma direction_bits_follow_steps_witness :
  well_formed Bench.BEAGLEG_NUM_MOTORS Bench.reverse_one /\
  (1 < Bench.BEAGLEG_NUM_MOTORS)%nat /\
  get_defining_axis_steps Bench.BEAGLEG_NUM_MOTORS (steps Bench.reverse_one)
  > MAX_STEPS_PER_SEGMENT /\
  Forall (fun c =>
            Z.testbit
              (direction_bits
                 (segment_of_call Bench.TIMER_FREQUENCY Bench.DELAY_CYCLE_SHIFT
                    Bench.STATE_FILLED Bench.BEAGLEG_NUM_MOTORS
                    hardware_frequency_limit_after_init c)) 1
            = (nth 1 (steps (fst c)) 0 <? 0))
    (Bench.calls Bench.reverse_one) /\
  Forall (fun c =>
            (Z.testbit
               (direction_bits
                  (segment_of_call Bench.TIMER_FREQUENCY Bench.DELAY_CYCLE_SHIFT
                     Bench.STATE_FILLED Bench.BEAGLEG_NUM_MOTORS
                     hardware_frequency_limit_after_init c)) 1 = true
             -> nth 1 (steps Bench.reverse_one) 0 < 0) /\
            (0 < nth 1 (steps (fst c)) 0 -> 0 < nth 1 (steps Bench.reverse_one) 0) /\
            (nth 1 (steps (fst c)) 0 < 0 -> nth 1 (steps Bench.reverse_one) 0 < 0))
    (Bench.calls Bench.reverse_one).
Proof.
  assert (well_formed Bench.BEAGLEG_NUM_MOTORS Bench.reverse_one) as Hwf
    by well_formed_by_computation.
  assert (1 < Bench.BEAGLEG_NUM_MOTORS)%nat as Hi by (unfold Bench.BEAGLEG_NUM_MOTORS; lia).
  assert (get_defining_axis_steps Bench.BEAGLEG_NUM_MOTORS (steps Bench.reverse_one)
          > MAX_STEPS_PER_SEGMENT) as Hgt by (vm_compute; reflexivity).
  split; [exact Hwf|]. split; [exact Hi|]. split; [exact Hgt|].
  destruct (direction_bits_follow_steps Bench.TIMER_FREQUENCY Bench.DELAY_CYCLE_SHIFT
              Bench.STATE_FILLED Bench.BEAGLEG_NUM_MOTORS
              hardware_frequency_limit_after_init Bench.reverse_one 1 Hwf Hi)
    as (_ & Hbits & _ & Hsplit).
  split; [exact Hbits|exact (Hsplit Hgt)].
Defined.

(** C8 as stated fails on the splitting path: motor 1 is asked one step
    backwards; the first division makes that step with its direction bit
    set, the second division moves motor 1 by nothing and has the bit
    clear although [steps[1] < 0]. *)
Lemma split_direction_bit_clear :
  nth 1 (steps Bench.reverse_one) 0 < 0 /\
  get_defining_axis_steps Bench.BEAGLEG_NUM_MOTORS (steps Bench.reverse_one)
  > MAX_STEPS_PER_SEGMENT /\
  map (fun c => nth 1 (steps (fst c)) 0) (Bench.calls Bench.reverse_one) = [-1; 0] /\
  map (fun seg => Z.testbit (direction_bits seg) 1) (Bench.segments Bench.reverse_one)
  = [true; false].
Proof. vm_compute. repeat split; reflexivity. Qed.

Lemma enqueue_fails_iff_zero_steps_witness :
  well_formed Bench.BEAGLEG_NUM_MOTORS Bench.null_move /\
  fst (beagleg_enqueue Bench.TIMER_FREQUENCY Bench.DELAY_CYCLE_SHIFT
         Bench.STATE_FILLED Bench.BEAGLEG_NUM_MOTORS
         hardware_frequency_limit_after_init Bench.null_move (Some (Stream 3))
         empty_world) = 1 /\
  queue (snd (beagleg_enqueue Bench.TIMER_FREQUENCY Bench.DELAY_CYCLE_SHIFT
                Bench.STATE_FILLED Bench.BEAGLEG_NUM_MOTORS
                hardware_frequency_limit_after_init Bench.null_move (Some (Stream 3))
                empty_world)) = [] /\
  written (snd (beagleg_enqueue Bench.TIMER_FREQUENCY Bench.DELAY_CYCLE_SHIFT
                  Bench.STATE_FILLED Bench.BEAGLEG_NUM_MOTORS
                  hardware_frequency_limit_after_init Bench.null_move (Some (Stream 3))
                  empty_world)) = [(Stream 3, zero_steps_message)].
Proof.
  assert (well_formed Bench.BEAGLEG_NUM_MOTORS Bench.null_move) as Hwf
    by well_formed_by_computation.
  split; [exact Hwf|].
  destruct (enqueue_fails_iff_zero_steps Bench.TIMER_FREQUENCY Bench.DELAY_CYCLE_SHIFT
              Bench.STATE_FILLED Bench.BEAGLEG_NUM_MOTORS
              hardware_frequency_limit_after_init Bench.null_move (Some (Stream 3))
              empty_world Hwf)
    as (_ & _ & _ & _ & Hfail & _).
  destruct (Hfail ltac:(repeat constructor)) as (Hret & Hqueue & _ & Hwritten).
  split; [exact Hret|]. split; [exact Hqueue|exact Hwritten].
Defined.

Lemma travel_divisor_zero_iff_witness :
  hardware_frequency_limit_after_init = hardware_frequency_limit_after_init /\
  F32.valid (v0 Bench.standstill) = true /\
  F32.eqb (v0 Bench.standstill) (v1 Bench.standstill) = true /\
  is_zero (travel_divisor hardware_frequency_limit_after_init Bench.standstill)
  = is_zero (v0 Bench.standstill) /\
  travel_delay_cycles (Bench.synthesize Bench.standstill 1)
  = round2int
      (F32.div (F32.of_int Bench.TIMER_FREQUENCY)
         (travel_divisor hardware_frequency_limit_after_init Bench.standstill)) /\
  (is_zero (v0 Bench.standstill) = true ->
   travel_delay_cycles (Bench.synthesize Bench.standstill 1) = None).
Proof.
  assert (F32.valid (v0 Bench.standstill) = true) as Hv by (vm_compute; reflexivity).
  assert (F32.eqb (v0 Bench.standstill) (v1 Bench.standstill) = true) as Heq
    by (vm_compute; reflexivity).
  split; [reflexivity|]. split; [exact Hv|]. split; [exact Heq|].
  exact (travel_divisor_zero_iff Bench.TIMER_FREQUENCY Bench.DELAY_CYCLE_SHIFT
           Bench.STATE_FILLED Bench.BEAGLEG_NUM_MOTORS
           hardware_frequency_limit_after_init Bench.standstill 1
           eq_refl Hv Heq).
Defined.

(** C10 as stated fails: one step at [v0 == v1 == 0] passes the zero-length
    check, its travel divisor is zero, and the delay of the segment it
    queues is the result of converting an infinity to [int]. *)
Lemma standstill_divides_by_zero :
  fst (Bench.enqueue Bench.standstill) = 0 /\
  F32.eqb (v0 Bench.standstill) (v1 Bench.standstill) = true /\
  travel_divisor hardware_frequency_limit_after_init Bench.standstill = S754_zero false /\
  F32.div (F32.of_int Bench.TIMER_FREQUENCY)
    (travel_divisor hardware_frequency_limit_after_init Bench.standstill)
  = S754_infinity false /\
  map travel_delay_cycles (queue (snd (Bench.enqueue Bench.standstill))) = [None].
Proof. vm_compute. repeat split; reflexivity. Qed.

(** ** Further properties at concrete requests *)

Lemma split_cumulative_steps_witness :
  well_formed Bench.BEAGLEG_NUM_MOTORS Bench.long_move /\
  get_defining_axis_steps Bench.BEAGLEG_NUM_MOTORS (steps Bench.long_move)
  > MAX_STEPS_PER_SEGMENT /\
  get_defining_axis_steps Bench.BEAGLEG_NUM_MOTORS (steps Bench.long_move)
  < 46340 * MAX_STEPS_PER_SEGMENT /\
  (1 < Bench.BEAGLEG_NUM_MOTORS)%nat /\
  (3 <= List.length (Bench.calls Bench.long_move))%nat /\
  Zsum (firstn 3 (axis_deltas 1 (Bench.calls Bench.long_move)))
  = (Z.of_nat 3 * nth 1 (steps Bench.long_move) 0)
    / (get_defining_axis_steps Bench.BEAGLEG_NUM_MOTORS (steps Bench.long_move)
       / MAX_STEPS_PER_SEGMENT + 1).
Proof.
  assert (well_formed Bench.BEAGLEG_NUM_MOTORS Bench.long_move) as Hwf
    by well_formed_by_computation.
  assert (get_defining_axis_steps Bench.BEAGLEG_NUM_MOTORS (steps Bench.long_move)
          > MAX_STEPS_PER_SEGMENT) as Hgt by (vm_compute; reflexivity).
  assert (get_defining_axis_steps Bench.BEAGLEG_NUM_MOTORS (steps Bench.long_move)
          < 46340 * MAX_STEPS_PER_SEGMENT) as Hsmall by (vm_compute; reflexivity).
  assert (1 < Bench.BEAGLEG_NUM_MOTORS)%nat as Hi by (unfold Bench.BEAGLEG_NUM_MOTORS; lia).
  assert (3 <= List.length (Bench.calls Bench.long_move))%nat as Hk
    by (vm_compute; lia).
  split; [exact Hwf|]. split; [exact Hgt|]. split; [exact Hsmall|].
  split; [exact Hi|]. split; [exact Hk|].
  exact (split_cumulative_steps Bench.TIMER_FREQUENCY Bench.DELAY_CYCLE_SHIFT
           Bench.STATE_FILLED Bench.BEAGLEG_NUM_MOTORS
           hardware_frequency_limit_after_init Bench.long_move 1 3
           Hwf Hgt Hsmall Hi Hk).
Defined.

Lemma split_never_overshoots_witness :
  well_formed Bench.BEAGLEG_NUM_MOTORS Bench.long_move /\
  get_defining_axis_steps Bench.BEAGLEG_NUM_MOTORS (steps Bench.long_move)
  > MAX_STEPS_PER_SEGMENT /\
  (1 < Bench.BEAGLEG_NUM_MOTORS)%nat /\
  (3 <= List.length (Bench.calls Bench.long_move))%nat /\
  (nth 1 (steps Bench.long_move) 0 <= 0 ->
   nth 1 (steps Bench.long_move) 0
   <= Zsum (firstn 3 (axis_deltas 1 (Bench.calls Bench.long_move))) <= 0).
Proof.
  assert (well_formed Bench.BEAGLEG_NUM_MOTORS Bench.long_move) as Hwf
    by well_formed_by_computation.
  assert (get_defining_axis_steps Bench.BEAGLEG_NUM_MOTORS (steps Bench.long_move)
          > MAX_STEPS_PER_SEGMENT) as Hgt by (vm_compute; reflexivity).
  assert (1 < Bench.BEAGLEG_NUM_MOTORS)%nat as Hi by (unfold Bench.BEAGLEG_NUM_MOTORS; lia).
  assert (3 <= List.length (Bench.calls Bench.long_move))%nat as Hk
    by (vm_compute; lia).
  split; [exact Hwf|]. split; [exact Hgt|]. split; [exact Hi|]. split; [exact Hk|].
  exact (proj2 (split_never_overshoots Bench.TIMER_FREQUENCY Bench.DELAY_CYCLE_SHIFT
                  Bench.STATE_FILLED Bench.BEAGLEG_NUM_MOTORS
                  hardware_frequency_limit_after_init Bench.long_move 1 3
                  Hwf Hgt Hi Hk)).
Defined.

Lemma split_divisions_even_witness :
  well_formed Bench.BEAGLEG_NUM_MOTORS Bench.stop_move /\
  get_defining_axis_steps Bench.BEAGLEG_NUM_MOTORS (steps Bench.stop_move)
  > MAX_STEPS_PER_SEGMENT /\
  (1 < Bench.BEAGLEG_NUM_MOTORS)%nat /\
  In (nth 0 (Bench.calls Bench.stop_move) (Bench.stop_move, 0))
    (Bench.calls Bench.stop_move) /\
  In (nth 3 (Bench.calls Bench.stop_move) (Bench.stop_move, 0))
    (Bench.calls Bench.stop_move) /\
  Z.abs (nth 1 (steps (fst (nth 0 (Bench.calls Bench.stop_move) (Bench.stop_move, 0)))) 0
         - nth 1 (steps (fst (nth 3 (Bench.calls Bench.stop_move) (Bench.stop_move, 0)))) 0)
  <= 1.
Proof.
  assert (well_formed Bench.BEAGLEG_NUM_MOTORS Bench.stop_move) as Hwf
    by well_formed_by_computation.
  assert (get_defining_axis_steps Bench.BEAGLEG_NUM_MOTORS (steps Bench.stop_move)
          > MAX_STEPS_PER_SEGMENT) as Hgt by (vm_compute; reflexivity).
  assert (1 < Bench.BEAGLEG_NUM_MOTORS)%nat as Hi by (unfold Bench.BEAGLEG_NUM_MOTORS; lia).
  assert (In (nth 0 (Bench.calls Bench.stop_move) (Bench.stop_move, 0))
            (Bench.calls Bench.stop_move)) as H1
    by (apply nth_In; vm_compute; lia).
  assert (In (nth 3 (Bench.calls Bench.stop_move) (Bench.stop_move, 0))
            (Bench.calls Bench.stop_move)) as H2
    by (apply nth_In; vm_compute; lia).
  split; [exact Hwf|]. split; [exact Hgt|]. split; [exact Hi|].
  split; [exact H1|]. split; [exact H2|].
  exact (split_divisions_even Bench.TIMER_FREQUENCY Bench.DELAY_CYCLE_SHIFT
           Bench.STATE_FILLED Bench.BEAGLEG_NUM_MOTORS
           hardware_frequency_limit_after_init Bench.stop_move 1 _ _
           Hwf Hgt Hi H1 H2).
Defined.

Lemma split_division_size_witness :
  well_formed Bench.BEAGLEG_NUM_MOTORS Bench.reverse_one /\
  get_defining_axis_steps Bench.BEAGLEG_NUM_MOTORS (steps Bench.reverse_one)
  > MAX_STEPS_PER_SEGMENT /\
  In (nth 1 (Bench.calls Bench.reverse_one) (Bench.reverse_one, 0))
    (Bench.calls Bench.reverse_one) /\
  16384 <= snd (nth 1 (Bench.calls Bench.reverse_one) (Bench.reverse_one, 0))
  <= MAX_STEPS_PER_SEGMENT.
Proof.
  assert (well_formed Bench.BEAGLEG_NUM_MOTORS Bench.reverse_one) as Hwf
    by well_formed_by_computation.
  assert (get_defining_axis_steps Bench.BEAGLEG_NUM_MOTORS (steps Bench.reverse_one)
          > MAX_STEPS_PER_SEGMENT) as Hgt by (vm_compute; reflexivity).
  assert (In (nth 1 (Bench.calls Bench.reverse_one) (Bench.reverse_one, 0))
            (Bench.calls Bench.reverse_one)) as Hc
    by (apply nth_In; vm_compute; lia).
  split; [exact Hwf|]. split; [exact Hgt|]. split; [exact Hc|].
  exact (proj1 (split_division_size Bench.TIMER_FREQUENCY Bench.DELAY_CYCLE_SHIFT
                  Bench.STATE_FILLED Bench.BEAGLEG_NUM_MOTORS
                  hardware_frequency_limit_after_init Bench.reverse_one _
                  Hwf Hgt Hc)).
Defined.

Lemma segment_fractions_bounded_witness :
  well_formed Bench.BEAGLEG_NUM_MOTORS Bench.stop_move /\
  In (nth 0 (Bench.calls Bench.stop_move) (Bench.stop_move, 0))
    (Bench.calls Bench.stop_move) /\
  forall i, (i < Bench.BEAGLEG_NUM_MOTORS)%nat ->
    0 <= nth i (fractions
                  (segment_of_call Bench.TIMER_FREQUENCY Bench.DELAY_CYCLE_SHIFT
                     Bench.STATE_FILLED Bench.BEAGLEG_NUM_MOTORS
                     hardware_frequency_limit_after_init
                     (nth 0 (Bench.calls Bench.stop_move) (Bench.stop_move, 0)))) 0
    <= 2 ^ 31 - 1.
Proof.
  assert (well_formed Bench.BEAGLEG_NUM_MOTORS Bench.stop_move) as Hwf
    by well_formed_by_computation.
  assert (In (nth 0 (Bench.calls Bench.stop_move) (Bench.stop_move, 0))
            (Bench.calls Bench.stop_move)) as Hc
    by (apply nth_In; vm_compute; lia).
  split; [exact Hwf|]. split; [exact Hc|].
  exact (proj1 (proj2 (segment_fractions_bounded Bench.TIMER_FREQUENCY
                         Bench.DELAY_CYCLE_SHIFT Bench.STATE_FILLED
                         Bench.BEAGLEG_NUM_MOTORS hardware_frequency_limit_after_init
                         Bench.stop_move _ Hwf Hc))).
Defined.

Lemma synthesizer_direction_symmetric_witness :
  (1 < Bench.BEAGLEG_NUM_MOTORS)%nat /\
  fractions (Bench.synthesize (mirrored Bench.short_move) 1000)
  = fractions (Bench.synthesize Bench.short_move 1000) /\
  Z.testbit (direction_bits (Bench.synthesize (mirrored Bench.short_move) 1000))
    (Z.of_nat 1)
  = (0 <? nth 1 (steps Bench.short_move) 0).
Proof.
  assert (1 < Bench.BEAGLEG_NUM_MOTORS)%nat as Hi by (unfold Bench.BEAGLEG_NUM_MOTORS; lia).
  split; [exact Hi|].
  destruct (synthesizer_direction_symmetric Bench.TIMER_FREQUENCY Bench.DELAY_CYCLE_SHIFT
              Bench.STATE_FILLED Bench.BEAGLEG_NUM_MOTORS
              hardware_frequency_limit_after_init Bench.short_move 1000 1 Hi)
    as (Hfr & _ & _ & _ & _ & _ & _ & _ & Hbit & _).
  split; [exact Hfr|exact Hbit].
Defined.


Lemma split_starts_at_requested_speed_witness :
  get_defining_axis_steps Bench.BEAGLEG_NUM_MOTORS (steps Bench.stop_move)
  > MAX_STEPS_PER_SEGMENT /\
  F32.valid (v0 Bench.stop_move) = true /\
  exists c rest, Bench.calls Bench.stop_move = c :: rest /\ v0 (fst c) = v0 Bench.stop_move.
Proof.
  assert (get_defining_axis_steps Bench.BEAGLEG_NUM_MOTORS (steps Bench.stop_move)
          > MAX_STEPS_PER_SEGMENT) as Hgt by (vm_compute; reflexivity).
  assert (F32.valid (v0 Bench.stop_move) = true) as Hv by (vm_compute; reflexivity).
  split; [exact Hgt|]. split; [exact Hv|].
  exact (split_starts_at_requested_speed Bench.TIMER_FREQUENCY Bench.DELAY_CYCLE_SHIFT
           Bench.STATE_FILLED Bench.BEAGLEG_NUM_MOTORS
           hardware_frequency_limit_after_init Bench.stop_move Hgt Hv).
Defined.

Lemma split_constant_speed_witness :
  well_formed Bench.BEAGLEG_NUM_MOTORS Bench.long_move /\
  get_defining_axis_steps Bench.BEAGLEG_NUM_MOTORS (steps Bench.long_move)
  > MAX_STEPS_PER_SEGMENT /\
  v0 Bench.long_move = S754_finite false 13107200 (-17) /\
  v1 Bench.long_move = v0 Bench.long_move /\
  F32.valid (v0 Bench.long_move) = true /\
  Forall (fun c =>
            v0 (fst c) = v0 Bench.long_move /\ v1 (fst c) = v0 Bench.long_move /\
            loops_travel
              (segment_of_call Bench.TIMER_FREQUENCY Bench.DELAY_CYCLE_SHIFT
                 Bench.STATE_FILLED Bench.BEAGLEG_NUM_MOTORS
                 hardware_frequency_limit_after_init c) = LOOPS_PER_STEP * snd c /\
            loops_accel
              (segment_of_call Bench.TIMER_FREQUENCY Bench.DELAY_CYCLE_SHIFT
                 Bench.STATE_FILLED Bench.BEAGLEG_NUM_MOTORS
                 hardware_frequency_limit_after_init c) = 0 /\
            loops_decel
              (segment_of_call Bench.TIMER_FREQUENCY Bench.DELAY_CYCLE_SHIFT
                 Bench.STATE_FILLED Bench.BEAGLEG_NUM_MOTORS
                 hardware_frequency_limit_after_init c) = 0 /\
            travel_delay_cycles
              (segment_of_call Bench.TIMER_FREQUENCY Bench.DELAY_CYCLE_SHIFT
                 Bench.STATE_FILLED Bench.BEAGLEG_NUM_MOTORS
                 hardware_frequency_limit_after_init c)
            = round2int
                (F32.div (F32.of_int Bench.TIMER_FREQUENCY)
                   (travel_divisor hardware_frequency_limit_after_init Bench.long_move)))
    (Bench.calls Bench.long_move).
Proof.
  assert (well_formed Bench.BEAGLEG_NUM_MOTORS Bench.long_move) as Hwf
    by well_formed_by_computation.
  assert (get_defining_axis_steps Bench.BEAGLEG_NUM_MOTORS (steps Bench.long_move)
          > MAX_STEPS_PER_SEGMENT) as Hgt by (vm_compute; reflexivity).
  assert (v0 Bench.long_move = S754_finite false 13107200 (-17)) as E0
    by (vm_compute; reflexivity).
  assert (v1 Bench.long_move = v0 Bench.long_move) as E1 by reflexivity.
  assert (F32.valid (v0 Bench.long_move) = true) as Hv by (vm_compute; reflexivity).
  split; [exact Hwf|]. split; [exact Hgt|]. split; [exact E0|]. split; [exact E1|].
  split; [exact Hv|].
  exact (split_constant_speed Bench.TIMER_FREQUENCY Bench.DELAY_CYCLE_SHIFT
           Bench.STATE_FILLED Bench.BEAGLEG_NUM_MOTORS
           hardware_frequency_limit_after_init Bench.long_move 13107200 (-17)
           Hwf Hgt E0 E1 Hv).
Defined.

Lemma single_segment_request_witness :
  well_formed Bench.BEAGLEG_NUM_MOTORS Bench.short_move /\
  get_defining_axis_steps Bench.BEAGLEG_NUM_MOTORS (steps Bench.short_move) <> 0 /\
  get_defining_axis_steps Bench.BEAGLEG_NUM_MOTORS (steps Bench.short_move)
  <= MAX_STEPS_PER_SEGMENT /\
  exists seg,
    queue (snd (Bench.enqueue Bench.short_move)) = queue empty_world ++ [seg] /\
    fst (Bench.enqueue Bench.short_move) = 0 /\
    written (snd (Bench.enqueue Bench.short_move)) = written empty_world /\
    aux seg = aux_bits Bench.short_move /\
    state seg = Bench.STATE_FILLED /\
    loops_accel seg + loops_travel seg + loops_decel seg
    = LOOPS_PER_STEP
      * get_defining_axis_steps Bench.BEAGLEG_NUM_MOTORS (steps Bench.short_move).
Proof.
  assert (well_formed Bench.BEAGLEG_NUM_MOTORS Bench.short_move) as Hwf
    by well_formed_by_computation.
  assert (get_defining_axis_steps Bench.BEAGLEG_NUM_MOTORS (steps Bench.short_move) <> 0)
    as Hne by (vm_compute; discriminate).
  assert (get_defining_axis_steps Bench.BEAGLEG_NUM_MOTORS (steps Bench.short_move)
          <= MAX_STEPS_PER_SEGMENT) as Hle by (vm_compute; discriminate).
  split; [exact Hwf|]. split; [exact Hne|]. split; [exact Hle|].
  exact (single_segment_request Bench.TIMER_FREQUENCY Bench.DELAY_CYCLE_SHIFT
           Bench.STATE_FILLED Bench.BEAGLEG_NUM_MOTORS
           hardware_frequency_limit_after_init Bench.short_move None empty_world
           Hwf Hne Hle).
Defined.

Lemma split_ignores_aux_bits_witness :
  get_defining_axis_steps Bench.BEAGLEG_NUM_MOTORS (steps Bench.aux_move)
  > MAX_STEPS_PER_SEGMENT /\
  Bench.segments (with_aux_bits Bench.aux_move (Some 0)) = Bench.segments Bench.aux_move /\
  (2 <= List.length (Bench.segments Bench.aux_move))%nat /\
  Forall (fun seg => aux seg = None) (Bench.segments Bench.aux_move).
Proof.
  assert (get_defining_axis_steps Bench.BEAGLEG_NUM_MOTORS (steps Bench.aux_move)
          > MAX_STEPS_PER_SEGMENT) as Hgt by (vm_compute; reflexivity).
  split; [exact Hgt|].
  exact (split_ignores_aux_bits Bench.TIMER_FREQUENCY Bench.DELAY_CYCLE_SHIFT
           Bench.STATE_FILLED Bench.BEAGLEG_NUM_MOTORS
           hardware_frequency_limit_after_init Bench.aux_move (Some 0) Hgt).
Defined.

Lemma NextLine_advances_witness :
  inside Sample.SIZE_MAX Sample.content Sample.content_data /\
  StringPiece.data_ Sample.content_data = Some 0 /\
  StringPiece.len_ Sample.content_data <> 0 /\
  exists result rest q,
    ConfigParser.NextLine Sample.SIZE_MAX Sample.content Sample.content_data
    = Some (result, rest) /\
    StringPiece.data_ result = Some 0 /\
    0 <= StringPiece.len_ result <= StringPiece.len_ Sample.content_data /\
    StringPiece.data_ rest = Some q /\
    q + StringPiece.len_ rest = 0 + StringPiece.len_ Sample.content_data /\
    0 <= StringPiece.len_ rest < StringPiece.len_ Sample.content_data /\
    inside Sample.SIZE_MAX Sample.content rest.
Proof.
  assert (inside Sample.SIZE_MAX Sample.content Sample.content_data) as Hin
    by (vm_compute; repeat split; discriminate).
  assert (StringPiece.data_ Sample.content_data = Some 0) as Hd by reflexivity.
  assert (StringPiece.len_ Sample.content_data <> 0) as Hne
    by (vm_compute; discriminate).
  split; [exact Hin|]. split; [exact Hd|]. split; [exact Hne|].
  exact (NextLine_advances Sample.SIZE_MAX Sample.content Sample.content_data 0
           Hin Hd Hne).
Defined.

Lemma NextLine_line_witness :
  inside Sample.SIZE_MAX Sample.content Sample.content_data /\
  StringPiece.data_ Sample.content_data = Some 0 /\
  StringPiece.len_ Sample.content_data <> 0 /\
  exists result rest,
    ConfigParser.NextLine Sample.SIZE_MAX Sample.content Sample.content_data
    = Some (result, rest) /\
    StringPiece.ToString Sample.content result
    = (if existsb ConfigParser.is_newline
            (StringPiece.ToString Sample.content Sample.content_data)
       then before ConfigParser.ends_line
              (StringPiece.ToString Sample.content Sample.content_data)
       else StringPiece.ToString Sample.content Sample.content_data) /\
    StringPiece.ToString Sample.content rest
    = after ConfigParser.is_newline
        (StringPiece.ToString Sample.content Sample.content_data) /\
    (existsb ConfigParser.is_newline
       (StringPiece.ToString Sample.content Sample.content_data) = true ->
     Forall (fun c => ConfigParser.ends_line c = false)
       (StringPiece.ToString Sample.content result)).
Proof.
  assert (inside Sample.SIZE_MAX Sample.content Sample.content_data) as Hin
    by (vm_compute; repeat split; discriminate).
  assert (StringPiece.data_ Sample.content_data = Some 0) as Hd by reflexivity.
  assert (StringPiece.len_ Sample.content_data <> 0) as Hne
    by (vm_compute; discriminate).
  split; [exact Hin|]. split; [exact Hd|]. split; [exact Hne|].
  exact (NextLine_line Sample.SIZE_MAX Sample.content Sample.content_data 0
           Hin Hd Hne).
Defined.

Lemma content_lines_counted_witness :
  inside Sample.SIZE_MAX Sample.content Sample.content_data /\
  exists lines,
    ConfigParser.content_lines Sample.SIZE_MAX Sample.content
      (S (Z.to_nat (StringPiece.len_ Sample.content_data))) Sample.content_data
    = Some lines /\
    List.length lines
    = line_count (StringPiece.ToString Sample.content Sample.content_data) /\
    Forall (fun line =>
              StringPiece.data_ line <> None /\
              Forall (fun c => ConfigParser.is_newline c = false)
                (StringPiece.ToString Sample.content line))
      lines.
Proof.
  assert (inside Sample.SIZE_MAX Sample.content Sample.content_data) as Hin
    by (vm_compute; repeat split; discriminate).
  split; [exact Hin|].
  exact (content_lines_counted Sample.SIZE_MAX Sample.content Sample.content_data Hin).
Defined.

Lemma substr_in_range_witness :
  inside Sample.SIZE_MAX Sample.content Sample.content_data /\
  StringPiece.data_ Sample.content_data <> None /\
  0 <= 1 /\ 0 <= 1 /\ 1 + 1 <= Sample.SIZE_MAX /\
  1 + 1 <= StringPiece.len_ Sample.content_data /\
  exists r,
    StringPiece.substr Sample.SIZE_MAX Sample.content_data 1 1 = Some r /\
    inside Sample.SIZE_MAX Sample.content r /\
    StringPiece.ToString Sample.content r
    = firstn (Z.to_nat 1)
        (skipn (Z.to_nat 1) (StringPiece.ToString Sample.content Sample.content_data)).
Proof.
  assert (inside Sample.SIZE_MAX Sample.content Sample.content_data) as Hin
    by (vm_compute; repeat split; discriminate).
  assert (StringPiece.data_ Sample.content_data <> None) as Hd by discriminate.
  assert (0 <= 1) as Hpos by lia.
  assert (1 + 1 <= Sample.SIZE_MAX) as Hmax by (vm_compute; discriminate).
  assert (1 + 1 <= StringPiece.len_ Sample.content_data) as Hle
    by (vm_compute; discriminate).
  split; [exact Hin|]. split; [exact Hd|]. split; [exact Hpos|]. split; [exact Hpos|].
  split; [exact Hmax|]. split; [exact Hle|].
  exact (proj1 (substr_in_range Sample.SIZE_MAX Sample.content Sample.content_data
                  1 1 Hin Hd Hpos Hpos Hmax) Hle).
Defined.

Lemma substr_from_unchecked_witness :
  0 <= StringPiece.len_ Sample.content_data <= Sample.SIZE_MAX /\
  0 <= 20 <= Sample.SIZE_MAX /\
  exists r,
    StringPiece.substr_from Sample.SIZE_MAX Sample.content_data 20 = Some r /\
    StringPiece.data_ r = StringPiece.ptr_add (StringPiece.data_ Sample.content_data) 20 /\
    StringPiece.len_ r
    = (if 20 <=? StringPiece.len_ Sample.content_data
       then StringPiece.len_ Sample.content_data - 20
       else Sample.SIZE_MAX + 1 - (20 - StringPiece.len_ Sample.content_data)) /\
    (StringPiece.len_ Sample.content_data < 20 ->
     StringPiece.len_ Sample.content_data < 20 + StringPiece.len_ r).
Proof.
  assert (0 <= StringPiece.len_ Sample.content_data <= Sample.SIZE_MAX) as Hl
    by (vm_compute; repeat split; discriminate).
  assert (0 <= 20 <= Sample.SIZE_MAX) as Hpos
    by (vm_compute; repeat split; discriminate).
  split; [exact Hl|]. split; [exact Hpos|].
  exact (substr_from_unchecked Sample.SIZE_MAX Sample.content_data 20 Hl Hpos).
Defined.

Lemma split_total_steps_witness :
  well_formed Bench.BEAGLEG_NUM_MOTORS Bench.opposed_move /\
  get_defining_axis_steps Bench.BEAGLEG_NUM_MOTORS (steps Bench.opposed_move)
  > MAX_STEPS_PER_SEGMENT /\
  get_defining_axis_steps Bench.BEAGLEG_NUM_MOTORS (steps Bench.opposed_move)
  <= Zsum (map snd (Bench.calls Bench.opposed_move))
  <= get_defining_axis_steps Bench.BEAGLEG_NUM_MOTORS (steps Bench.opposed_move)
     + (get_defining_axis_steps Bench.BEAGLEG_NUM_MOTORS (steps Bench.opposed_move)
        / MAX_STEPS_PER_SEGMENT + 1).
Proof.
  assert (well_formed Bench.BEAGLEG_NUM_MOTORS Bench.opposed_move) as Hwf
    by well_formed_by_computation.
  assert (get_defining_axis_steps Bench.BEAGLEG_NUM_MOTORS (steps Bench.opposed_move)
          > MAX_STEPS_PER_SEGMENT) as Hgt by (vm_compute; reflexivity).
  split; [exact Hwf|]. split; [exact Hgt|].
  exact (split_total_steps Bench.TIMER_FREQUENCY Bench.DELAY_CYCLE_SHIFT
           Bench.STATE_FILLED Bench.BEAGLEG_NUM_MOTORS
           hardware_frequency_limit_after_init Bench.opposed_move Hwf Hgt).
Defined.

(** The bound is met from above: two axes of the same length that move in
    opposite directions round differently, and the six divisions count
    three steps more than the request. *)
Example opposed_axes_lengthen_the_split :
  get_defining_axis_steps Bench.BEAGLEG_NUM_MOTORS (steps Bench.opposed_move) = 185631 /\
  Zsum (map snd (Bench.calls Bench.opposed_move)) = 185634.
Proof. vm_compute. split; reflexivity. Qed.

Lemma ramp_from_rest_witness :
  is_zero (v0 Bench.start_move) = true /\
  F32.ltb (v0 Bench.start_move) (v1 Bench.start_move) = true /\
  F32.valid (ramp_acceleration Bench.start_move 1000) = true /\
  ramp_acceleration Bench.start_move 1000 <> S754_nan /\
  is_zero (ramp_acceleration Bench.start_move 1000) = false /\
  accel_series_index (Bench.synthesize Bench.start_move 1000) = Some 0.
Proof.
  assert (is_zero (v0 Bench.start_move) = true) as Hz by reflexivity.
  assert (F32.ltb (v0 Bench.start_move) (v1 Bench.start_move) = true) as Hlt
    by (vm_compute; reflexivity).
  assert (F32.valid (ramp_acceleration Bench.start_move 1000) = true) as Hv
    by (vm_compute; reflexivity).
  assert (ramp_acceleration Bench.start_move 1000 <> S754_nan) as Hnan
    by (vm_compute; discriminate).
  assert (is_zero (ramp_acceleration Bench.start_move 1000) = false) as Hnz
    by (vm_compute; reflexivity).
  split; [exact Hz|]. split; [exact Hlt|]. split; [exact Hv|]. split; [exact Hnan|].
  split; [exact Hnz|].
  destruct (ramp_from_rest Bench.TIMER_FREQUENCY Bench.DELAY_CYCLE_SHIFT
              Bench.STATE_FILLED Bench.BEAGLEG_NUM_MOTORS
              hardware_frequency_limit_after_init Bench.start_move 1000
              Hz Hlt Hv Hnan) as (_ & _ & _ & Hiff & _).
  exact (proj2 Hiff Hnz).
Defined.

(** The other case occurs: the square of the smallest positive [float] is
    zero, and so is the acceleration. *)
Example creeping_ramp_is_indeterminate :
  F32.ltb (v0 Bench.creeping_move) (v1 Bench.creeping_move) = true /\
  is_zero (ramp_acceleration Bench.creeping_move 1000) = true /\
  accel_series_index (Bench.synthesize Bench.creeping_move 1000) = None /\
  hires_accel_cycles (Bench.synthesize Bench.creeping_move 1000) = None.
Proof. vm_compute. repeat split; reflexivity. Qed.

(** A gentle ramp, from standstill to 100 steps a second over 10000 steps:
    the acceleration is 1/2 and the index 0, but the first delay, about
    6.1e9 after the shift, is beyond the range of [int]. *)
Example gentle_ramp_delay_is_indeterminate :
  ramp_acceleration Bench.gentle_start 10000 = F32.div (F32.of_int 1) (F32.of_int 2) /\
  accel_series_index (Bench.synthesize Bench.gentle_start 10000) = Some 0 /\
  hires_accel_cycles (Bench.synthesize Bench.gentle_start 10000) = None.
Proof. vm_compute. repeat split; reflexivity. Qed.


